(** * Instrument audio synthesis engine of the music tutor

  A shallow embedding of [src/tools/audio_renderer.py] (class
  [AudioRenderer]): the instrument timbre table, the two note
  extractors, the additive synthesiser, the PCM quantiser and the
  renderer facade with its fallback chain.

  Python floats are modelled by exact rationals ([Q]), and the quotient
  that [_get_wav_duration] rounds to a decimal by the double nearest to
  it ([Num.fl]). Truncating an exact product rather than the double the
  code computes can move a frame count by one. An operation that numpy,
  scipy, mido or the operating system provides (sine, power, Gaussian
  draws, the Butterworth filter, files) is a field of the record [host]
  and every theorem holds for any host. *)

From stdpp Require Import gmap strings list pretty.
From Stdlib Require Import QArith Qround Qabs Lqa Permutation.

Local Open Scope Z_scope.

(** ** Float arithmetic on rationals *)

Module Num.

(** Python [int(x)] on a float: truncation towards zero. *)
Definition py_int (x : Q) : Z := Z.quot (Qnum x) (Zpos (Qden x)).

Definition Qlt_bool (x y : Q) : bool := negb (Qle_bool y x).

(** [np.clip(x, lo, hi)] is [minimum(maximum(x, lo), hi)]. *)
Definition np_clip (x lo hi : Q) : Q :=
  let m := if Qlt_bool x lo then lo else x in
  if Qlt_bool hi m then hi else m.

(** A cast to a 16-bit signed integer keeps the low 16 bits. *)
Definition wrap16 (z : Z) : Z := (z + 32768) mod 65536 - 32768.

(** [x.astype(np.int16)] on a float: truncate, then store in 16 bits. *)
Definition astype_int16 (x : Q) : Z := wrap16 (py_int x).

(** Python [round(x)] to the nearest integer, ties to even. *)
Definition round_half_even (x : Q) : Z :=
  let f := Qfloor x in
  let r := (x - inject_Z f)%Q in
  if Qlt_bool r (1 # 2) then f
  else if Qlt_bool (1 # 2) r then f + 1
  else if Z.even f then f else f + 1.

(** The double nearest to [x], ties to even: binary64 with its 53-bit
    significand and its subnormals; overflow is outside the model. With
    [2 ^ E <= |x| < 2 ^ (E + 1)] the significand is [|x| / 2 ^ (E - 52)]
    rounded to an integer. *)
Definition fl (x : Q) : Q :=
  let n := Z.abs (Qnum x) in
  if n =? 0 then 0%Q
  else
    let a := (n # Qden x)%Q in
    let g := Z.log2 n - Z.log2 (Zpos (Qden x)) in
    let E := if Qle_bool (2 ^ g) a then g else g - 1 in
    let e := Z.max (E - 52) (-1074) in
    let m := round_half_even (a / 2 ^ e) in
    Qred ((if Qnum x <? 0 then -1 else 1) * (inject_Z m * 2 ^ e))%Q.

(** Python [round(x, 1)] of a double [x]: the decimal with one place that
    is nearest to the value of [x], ties to even; the float returned is
    the one that prints as this decimal. *)
Definition py_round1 (x : Q) : Q :=
  (inject_Z (round_half_even (x * 10)) / 10)%Q.

End Num.
Export Num.

(** ** Instrument timbre table ([_get_instrument_parameters]) *)

Record harmonic := Harmonic { frequency_multiplier : Q; amplitude : Q }.

Record params := Params {
fundamental_amplitude : Q;
harmonics : list harmonic;
inharmonicity : Q;
noise_level : Q;
attack_time : Q;
decay_time : Q;
sustain_level : Q;
release_time : Q;
filter_cutoff : Q;
overall_amplitude : Q
}.

Module Timbre.
Local Open Scope Q_scope.

Definition default_params : params :=
  {| fundamental_amplitude := 0.4;
     harmonics := [Harmonic 2 0.2; Harmonic 3 0.1; Harmonic 4 0.05; Harmonic 5 0.03];
     inharmonicity := 1.001;
     noise_level := 0.005;
     attack_time := 0.02;
     decay_time := 0.08;
     sustain_level := 0.7;
     release_time := 0.3;
     filter_cutoff := 8000;
     overall_amplitude := 0.3 |}.

(** [{**default_params, 'fundamental_amplitude': .., 'harmonics': ..,
    'overall_amplitude': ..}] *)
Definition piano : params :=
  {| fundamental_amplitude := 0.5;
     harmonics := [Harmonic 2 0.25; Harmonic 3 0.15; Harmonic 4 0.08; Harmonic 5 0.04];
     inharmonicity := inharmonicity default_params;
     noise_level := noise_level default_params;
     attack_time := attack_time default_params;
     decay_time := decay_time default_params;
     sustain_level := sustain_level default_params;
     release_time := release_time default_params;
     filter_cutoff := filter_cutoff default_params;
     overall_amplitude := 0.4 |}.

Definition violin : params :=
  {| fundamental_amplitude := 0.6;
     harmonics := [Harmonic 2 0.3; Harmonic 3 0.2; Harmonic 4 0.1; Harmonic 5 0.05];
     inharmonicity := 1.0005;
     noise_level := 0.003;
     attack_time := 0.01;
     decay_time := 0.05;
     sustain_level := 0.8;
     release_time := 0.4;
     filter_cutoff := 12000;
     overall_amplitude := 0.35 |}.

Definition guitar : params :=
  {| fundamental_amplitude := 0.5;
     harmonics := [Harmonic 2 0.3; Harmonic 3 0.2; Harmonic 4 0.1; Harmonic 5 0.05];
     inharmonicity := 1.002;
     noise_level := 0.008;
     attack_time := 0.03;
     decay_time := 0.1;
     sustain_level := 0.6;
     release_time := 0.5;
     filter_cutoff := 6000;
     overall_amplitude := 0.3 |}.

Definition flute : params :=
  {| fundamental_amplitude := 0.7;
     harmonics := [Harmonic 2 0.4; Harmonic 3 0.2; Harmonic 4 0.1];
     inharmonicity := 1.0001;
     noise_level := 0.002;
     attack_time := 0.05;
     decay_time := 0.1;
     sustain_level := 0.9;
     release_time := 0.6;
     filter_cutoff := 15000;
     overall_amplitude := 0.25 |}.

Definition clarinet : params :=
  {| fundamental_amplitude := 0.6;
     harmonics := [Harmonic 2 0.3; Harmonic 3 0.4; Harmonic 4 0.2; Harmonic 5 0.1];
     inharmonicity := 1.0003;
     noise_level := 0.004;
     attack_time := 0.02;
     decay_time := 0.08;
     sustain_level := 0.8;
     release_time := 0.3;
     filter_cutoff := 10000;
     overall_amplitude := 0.3 |}.

Definition trumpet : params :=
  {| fundamental_amplitude := 0.5;
     harmonics := [Harmonic 2 0.4; Harmonic 3 0.3; Harmonic 4 0.2; Harmonic 5 0.1];
     inharmonicity := 1.0002;
     noise_level := 0.006;
     attack_time := 0.01;
     decay_time := 0.05;
     sustain_level := 0.9;
     release_time := 0.2;
     filter_cutoff := 12000;
     overall_amplitude := 0.4 |}.

Definition voice : params :=
  {| fundamental_amplitude := 0.6;
     harmonics := [Harmonic 2 0.3; Harmonic 3 0.2; Harmonic 4 0.1; Harmonic 5 0.05];
     inharmonicity := 1.0005;
     noise_level := 0.01;
     attack_time := 0.03;
     decay_time := 0.1;
     sustain_level := 0.7;
     release_time := 0.4;
     filter_cutoff := 8000;
     overall_amplitude := 0.3 |}.

(** The dict literal, in declaration order. *)
Definition instrument_table : list (string * params) :=
  [ ("Music Theory", default_params); ("Piano", piano); ("Violin", violin);
    ("Guitar", guitar); ("Flute", flute); ("Clarinet", clarinet);
    ("Trumpet", trumpet); ("Voice", voice) ]%string.

Definition instrument_params : gmap string params := list_to_map instrument_table.

(** [instrument_params.get(instrument, default_params)] *)
Definition _get_instrument_parameters (instrument : string) : params :=
  default default_params (instrument_params !! instrument).

End Timbre.
Export Timbre.

(** ** Post-processing: gain, clip, 16-bit cast *)

(** [audio_data = audio_data * 16384]
  [audio_data = np.clip(audio_data, -32767, 32767).astype(np.int16)] *)
Definition to_pcm16 (audio_data : list Q) : list Z :=
map (fun x => astype_int16 (np_clip (x * 16384) (-32767) 32767)%Q) audio_data.

(** ** Exceptions, the host libraries and the mutable state *)

(** The result of a Python expression: a value, or a raised exception
    (an instance of [Exception]) with the text that identifies it. *)
Inductive outcome (A : Type) : Type :=
| Ok (a : A)
| Raise (e : string).
Arguments Ok {A} a.
Arguments Raise {A} e.

#[global] Instance outcome_ret : MRet outcome := fun A a => Ok a.
#[global] Instance outcome_bind : MBind outcome := fun A B f m =>
  match m with
  | Ok a => f a
  | Raise e => Raise e
  end.

(** True division [x / y]. *)
Definition py_div (x y : Q) : outcome Q :=
  if Qeq_bool y 0 then Raise "ZeroDivisionError" else Ok (x / y)%Q.

(** A WAV file on disk, as [wave] writes and reads it. *)
Record wav := Wav {
  nchannels : Z;
  sampwidth : Z;
  framerate : Z;
  frames : list Z
}.

(** What synthesis reads and changes besides its arguments: the file at
    [wav_path], the position of numpy's global random generator, and
    (ghost) the indices stored to in the sample buffer so far. *)
Record sys := Sys {
  wav_file : option wav;
  rng_pos : nat;
  stores : list Z
}.

(** A computation that may raise and that changes [sys]; changes made
    before an exception stay. *)
Definition M (A : Type) : Type := sys -> outcome A * sys.

#[global] Instance M_ret : MRet M := fun A a s => (Ok a, s).
#[global] Instance M_bind : MBind M := fun A B f m s =>
  match m s with
  | (Ok a, s') => f a s'
  | (Raise e, s') => (Raise e, s')
  end.

Definition lift {A} (o : outcome A) : M A := fun s => (o, s).

(** [try: m  except Exception as e: h e] *)
Definition try_except {A} (m : M A) (h : string -> M A) : M A := fun s =>
  match m s with
  | (Ok a, s') => (Ok a, s')
  | (Raise e, s') => h e s'
  end.

(** [for x in xs: acc = body acc x] *)
Fixpoint for_each {A B} (body : B -> A -> M B) (xs : list A) (acc : B) : M B :=
  match xs with
  | [] => mret acc
  | x :: xs' => acc' ← body acc x; for_each body xs' acc'
  end.

(** [for i in range(n): if stop i: break; acc = body i acc], entered at
    index [i] with [n] iterations left. *)
Fixpoint for_range_break {B} (stop : Z -> bool) (body : Z -> B -> M B)
    (n : nat) (i : Z) (acc : B) : M B :=
  match n with
  | O => mret acc
  | S n' =>
      if stop i then mret acc
      else acc' ← body i acc; for_range_break stop body n' (i + 1) acc'
  end.

(** The libraries and the machine the renderer runs on. *)
Record host := Host {
  np_sin : Q -> Q;
  np_pi : Q;
  (** [2 ** x] on floats *)
  pow2 : Q -> Q;
  (** the standard normal variates numpy's global generator hands out,
      in order *)
  gauss : nat -> Q;
  (** the largest array [np.zeros] can allocate *)
  mem_limit : Z;
  (** [b, a = signal.butter(4, wn, btype='low'); signal.filtfilt(b, a, x)] *)
  butter_filtfilt : Q -> list Q -> outcome (list Q);
  filtfilt_length : forall wn x y,
    butter_filtfilt wn x = Ok y -> length y = length x;
  (** whether [wave.open(wav_path, 'w')] and the writes to the file
      succeed *)
  wav_writable : bool;
  (** [base64.b64encode] of the bytes of the WAV file *)
  b64encode_wav : wav -> string
}.

Section Arrays.
Context (H : host).

(** [np.zeros(n)] *)
Definition np_zeros (n : Z) : outcome (list Q) :=
  if n <? 0 then Raise "ValueError"
  else if mem_limit H <? n then Raise "MemoryError"
  else Ok (replicate (Z.to_nat n) 0%Q).

(** The position an index [k] designates in an array of [len] cells:
    numpy counts a negative index from the end. *)
Definition np_index (len k : Z) : outcome nat :=
  if (0 <=? k) && (k <? len) then Ok (Z.to_nat k)
  else if (- len <=? k) && (k <? 0) then Ok (Z.to_nat (len + k))
  else Raise "IndexError".

Definition log_store (k : Z) : M unit := fun s =>
  (Ok tt, {| wav_file := wav_file s; rng_pos := rng_pos s; stores := stores s ++ [k] |}).

(** [a[k] += v] *)
Definition array_iadd (a : list Q) (k : Z) (v : Q) : M (list Q) :=
  j ← lift (np_index (Z.of_nat (length a)) k);
  _ ← log_store k;
  mret (alter (fun x => x + v)%Q j a).

(** [a[k] = v] *)
Definition array_set (a : list Q) (k : Z) (v : Q) : M (list Q) :=
  j ← lift (np_index (Z.of_nat (length a)) k);
  _ ← log_store k;
  mret (<[j := v]> a).

(** [np.random.normal(0, sigma)] *)
Definition np_random_normal (sigma : Q) : M Q := fun s =>
  (Ok (0 + sigma * gauss H (rng_pos s))%Q,
   {| wav_file := wav_file s; rng_pos := S (rng_pos s); stores := stores s |}).

(** [with wave.open(wav_path, 'w') as f: mono, 16 bit, rate; writeframes].
    A failure is that of [wave.open], which leaves the file as it was; a
    write that fails after the file was opened, and so emptied, has no
    counterpart here. *)
Definition wave_write (rate : Z) (pcm : list Z) : M unit := fun s =>
  if wav_writable H
  then (Ok tt, {| wav_file := Some (Wav 1 2 rate pcm); rng_pos := rng_pos s; stores := stores s |})
  else (Raise "OSError", s).

End Arrays.

(** ** The additive synthesiser *)

Definition sample_rate : Z := 44100.

Section Synth.
Context (H : host).
Local Open Scope Q_scope.

(** [midi_to_freq]: [440 * (2 ** ((midi_note - 69) / 12))] *)
Definition midi_to_freq (midi_note : Z) : Q :=
  440 * pow2 H ((inject_Z midi_note - 69) / 12).

(** The ADSR envelope of frame [i] of a note of [duration_frames] frames
    (lines 206-223 and, with [note_frames], 420-437). *)
Definition envelope (p : params) (duration_frames i : Z) : outcome Q :=
  let attack_time := py_int (inject_Z duration_frames * attack_time p) in
  let decay_time := py_int (inject_Z duration_frames * decay_time p) in
  let sustain_level := sustain_level p in
  let release_time := py_int (inject_Z duration_frames * release_time p) in
  if (i <? attack_time)%Z then
    py_div (inject_Z i) (inject_Z attack_time)
  else if (i <? attack_time + decay_time)%Z then
    decay_progress ← py_div (inject_Z (i - attack_time)) (inject_Z decay_time);
    mret (1.0 - decay_progress * (1.0 - sustain_level))
  else if (i <? duration_frames - release_time)%Z then
    mret sustain_level
  else
    release_progress ←
      py_div (inject_Z (i - (duration_frames - release_time))) (inject_Z release_time);
    mret (sustain_level * (1.0 - release_progress)).

End Synth.

(** ** The MIDI path: [_extract_midi_notes] and [_convert_midi_to_wav_direct] *)

Module Midi.

(** A mido message; only [msg.time] is read of a message of another type. *)
Inductive message :=
| note_on (note velocity channel time : Z)
| note_off (note velocity channel time : Z)
| set_tempo (tempo time : Z)
| other_message (time : Z).

Definition time (msg : message) : Z :=
  match msg with
  | note_on _ _ _ t | note_off _ _ _ t | set_tempo _ t | other_message t => t
  end.

Record MidiFile := { ticks_per_beat : Z; tracks : list (list message) }.

(** A note dict. *)
Record note_data := NoteData {
  note : Z;
  velocity : Z;
  start_time : Q;
  duration : Q;
  channel : Z
}.

Definition set_duration (d : Q) (n : note_data) : note_data :=
  {| note := note n; velocity := velocity n; start_time := start_time n;
     duration := d; channel := channel n |}.

(** The variables of the extraction loop. The dicts of [notes] are shared
    with [active_notes]: an entry of [active_notes] holds the position in
    [notes] of the dict it aliases. *)
Record vars := Vars {
  notes : list note_data;
  tempo : Q;
  track_time : Q;
  active_notes : gmap Z nat
}.

(** [mido.tempo2bpm] *)
Definition tempo2bpm (t : Z) : outcome Q := py_div 60000000 (inject_Z t).

(** The note-end branch (lines 299-305). *)
Definition close_note (n : Z) (v : vars) : vars :=
  match active_notes v !! n with
  | Some idx =>
      let upd nd :=
        let d := (track_time v - start_time nd)%Q in
        set_duration (if Qlt_bool d 0.1 then 0.5%Q else d) nd in
      {| notes := alter upd idx (notes v); tempo := tempo v;
         track_time := track_time v; active_notes := delete n (active_notes v) |}
  | None => v
  end.

(** One iteration of [for msg in track] (lines 276-305). *)
Definition on_message (tpb : Z) (v : vars) (msg : message) : outcome vars :=
  ticks ← py_div (inject_Z (time msg)) (inject_Z tpb);
  spb ← py_div 60.0 (tempo v);
  let delta_time := (ticks * spb)%Q in
  let v := {| notes := notes v; tempo := tempo v;
              track_time := (track_time v + delta_time)%Q;
              active_notes := active_notes v |} in
  match msg with
  | set_tempo t _ =>
      bpm ← tempo2bpm t;
      mret {| notes := notes v; tempo := bpm; track_time := track_time v;
              active_notes := active_notes v |}
  | note_on n vel ch _ =>
      if 0 <? vel then
        let nd := NoteData n vel (track_time v) 0.5 ch in
        mret {| notes := notes v ++ [nd]; tempo := tempo v;
                track_time := track_time v;
                active_notes := <[n := length (notes v)]> (active_notes v) |}
      else if vel =? 0 then mret (close_note n v)
      else mret v
  | note_off n _ _ _ => mret (close_note n v)
  | other_message _ => mret v
  end.

Fixpoint on_messages (tpb : Z) (v : vars) (track : list message) : outcome vars :=
  match track with
  | [] => mret v
  | msg :: rest => v' ← on_message tpb v msg; on_messages tpb v' rest
  end.

(** One iteration of [for track in mid.tracks]. *)
Definition on_track (tpb : Z) (nt : list note_data * Q) (track : list message)
  : outcome (list note_data * Q) :=
  v ← on_messages tpb (Vars nt.1 nt.2 0.0 ∅) track;
  mret (notes v, tempo v).

Fixpoint on_tracks (tpb : Z) (nt : list note_data * Q) (trks : list (list message))
  : outcome (list note_data * Q) :=
  match trks with
  | [] => mret nt
  | track :: rest => nt' ← on_track tpb nt track; on_tracks tpb nt' rest
  end.

Definition placeholder : note_data := NoteData 60 100 0.0 1.0 0.

(** The [try] block of [_extract_midi_notes], from the parsed file on. *)
Definition extract_body (mid : MidiFile) : outcome (list note_data) :=
  nt ← on_tracks (ticks_per_beat mid) ([], 120%Q) (tracks mid);
  let notes := nt.1 in
  mret (if bool_decide (notes = []) then notes ++ [placeholder] else notes).

(** [_extract_midi_notes]; [file] is what [mido.MidiFile(midi_path)] gives. *)
Definition _extract_midi_notes (file : outcome MidiFile) : list note_data :=
  match file ≫= extract_body with
  | Ok notes => notes
  | Raise _ => []
  end.

End Midi.

(** Python [max] of a sequence: the first of the largest items. *)
Definition py_max (xs : list Q) : outcome Q :=
  match xs with
  | [] => Raise "ValueError"
  | x :: rest => Ok (fold_left (fun m y => if Qlt_bool m y then y else m) rest x)
  end.

(** The quantised buffer goes to disk as mono, 16 bit, 44100 Hz. *)
Definition write_pcm (H : host) (audio_data : list Q) : M unit :=
  wave_write H sample_rate (to_pcm16 audio_data).

(** [normalized_cutoff = cutoff_freq / nyquist] and the zero-phase filter. *)
Definition low_pass (H : host) (p : params) (audio_data : list Q) : M (list Q) :=
  let cutoff_freq := filter_cutoff p in
  let nyquist := (inject_Z sample_rate / 2)%Q in
  let normalized_cutoff := (cutoff_freq / nyquist)%Q in
  lift (butter_filtfilt H normalized_cutoff audio_data).

Section Direct.
Context (H : host).
Import Midi.
Local Open Scope Q_scope.

(** Lines 188-204, without the noise. *)
Definition tone_midi (p : params) (freq t velocity : Q) : Q :=
  let tone := 0 in
  let fundamental := np_sin H (2 * np_pi H * freq * t) in
  let tone := tone + fundamental * fundamental_amplitude p * velocity in
  let tone :=
    fold_left (fun tone harmonic =>
      tone + np_sin H (2 * np_pi H * freq * frequency_multiplier harmonic * t)
             * amplitude harmonic * velocity) (harmonics p) tone in
  let inharmonic_factor := inharmonicity p in
  tone + np_sin H (2 * np_pi H * freq * 2 * t * inharmonic_factor) * 0.05 * velocity.

(** The body of [for i in range(duration_frames)] after the bounds test
    (lines 185-226). *)
Definition midi_frame (p : params) (freq velocity : Q) (start_frame duration_frames : Z)
    (i : Z) (audio_data : list Q) : M (list Q) :=
  let t := inject_Z (start_frame + i) / inject_Z sample_rate in
  let tone := tone_midi p freq t velocity in
  noise ← np_random_normal H (noise_level p);
  let tone := tone + noise in
  env ← lift (envelope p duration_frames i);
  array_iadd audio_data (start_frame + i) (tone * env * overall_amplitude p).

(** The body of [for note in midi_notes] (lines 171-226). *)
Definition midi_note_loop (p : params) (total_frames : Z) (audio_data : list Q)
    (n : note_data) : M (list Q) :=
  if (velocity n =? 0)%Z then mret audio_data
  else
    let freq := midi_to_freq H (note n) in
    let start_frame := py_int (start_time n * inject_Z sample_rate) in
    let duration_frames := py_int (duration n * inject_Z sample_rate) in
    let velocity := inject_Z (velocity n) / 127.0 in
    for_range_break (fun i => total_frames <=? start_frame + i)%Z
      (midi_frame p freq velocity start_frame duration_frames)
      (Z.to_nat duration_frames) 0%Z audio_data.

(** [total_frames] (lines 156-159). *)
Definition midi_total_frames (midi_notes : list note_data) : outcome Z :=
  max_time ← py_max (map (fun n => start_time n + duration n) midi_notes);
  let total_duration := max_time + 0.5 in
  mret (py_int (total_duration * inject_Z sample_rate)).

(** Lines 155-226: the sample buffer before filtering. *)
Definition synthesize_midi (midi_notes : list note_data) (instrument : string)
  : M (list Q) :=
  total_frames ← lift (midi_total_frames midi_notes);
  audio_data ← lift (np_zeros H total_frames);
  let params := _get_instrument_parameters instrument in
  for_each (midi_note_loop params total_frames) midi_notes audio_data.

(** The [try] block of [_convert_midi_to_wav_direct]. *)
Definition direct_body (file : outcome MidiFile) (instrument : string) : M bool :=
  let midi_notes := _extract_midi_notes file in
  if bool_decide (midi_notes = []) then mret false
  else
    audio_data ← synthesize_midi midi_notes instrument;
    audio_data ← low_pass H (_get_instrument_parameters instrument) audio_data;
    _ ← write_pcm H audio_data;
    mret true.

Definition _convert_midi_to_wav_direct (file : outcome MidiFile) (instrument : string)
  : M bool :=
  try_except (direct_body file instrument) (fun _ => mret false).

End Direct.

(** ** The score path: [_extract_notes_from_staff],
    [_create_musical_wav_from_notes], [_create_simple_wav] *)

Module Score.

(** A written duration; abjad accepts only positive (assignable) ones. *)
Record Duration := { numerator : positive; denominator : positive }.

(** The components of an [abjad.Staff]; [Container] is any component that
    is neither a note, a chord nor a rest. *)
Inductive component :=
| Note (written_pitch : Z) (written_duration : Duration)
| Chord (written_pitches : list Z) (written_duration : Duration)
| Rest (written_duration : Duration)
| Container.

Inductive kind := note | chord | rest.

Record note_info := NoteInfo {
  midi_note : option Z;
  duration : Q;
  type : kind
}.

(** [4 * duration.numerator / duration.denominator] *)
Definition beats (d : Duration) : Q :=
  (inject_Z (4 * Zpos (numerator d)) / inject_Z (Zpos (denominator d)))%Q.

(** One iteration of [for component in staff]: what it appends. *)
Definition extract_component (c : component) : list note_info :=
  match c with
  | Note pitch d => [NoteInfo (Some pitch) (beats d) note]
  | Chord pitches d =>
      match pitches with
      | root :: _ => [NoteInfo (Some root) (beats d) chord]
      | [] => []
      end
  | Rest d => [NoteInfo None (beats d) rest]
  | Container => []
  end.

Definition _extract_notes_from_staff (staff : list component) : list note_info :=
  concat (map extract_component staff).

End Score.

Section FromScore.
Context (H : host).
Import Score.
Local Open Scope Q_scope.

(** Lines 402-414. *)
Definition tone_score (p : params) (freq t : Q) : Q :=
  let tone := 0 in
  let fundamental := np_sin H (2 * np_pi H * freq * t) in
  let tone := tone + fundamental * fundamental_amplitude p in
  let tone :=
    fold_left (fun tone harmonic =>
      tone + np_sin H (2 * np_pi H * freq * frequency_multiplier harmonic * t)
             * amplitude harmonic) (harmonics p) tone in
  let inharmonic_factor := inharmonicity p in
  tone + np_sin H (2 * np_pi H * freq * 2 * t * inharmonic_factor) * 0.05.

(** The body of [for i in range(note_frames)] after the bounds test
    (lines 399-440); [amplitude = 0.7]. *)
Definition score_frame (p : params) (freq : Q) (current_frame note_frames : Z)
    (i : Z) (audio_data : list Q) : M (list Q) :=
  let t := inject_Z (current_frame + i) / inject_Z sample_rate in
  let tone := tone_score p freq t in
  noise ← np_random_normal H (noise_level p);
  let tone := tone + noise in
  env ← lift (envelope p note_frames i);
  array_set audio_data (current_frame + i) (tone * env * 0.7 * overall_amplitude p).

(** The variables the note loop carries: the buffer, [current_frame], and
    [params], unbound until the first note that is not a rest. *)
Record cursor := Cursor {
  audio_data : list Q;
  current_frame : Z;
  bound_params : option params
}.

(** [duration_seconds = duration_beats / beats_per_second] *)
Definition note_seconds (duration_beats beats_per_second : Q) : outcome Q :=
  py_div duration_beats beats_per_second.

(** [beats_per_second = tempo / 60.0] *)
Definition beats_per_second_of (tempo : Z) : Q := inject_Z tempo / 60.0.

(** The body of [for note_info in notes_data] (lines 378-442). *)
Definition score_note_loop (instrument : string) (beats_per_second : Q)
    (total_frames : Z) (c : cursor) (note_info : note_info) : M cursor :=
  match type note_info with
  | rest => mret c
  | _ =>
      let midi_note := midi_note note_info in
      let duration_beats := duration note_info in
      duration_seconds ← lift (note_seconds duration_beats beats_per_second);
      let note_frames := py_int (duration_seconds * inject_Z sample_rate) in
      freq ← lift (match midi_note with
                   | Some m => Ok (midi_to_freq H m)
                   | None => Raise "TypeError"
                   end);
      let params := _get_instrument_parameters instrument in
      audio_data ←
        for_range_break (fun i => total_frames <=? current_frame c + i)%Z
          (score_frame params freq (current_frame c) note_frames)
          (Z.to_nat note_frames) 0%Z (audio_data c);
      mret (Cursor audio_data (current_frame c + note_frames) (Some params))
  end.

(** Lines 362-442: the sample buffer before filtering. *)
Definition synthesize_score (notes_data : list note_info) (tempo : Z)
    (total_duration : Q) (instrument : string) : M cursor :=
  let beats_per_second := beats_per_second_of tempo in
  total_duration_seconds ← lift (py_div total_duration beats_per_second);
  let total_frames := py_int (total_duration_seconds * inject_Z sample_rate) in
  audio_data ← lift (np_zeros H total_frames);
  for_each (score_note_loop instrument beats_per_second total_frames) notes_data
    (Cursor audio_data 0 None).

(** The [try] block of [_create_musical_wav_from_notes]. *)
Definition musical_body (notes_data : list note_info) (tempo : Z)
    (total_duration : Q) (instrument : string) : M bool :=
  c ← synthesize_score notes_data tempo total_duration instrument;
  params ← lift (match bound_params c with
                 | Some p => Ok p
                 | None => Raise "UnboundLocalError"
                 end);
  audio_data ← low_pass H params (audio_data c);
  _ ← write_pcm H audio_data;
  mret true.

Definition _create_musical_wav_from_notes (notes_data : list note_info) (tempo : Z)
    (total_duration : Q) (instrument : string) : M bool :=
  try_except (musical_body notes_data tempo total_duration instrument)
    (fun _ => mret false).

(** One frame of the placeholder tone of [_create_simple_wav]. *)
Definition simple_frame (num_frames : Z) (i : Z) (audio_data : list Q) : M (list Q) :=
  let frequency := 440 in
  let amplitude := 0.5 in
  let t := inject_Z i / inject_Z sample_rate in
  let tone := 0 in
  let tone := tone + np_sin H (2 * np_pi H * frequency * t) * 0.6 in
  let tone := tone + np_sin H (2 * np_pi H * frequency * 2 * t) * 0.3 in
  let tone := tone + np_sin H (2 * np_pi H * frequency * 3 * t) * 0.2 in
  let attack_time := inject_Z num_frames * 0.1 in
  let release_time := inject_Z num_frames * 0.2 in
  env ← lift (if Qlt_bool (inject_Z i) attack_time
              then py_div (inject_Z i) attack_time
              else if Qlt_bool (inject_Z num_frames - release_time) (inject_Z i)
              then py_div (inject_Z (num_frames - i)) release_time
              else Ok 1.0);
  array_set audio_data i (tone * env * amplitude).

(** [_create_simple_wav]: it has no [return], so it gives [None]. *)
Definition _create_simple_wav (duration : Q) : M unit :=
  try_except
    (let num_frames := py_int (duration * inject_Z sample_rate) in
     audio_data ← lift (np_zeros H num_frames);
     audio_data ← for_range_break (fun _ => false) (simple_frame num_frames)
                     (Z.to_nat num_frames) 0%Z audio_data;
     write_pcm H audio_data)
    (fun _ => mret tt).

(** Python [sum] of the durations. *)
Definition py_sum (xs : list Q) : Q := fold_left Qplus xs 0.

(** [_create_instrument_synthesis_fallback]; the result is Python's
    [True], [False] or, through [_create_simple_wav], [None]. *)
Definition _create_instrument_synthesis_fallback (staff : list component)
    (tempo : Z) (instrument : string) : M (option bool) :=
  try_except
    (let notes_data := _extract_notes_from_staff staff in
     if bool_decide (notes_data = []) then
       _ ← _create_simple_wav 2.0; mret None
     else
       let total_duration := py_sum (map duration notes_data) in
       b ← _create_musical_wav_from_notes notes_data tempo total_duration instrument;
       mret (Some b))
    (fun _ => mret (Some false)).

(** [_convert_midi_to_wav_with_staff] *)
Definition _convert_midi_to_wav_with_staff (file : outcome Midi.MidiFile)
    (staff : list component) (tempo : Z) (instrument : string) : M (option bool) :=
  try_except
    (result ← _convert_midi_to_wav_direct H file instrument;
     if result : bool then mret (Some true)
     else _create_instrument_synthesis_fallback staff tempo instrument)
    (fun _ => _create_instrument_synthesis_fallback staff tempo instrument).

End FromScore.

(** ** The renderer facade: [render_staff_to_midi] *)

Inductive pyval :=
| PyBool (b : bool)
| PyInt (z : Z)
| PyFloat (q : Q)
| PyStr (s : string).

(** What one call finds outside the synthesiser. *)
Record tools := Tools {
  (** [uuid.uuid4().hex[:8]] *)
  uuid_hex8 : string;
  temp_dir : string;
  (** [os.path.join] *)
  path_join : string -> string -> string;
  (** building the LilyPond source, writing the [.ly] file and running
      LilyPond: the return code and stderr, or the exception that
      [abjad.lilypond], [open] or [subprocess.run] raises *)
  lilypond_run : outcome (Z * string);
  (** [os.path.exists(midi_path)] after the run *)
  midi_exists : bool;
  (** [mido.MidiFile(midi_path)], the import of mido included *)
  midi_file : outcome Midi.MidiFile
}.

Section Facade.
Context (H : host) (T : tools).
Local Open Scope string_scope.

(** [_wav_to_base64] *)
Definition _wav_to_base64 : M string := fun s =>
  (Ok (match wav_file s with
       | Some w => b64encode_wav H w
       | None => ""
       end), s).

(** [_get_wav_duration]: [round(frames / sample_rate, 1)], the quotient
    being a double, and [2.0] when the file cannot be read. *)
Definition _get_wav_duration : M Q := fun s =>
  (Ok (match wav_file s with
       | Some w =>
           match py_div (inject_Z (Z.of_nat (length (frames w)))) (inject_Z (framerate w)) with
           | Ok duration => py_round1 (fl duration)
           | Raise _ => 2.0%Q
           end
       | None => 2.0%Q
       end), s).

(** [os.path.exists(wav_path)] *)
Definition wav_exists : M bool := fun s =>
  (Ok (bool_decide (is_Some (wav_file s))), s).

(** Python truth of [True], [False], [None]. *)
Definition truthy (r : option bool) : bool := default false r.

(** The dict of a successful render (lines 97-105). *)
Definition success_result (midi_path wav_path audio_base64 : string) (tempo : Z)
    (actual_duration : Q) (instrument : string) : gmap string pyval :=
  <["success" := PyBool true]>
  (<["midi_path" := PyStr midi_path]>
  (<["wav_path" := PyStr wav_path]>
  (<["audio_base64" := PyStr audio_base64]>
  (<["tempo" := PyInt tempo]>
  (<["duration" := PyFloat actual_duration]>
  (<["instrument" := PyStr instrument]> ∅)))))).

(** The names the facade gives its files. *)
Definition file_stem (filename : option string) : string :=
  match filename with
  | Some f => if bool_decide (f = "") then "audio_" ++ uuid_hex8 T else f
  | None => "audio_" ++ uuid_hex8 T
  end.
Definition midi_path (filename : option string) : string :=
  path_join T (temp_dir T) (file_stem filename ++ ".mid").
Definition wav_path (filename : option string) : string :=
  path_join T (temp_dir T) (file_stem filename ++ ".wav").

(** The [try] block of [render_staff_to_midi]. *)
Definition render_body (staff : list Score.component) (filename : option string)
    (tempo : Z) (instrument : string) : M (gmap string pyval) :=
  let midi_path := midi_path filename in
  let wav_path := wav_path filename in
  result ← lift (lilypond_run T);
  let returncode := result.1 in
  let stderr := result.2 in
  if (returncode =? 0)%Z then
    if midi_exists T then
      wav_success ← _convert_midi_to_wav_with_staff H (midi_file T) staff tempo instrument;
      wav_there ← wav_exists;
      if truthy wav_success && wav_there then
        audio_base64 ← _wav_to_base64;
        actual_duration ← _get_wav_duration;
        mret (success_result midi_path wav_path audio_base64 tempo actual_duration
                instrument)
      else mret {["error" := PyStr "Failed to convert MIDI to WAV"]}
    else mret {["error" := PyStr ("MIDI file not found at " ++ midi_path)]}
  else mret {["error" := PyStr ("LilyPond failed with return code "
                                 ++ pretty returncode ++ ": " ++ stderr)]}.

Definition render_staff_to_midi (staff : list Score.component)
    (filename : option string) (tempo : Z) (instrument : string)
  : M (gmap string pyval) :=
  try_except (render_body staff filename tempo instrument)
    (fun e => mret {["error" := PyStr ("Audio generation failed: " ++ e)]}).

End Facade.

(** ** Other operations of the renderer and its caller *)

(** [_estimate_duration]: the beats of the components that have a written
    duration, at the tempo, and no less than one second; [3.0] when the
    computation raises. Of a component the function reads only whether it
    has a [written_duration], and which: [staff] lists that, in order. *)
Definition _estimate_duration (staff : list (option Score.Duration)) (tempo : Z) : Q :=
  let total_beats :=
    fold_left (fun total_beats written_duration =>
      match written_duration with
      | Some duration => (total_beats + Score.beats duration)%Q
      | None => total_beats
      end) staff 0%Q in
  let beats_per_second := (inject_Z tempo / 60.0)%Q in
  match py_div total_beats beats_per_second with
  | Ok duration_seconds =>
      if Qlt_bool duration_seconds 1.0 then 1.0%Q else duration_seconds
  | Raise _ => 3.0%Q
  end.

(** [generate_audio_explanation] *)
Definition explanations (correct_answer : string) : list (string * string) :=
  [ ("interval", "This interval is a " ++ correct_answer
                 ++ ". Listen to how the notes sound together.");
    ("chord", "This is the " ++ correct_answer ++ " chord. Notice the harmonic structure.");
    ("scale", "This is the " ++ correct_answer ++ " scale. Hear the ascending pattern.");
    ("key_signature", "This key signature shows " ++ correct_answer
                      ++ ". Listen to the tonal center.");
    ("time_signature", "This time signature is " ++ correct_answer
                       ++ ". Feel the rhythmic pattern.");
    ("note_identification", "This note is " ++ correct_answer ++ ". Listen to its pitch.")
  ]%string.

Definition generate_audio_explanation (question_type correct_answer : string) : string :=
  default ("Listen to this musical example: " ++ correct_answer)%string
    ((list_to_map (explanations correct_answer) : gmap string string) !! question_type).

(** [MusicTheoryEngine._generate_audio] of [main.py]: the renderer is called
    with the staff and the instrument as its two positional arguments, the
    second of which is [filename]; [tempo] and [instrument] keep their
    defaults. The handler's traceback and log entry are left out. *)
Definition _generate_audio (H : host) (T : tools) (staff : list Score.component)
    (instrument : string) : M (gmap string pyval) :=
  try_except (render_staff_to_midi H T staff (Some instrument) 120 "Music Theory")
    (fun e => mret {["error"%string := PyStr e]}).

(** [str.endswith] *)
Definition ends_with (suffix s : string) : bool :=
  let n := String.length s in
  let k := String.length suffix in
  (k <=? n)%nat && String.eqb (String.substring (n - k) k s) suffix.

Definition is_render_file (file : string) : bool :=
  ends_with ".ly" file || ends_with ".mid" file || ends_with ".wav" file.

(** The loop of [cleanup_temp_files] over the listing of the temporary
    directory. [path_exists] is [os.path.exists] of the entry, which is
    false of a listed entry when it is a link whose target is missing;
    [removable] tells whether [os.remove] succeeds, and when it raises the
    rest of the listing is left alone. *)
Fixpoint cleanup_loop (path_exists removable : string -> bool) (listing : list string)
    (dir : gset string) : gset string :=
  match listing with
  | [] => dir
  | file :: rest =>
      if is_render_file file then
        if path_exists file then
          if removable file then cleanup_loop path_exists removable rest (dir ∖ {[file]})
          else dir
        else cleanup_loop path_exists removable rest dir
      else cleanup_loop path_exists removable rest dir
  end.

(** [cleanup_temp_files]: the entries of the temporary directory after the
    call. *)
Definition cleanup_temp_files (path_exists removable : string -> bool) (dir : gset string)
  : gset string :=
  cleanup_loop path_exists removable (elements dir) dir.

(** * Properties *)

(** ** Truncation, clipping and rounding *)

Lemma Qlt_bool_iff x y : Qlt_bool x y = true <-> (x < y)%Q.
Proof.
  unfold Qlt_bool. rewrite negb_true_iff.
  split; intros H.
  - apply Qnot_le_lt. intros Hle. apply Qle_bool_iff in Hle. congruence.
  - destruct (Qle_bool y x) eqn:E; [|reflexivity].
    apply Qle_bool_iff in E. exfalso. exact (Qlt_not_le _ _ H E).
Qed.

Lemma Qlt_bool_false x y : Qlt_bool x y = false <-> (y <= x)%Q.
Proof.
  unfold Qlt_bool. rewrite negb_false_iff. apply Qle_bool_iff.
Qed.

Lemma py_int_inject (z : Z) : py_int (inject_Z z) = z.
Proof. unfold py_int; simpl. apply Z.quot_1_r. Qed.

Lemma py_int_nonneg x : (0 <= x)%Q -> py_int x = Qfloor x.
Proof.
  destruct x as [n d]; unfold Qle, py_int, Qfloor; simpl; intros H.
  apply Z.quot_div_nonneg; lia.
Qed.

Lemma py_int_opp x : py_int (- x) = - py_int x.
Proof. destruct x as [n d]; unfold py_int; simpl. apply Z.quot_opp_l. lia. Qed.

(** Truncation is monotone. *)
Lemma py_int_mono x y : (x <= y)%Q -> py_int x <= py_int y.
Proof.
  intros Hxy.
  destruct (Qlt_le_dec x 0) as [Hx|Hx]; destruct (Qlt_le_dec y 0) as [Hy|Hy].
  - assert (Hx' : (0 <= - x)%Q) by (apply (Qopp_le_compat x 0); apply Qlt_le_weak; exact Hx).
    assert (Hy' : (0 <= - y)%Q) by (apply (Qopp_le_compat y 0); apply Qlt_le_weak; exact Hy).
    pose proof (py_int_opp x) as Ex. pose proof (py_int_opp y) as Ey.
    rewrite (py_int_nonneg _ Hx') in Ex. rewrite (py_int_nonneg _ Hy') in Ey.
    assert (Qfloor (- y) <= Qfloor (- x)).
    { apply Qfloor_resp_le. apply Qopp_le_compat. exact Hxy. }
    lia.
  - assert (Hx' : (0 <= - x)%Q) by (apply (Qopp_le_compat x 0); apply Qlt_le_weak; exact Hx).
    pose proof (py_int_opp x) as Ex. rewrite (py_int_nonneg _ Hx') in Ex.
    rewrite (py_int_nonneg _ Hy).
    assert (0 <= Qfloor (- x)) by (change 0 with (Qfloor 0); apply Qfloor_resp_le; exact Hx').
    assert (0 <= Qfloor y) by (change 0 with (Qfloor 0); apply Qfloor_resp_le; exact Hy).
    lia.
  - exfalso. apply (Qlt_not_le y 0 Hy). apply Qle_trans with x; assumption.
  - rewrite (py_int_nonneg _ Hx), (py_int_nonneg _ Hy).
    apply Qfloor_resp_le; exact Hxy.
Qed.

Lemma py_int_comp x y : (x == y)%Q -> py_int x = py_int y.
Proof.
  intros H. apply Z.le_antisymm; apply py_int_mono; rewrite H; apply Qle_refl.
Qed.

Lemma np_clip_range x lo hi : (lo <= hi)%Q -> (lo <= np_clip x lo hi <= hi)%Q.
Proof.
  intros Hlh. unfold np_clip.
  destruct (Qlt_bool x lo) eqn:E1.
  - destruct (Qlt_bool hi lo) eqn:E2.
    + apply Qlt_bool_iff in E2. exfalso. exact (Qlt_not_le _ _ E2 Hlh).
    + split; [apply Qle_refl | exact Hlh].
  - apply Qlt_bool_false in E1.
    destruct (Qlt_bool hi x) eqn:E2.
    + split; [exact Hlh | apply Qle_refl].
    + apply Qlt_bool_false in E2. split; assumption.
Qed.

Lemma wrap16_id z : -32768 <= z <= 32767 -> wrap16 z = z.
Proof. intros H. unfold wrap16. rewrite Z.mod_small; lia. Qed.


(** ** The loops *)

#[global] Instance Q_inhabited : Inhabited Q := populate 0%Q.

(** The state after [w] more draws and stores at [k], [k+1], ... *)
Definition advance (s : sys) (k w : Z) : sys :=
  {| wav_file := wav_file s;
     rng_pos := rng_pos s + Z.to_nat w;
     stores := stores s ++ seqZ k w |}.

Lemma advance_0 s k : advance s k 0 = s.
Proof.
  destruct s as [f r st]. unfold advance; simpl.
  rewrite Nat.add_0_r, app_nil_r. reflexivity.
Qed.

Lemma advance_step s k w :
  0 <= w ->
  advance (advance s k 1) (k + 1) w = advance s k (1 + w).
Proof.
  intros Hw. destruct s as [f r st]. unfold advance; simpl.
  f_equal.
  - rewrite Z2Nat.inj_add by lia. simpl. lia.
  - rewrite <- app_assoc. f_equal.
    rewrite (seqZ_cons k (1 + w)) by lia.
    replace (Z.succ k) with (k + 1) by lia.
    replace (Z.pred (1 + w)) with w by lia. reflexivity.
Qed.

Section FrameLoop.
Context (start total dur : Z).
Context (val : Z -> nat -> Q) (write : list Q -> nat -> Q -> list Q).
Context (body : Z -> list Q -> M (list Q)).

Hypothesis write_length : forall a j v, length (write a j v) = length a.
Hypothesis body_spec : forall i a s,
  0 <= i < dur -> 0 <= start + i < Z.of_nat (length a) ->
  body i a s = (Ok (write a (Z.to_nat (start + i)) (val i (rng_pos s))),
                advance s (start + i) 1).

(** How many frames the loop writes when entered at [i] with [n] left. *)
Definition written (n : nat) (i : Z) : Z :=
  Z.max 0 (Z.min (Z.of_nat n) (total - (start + i))).

(** The buffer the loop leaves. *)
Fixpoint frames_of (n : nat) (i : Z) (a : list Q) (pos : nat) : list Q :=
  match n with
  | O => a
  | S n' =>
      if total <=? start + i then a
      else frames_of n' (i + 1) (write a (Z.to_nat (start + i)) (val i pos)) (S pos)
  end.

Lemma frames_of_length n : forall i a pos, length (frames_of n i a pos) = length a.
Proof.
  induction n as [|n IH]; intros i a pos; simpl; [reflexivity|].
  destruct (total <=? start + i); [reflexivity|].
  rewrite IH. apply write_length.
Qed.

Lemma written_stop n i : total <= start + i -> written n i = 0.
Proof. unfold written. lia. Qed.

Lemma written_step n i :
  start + i < total -> written (S n) i = 1 + written n (i + 1).
Proof. unfold written. lia. Qed.

Lemma written_nonneg n i : 0 <= written n i.
Proof. unfold written. lia. Qed.

Lemma frame_loop_run n : forall i a s,
  0 <= start + i -> 0 <= i -> i + Z.of_nat n = dur ->
  Z.of_nat (length a) = total ->
  for_range_break (fun i => total <=? start + i) body n i a s
  = (Ok (frames_of n i a (rng_pos s)), advance s (start + i) (written n i)).
Proof.
  induction n as [|n IH]; intros i a s Hs Hi Hn Hlen.
  - cbn [for_range_break frames_of].
    replace (written 0 i) with 0 by (unfold written; lia).
    rewrite advance_0. reflexivity.
  - cbn [for_range_break frames_of]. destruct (total <=? start + i) eqn:E.
    + apply Z.leb_le in E. rewrite written_stop by exact E.
      rewrite advance_0. reflexivity.
    + apply Z.leb_gt in E.
      unfold mbind, M_bind.
      rewrite body_spec by lia.
      rewrite IH; [|lia|lia|lia|rewrite write_length; exact Hlen].
      rewrite written_step by exact E.
      replace (start + (i + 1)) with (start + i + 1) by lia.
      rewrite advance_step by apply written_nonneg.
      f_equal. f_equal. f_equal. unfold advance; simpl. lia.
Qed.

End FrameLoop.

(** What the two kinds of store leave in each cell. *)
Section FrameCells.
Context (start total : Z) (val : Z -> nat -> Q).

Definition in_window (n : nat) (i : Z) (j : nat) : bool :=
  bool_decide (start + i <= Z.of_nat j < start + i + written start total n i).

(** The value frame [j] receives from a loop entered at [i] when the
    generator stood at [pos]. *)
Definition cell_val (i : Z) (pos : nat) (j : nat) : Q :=
  val (Z.of_nat j - start) (pos + Z.to_nat (Z.of_nat j - start - i)).

Definition iadd (a : list Q) (j : nat) (v : Q) : list Q := alter (fun x => x + v)%Q j a.
Definition iset (a : list Q) (j : nat) (v : Q) : list Q := <[j := v]> a.

Lemma iadd_length a j v : length (iadd a j v) = length a.
Proof. apply length_alter. Qed.

Lemma iset_length a j v : length (iset a j v) = length a.
Proof. apply length_insert. Qed.

Lemma in_window_stop n i j : total <= start + i -> in_window n i j = false.
Proof.
  intros Hstop. unfold in_window. rewrite written_stop by exact Hstop.
  apply bool_decide_eq_false. lia.
Qed.

Lemma in_window_0 i j : in_window 0 i j = false.
Proof. unfold in_window, written. apply bool_decide_eq_false. lia. Qed.

Lemma in_window_step n i j :
  start + i < total ->
  in_window (S n) i j
  = bool_decide (Z.of_nat j = start + i) || in_window n (i + 1) j.
Proof.
  intros Hgo. unfold in_window. rewrite written_step by exact Hgo.
  pose proof (written_nonneg start total n (i + 1)) as Hw.
  apply eq_true_iff_eq. rewrite orb_true_iff, !bool_decide_eq_true. lia.
Qed.

Lemma frames_of_iadd_cell n : forall i a pos j,
  0 <= start + i -> Z.of_nat (length a) = total ->
  (frames_of start total val iadd n i a pos !!! j
   == a !!! j + (if in_window n i j then cell_val i pos j else 0))%Q.
Proof.
  induction n as [|n IH]; intros i a pos j Hs Hlen.
  - cbn [frames_of]. rewrite in_window_0. ring.
  - cbn [frames_of]. destruct (total <=? start + i) eqn:E.
    + apply Z.leb_le in E. rewrite in_window_stop by exact E. ring.
    + apply Z.leb_gt in E.
      rewrite IH; [|lia|rewrite iadd_length; exact Hlen].
      rewrite in_window_step by exact E.
      destruct (bool_decide (Z.of_nat j = start + i)) eqn:Ej.
      * apply bool_decide_eq_true in Ej.
        assert (Hj : Z.to_nat (start + i) = j) by lia.
        rewrite Hj. unfold iadd at 1.
        rewrite list_lookup_total_alter_eq by lia.
        assert (Hw : in_window n (i + 1) j = false).
        { unfold in_window. apply bool_decide_eq_false. lia. }
        rewrite Hw. cbn [orb]. unfold cell_val.
        replace (Z.of_nat j - start) with i by lia.
        replace (pos + Z.to_nat (i - i))%nat with pos by lia. ring.
      * apply bool_decide_eq_false in Ej.
        unfold iadd at 1. rewrite list_lookup_total_alter_ne by lia.
        cbn [orb]. destruct (in_window n (i + 1) j) eqn:Hw; [|reflexivity].
        unfold in_window in Hw. apply bool_decide_eq_true in Hw.
        unfold cell_val.
        replace (S pos + Z.to_nat (Z.of_nat j - start - (i + 1)))%nat
          with (pos + Z.to_nat (Z.of_nat j - start - i))%nat by lia.
        reflexivity.
Qed.

Lemma frames_of_iset_cell n : forall i a pos j,
  0 <= start + i -> Z.of_nat (length a) = total ->
  frames_of start total val iset n i a pos !!! j
  = if in_window n i j then cell_val i pos j else a !!! j.
Proof.
  induction n as [|n IH]; intros i a pos j Hs Hlen.
  - cbn [frames_of]. rewrite in_window_0. reflexivity.
  - cbn [frames_of]. destruct (total <=? start + i) eqn:E.
    + apply Z.leb_le in E. rewrite in_window_stop by exact E. reflexivity.
    + apply Z.leb_gt in E.
      rewrite IH; [|lia|rewrite iset_length; exact Hlen].
      rewrite in_window_step by exact E.
      destruct (bool_decide (Z.of_nat j = start + i)) eqn:Ej.
      * apply bool_decide_eq_true in Ej.
        assert (Hj : Z.to_nat (start + i) = j) by lia.
        rewrite Hj. unfold iset at 1.
        assert (Hw : in_window n (i + 1) j = false).
        { unfold in_window. apply bool_decide_eq_false. lia. }
        rewrite Hw. cbn [orb].
        rewrite list_lookup_total_insert_eq by lia.
        unfold cell_val.
        replace (Z.of_nat j - start) with i by lia.
        replace (pos + Z.to_nat (i - i))%nat with pos by lia. reflexivity.
      * apply bool_decide_eq_false in Ej.
        unfold iset at 1. cbn [orb].
        destruct (in_window n (i + 1) j) eqn:Hw.
        -- unfold in_window in Hw. apply bool_decide_eq_true in Hw.
           unfold cell_val.
           replace (S pos + Z.to_nat (Z.of_nat j - start - (i + 1)))%nat
             with (pos + Z.to_nat (Z.of_nat j - start - i))%nat by lia.
           reflexivity.
        -- rewrite list_lookup_total_insert_ne by lia. reflexivity.
Qed.

End FrameCells.

(** ** The envelope never divides by zero inside a note *)

Lemma py_div_ok x (z : Z) : z <> 0 -> py_div x (inject_Z z) = Ok (x / inject_Z z)%Q.
Proof.
  intros Hz. unfold py_div.
  destruct (Qeq_bool (inject_Z z) 0) eqn:E; [|reflexivity].
  apply Qeq_bool_iff in E. unfold Qeq in E; simpl in E. lia.
Qed.

(** The value of the envelope, for use where it is known to exist. *)
Definition env_val (p : params) (n i : Z) : Q :=
  match envelope p n i with
  | Ok e => e
  | Raise _ => 0%Q
  end.

Lemma envelope_ok p n i : 0 <= i < n -> envelope p n i = Ok (env_val p n i).
Proof.
  intros Hi. unfold env_val.
  assert (Hex : exists e, envelope p n i = Ok e); [|destruct Hex as [e ->]; reflexivity].
  unfold envelope.
  set (a := py_int (inject_Z n * attack_time p)).
  set (d := py_int (inject_Z n * decay_time p)).
  set (r := py_int (inject_Z n * release_time p)).
  destruct (i <? a) eqn:Ea.
  - apply Z.ltb_lt in Ea. rewrite py_div_ok by lia. eauto.
  - apply Z.ltb_ge in Ea. destruct (i <? a + d) eqn:Ed.
    + apply Z.ltb_lt in Ed. rewrite py_div_ok by lia. cbn. eauto.
    + apply Z.ltb_ge in Ed. destruct (i <? n - r) eqn:Er.
      * cbn. eauto.
      * apply Z.ltb_ge in Er. rewrite py_div_ok by lia. cbn. eauto.
Qed.

(** ** One note of the MIDI path *)

Section DirectNote.
Context (H : host) (p : params) (freq velocity : Q) (start_frame duration_frames : Z).

(** What frame [i] adds to its cell when the generator stands at [pos]. *)
Definition midi_val (i : Z) (pos : nat) : Q :=
  ((tone_midi H p freq (inject_Z (start_frame + i) / inject_Z sample_rate) velocity
    + (0 + noise_level p * gauss H pos))
   * env_val p duration_frames i * overall_amplitude p)%Q.

Lemma np_index_in (len k : Z) : 0 <= k < len -> np_index len k = Ok (Z.to_nat k).
Proof.
  intros Hk. unfold np_index.
  destruct (0 <=? k) eqn:E1; [|apply Z.leb_gt in E1; lia].
  destruct (k <? len) eqn:E2; [|apply Z.ltb_ge in E2; lia].
  reflexivity.
Qed.

Lemma advance_1 s k :
  {| wav_file := wav_file s; rng_pos := S (rng_pos s); stores := stores s ++ [k] |}
  = advance s k 1.
Proof.
  unfold advance. f_equal.
  change (Z.to_nat 1) with 1%nat. lia.
Qed.

Lemma midi_frame_spec i a s :
  0 <= i < duration_frames -> 0 <= start_frame + i < Z.of_nat (length a) ->
  midi_frame H p freq velocity start_frame duration_frames i a s
  = (Ok (iadd a (Z.to_nat (start_frame + i)) (midi_val i (rng_pos s))),
     advance s (start_frame + i) 1).
Proof.
  intros Hi Hk. unfold midi_frame, array_iadd, np_random_normal, log_store.
  unfold mbind, M_bind, lift, mret, M_ret. cbn beta iota.
  rewrite (envelope_ok p duration_frames i Hi).
  rewrite (np_index_in _ _ Hk). cbn [rng_pos stores wav_file].
  rewrite <- advance_1. reflexivity.
Qed.

End DirectNote.

Section DirectNotes.
Context (H : host) (p : params) (total_frames : Z).
Import Midi.

Definition note_start (n : note_data) : Z := py_int (start_time n * inject_Z sample_rate).
Definition note_frames (n : note_data) : Z := py_int (duration n * inject_Z sample_rate).
Definition note_gain (n : note_data) : Q := (inject_Z (velocity n) / 127.0)%Q.

(** How many frames the note writes. *)
Definition note_written (n : note_data) : Z :=
  if velocity n =? 0 then 0
  else written (note_start n) total_frames (Z.to_nat (note_frames n)) 0.

(** The buffer after the note. *)
Definition note_buffer (a : list Q) (n : note_data) (pos : nat) : list Q :=
  if velocity n =? 0 then a
  else frames_of (note_start n) total_frames
         (midi_val H p (midi_to_freq H (note n)) (note_gain n) (note_start n) (note_frames n))
         iadd (Z.to_nat (note_frames n)) 0 a pos.

Lemma midi_note_loop_run a n s :
  0 <= note_start n -> Z.of_nat (length a) = total_frames ->
  midi_note_loop H p total_frames a n s
  = (Ok (note_buffer a n (rng_pos s)), advance s (note_start n) (note_written n)).
Proof.
  intros Hs Hlen. unfold midi_note_loop, note_buffer, note_written.
  destruct (velocity n =? 0) eqn:Ev.
  - rewrite advance_0. reflexivity.
  - fold (note_start n) (note_frames n) (note_gain n).
    rewrite (frame_loop_run (note_start n) total_frames (Z.of_nat (Z.to_nat (note_frames n)))
               (midi_val H p (midi_to_freq H (note n)) (note_gain n) (note_start n) (note_frames n))
               iadd); try lia.
    + replace (note_start n + 0) with (note_start n) by lia. reflexivity.
    + apply iadd_length.
    + intros i a0 s0 Hi Hk. apply midi_frame_spec; lia.
Qed.

Lemma note_buffer_length a n pos : length (note_buffer a n pos) = length a.
Proof.
  unfold note_buffer. destruct (velocity n =? 0); [reflexivity|].
  apply frames_of_length. apply iadd_length.
Qed.

Lemma note_written_range n :
  0 <= note_start n ->
  0 <= note_written n /\
  forall k, note_start n <= k < note_start n + note_written n -> 0 <= k < total_frames.
Proof.
  intros Hs. unfold note_written, written.
  destruct (velocity n =? 0); (split; [lia | intros k; lia]).
Qed.

(** What the note adds to cell [j], the noise left out. *)
Definition contribution (n : note_data) (j : nat) : Q :=
  if velocity n =? 0 then 0%Q
  else if in_window (note_start n) total_frames (Z.to_nat (note_frames n)) 0 j
  then (tone_midi H p (midi_to_freq H (note n))
          (inject_Z (Z.of_nat j) / inject_Z sample_rate) (note_gain n)
        * env_val p (note_frames n) (Z.of_nat j - note_start n) * overall_amplitude p)%Q
  else 0%Q.

Definition quiet : Prop := forall k, (gauss H k == 0)%Q.

Lemma note_buffer_cell a n pos j :
  quiet -> 0 <= note_start n -> Z.of_nat (length a) = total_frames ->
  (note_buffer a n pos !!! j == a !!! j + contribution n j)%Q.
Proof.
  intros Hq Hs Hlen. unfold note_buffer, contribution.
  destruct (velocity n =? 0); [ring|].
  rewrite frames_of_iadd_cell by lia.
  destruct (in_window _ _ _ _ _) eqn:Ew; [|reflexivity].
  unfold cell_val, midi_val. unfold quiet in Hq. rewrite Hq.
  replace (note_start n + (Z.of_nat j - note_start n)) with (Z.of_nat j) by lia.
  ring.
Qed.

(** All the notes. *)
Definition sumQ (xs : list Q) : Q := foldr Qplus 0%Q xs.

Lemma for_each_notes_run notes : forall a s,
  Forall (fun n => 0 <= note_start n) notes -> Z.of_nat (length a) = total_frames ->
  exists a' new,
    for_each (midi_note_loop H p total_frames) notes a s
    = (Ok a', {| wav_file := wav_file s;
                 rng_pos := rng_pos s + length new;
                 stores := stores s ++ new |})
    /\ length a' = length a
    /\ Forall (fun k => 0 <= k < total_frames) new
    /\ (quiet -> forall j, (a' !!! j == a !!! j + sumQ (map (fun n => contribution n j) notes))%Q).
Proof.
  induction notes as [|n notes IH]; intros a s Hst Hlen.
  - exists a, []. cbn. repeat split.
    + destruct s; cbn. rewrite Nat.add_0_r, app_nil_r. reflexivity.
    + constructor.
    + intros _ j. ring.
  - apply Forall_cons in Hst as [Hn Hrest].
    cbn [for_each]. unfold mbind, M_bind.
    rewrite midi_note_loop_run by assumption.
    destruct (IH (note_buffer a n (rng_pos s)) (advance s (note_start n) (note_written n)) Hrest)
      as (a' & new & Hrun & Hl & Hin & Hcell).
    { rewrite note_buffer_length. exact Hlen. }
    destruct (note_written_range n Hn) as [Hw0 Hwr].
    exists a', (seqZ (note_start n) (note_written n) ++ new).
    rewrite Hrun. repeat split.
    + unfold advance; cbn. f_equal. f_equal.
      * rewrite length_app, length_seqZ. lia.
      * rewrite app_assoc. reflexivity.
    + rewrite Hl. apply note_buffer_length.
    + apply Forall_app. split; [|exact Hin].
      apply Forall_seqZ. exact Hwr.
    + intros Hq j. rewrite (Hcell Hq j).
      rewrite (note_buffer_cell a n (rng_pos s) j Hq Hn Hlen).
      change (sumQ (map (fun n0 => contribution n0 j) (n :: notes)))
        with (contribution n j + sumQ (map (fun n0 => contribution n0 j) notes))%Q.
      ring.
Qed.

End DirectNotes.

(** ** One note of the score path *)

Lemma Qdiv_sign_pos d b : (0 <= d)%Q -> (0 < b)%Q -> (0 <= d / b)%Q.
Proof.
  intros Hd Hb. apply Qle_shift_div_l; [exact Hb|].
  rewrite Qmult_0_l. exact Hd.
Qed.

Lemma Qdiv_sign_neg d b : (0 <= d)%Q -> (b < 0)%Q -> (d / b <= 0)%Q.
Proof.
  intros Hd Hb.
  assert (Hnb : (0 < - b)%Q) by exact (Qopp_lt_compat _ _ Hb).
  assert (Hnz : ~ (b == 0)%Q).
  { intros E. rewrite E in Hb. exact (Qlt_irrefl 0 Hb). }
  pose proof (Qdiv_sign_pos d (- b) Hd Hnb) as Hp.
  assert (E : (d / b == - (d / - b))%Q) by (field; exact Hnz).
  rewrite E. exact (Qopp_le_compat _ _ Hp).
Qed.

Lemma py_int_0_le x : (0 <= x)%Q -> 0 <= py_int x.
Proof. intros Hx. exact (py_int_mono 0 x Hx). Qed.

Lemma py_int_le_0 x : (x <= 0)%Q -> py_int x <= 0.
Proof. intros Hx. exact (py_int_mono x 0 Hx). Qed.

Lemma sample_rate_pos : (0 < inject_Z sample_rate)%Q.
Proof. reflexivity. Qed.

Lemma Qmult_sample_rate_nonneg x : (0 <= x)%Q -> (0 <= x * inject_Z sample_rate)%Q.
Proof. intros Hx. apply Qmult_le_0_compat; [exact Hx|]. apply Qlt_le_weak, sample_rate_pos. Qed.

Lemma Qmult_sample_rate_nonpos x : (x <= 0)%Q -> (x * inject_Z sample_rate <= 0)%Q.
Proof.
  intros Hx.
  assert (Hsr : (0 <= inject_Z sample_rate)%Q) by apply Qlt_le_weak, sample_rate_pos.
  pose proof (Qmult_le_compat_r _ _ _ Hx Hsr) as Hm.
  rewrite Qmult_0_l in Hm. exact Hm.
Qed.

Section ScoreNote.
Context (H : host) (p : params) (freq : Q) (current note_frames : Z).

(** What frame [i] stores in its cell when the generator stands at [pos]. *)
Definition score_val (i : Z) (pos : nat) : Q :=
  ((tone_score H p freq (inject_Z (current + i) / inject_Z sample_rate)
    + (0 + noise_level p * gauss H pos))
   * env_val p note_frames i * 0.7 * overall_amplitude p)%Q.

Lemma score_frame_spec i a s :
  0 <= i < note_frames -> 0 <= current + i < Z.of_nat (length a) ->
  score_frame H p freq current note_frames i a s
  = (Ok (iset a (Z.to_nat (current + i)) (score_val i (rng_pos s))),
     advance s (current + i) 1).
Proof.
  intros Hi Hk. unfold score_frame, array_set, np_random_normal, log_store.
  unfold mbind, M_bind, lift, mret, M_ret. cbn beta iota.
  rewrite (envelope_ok p note_frames i Hi).
  rewrite (np_index_in _ _ Hk). cbn [rng_pos stores wav_file].
  rewrite <- advance_1. reflexivity.
Qed.

End ScoreNote.

Section ScoreNotes.
Context (H : host) (instrument : string) (beats_per_second : Q) (total_frames : Z).
Import Score.

Definition info_frames (ni : note_info) : Z :=
  py_int (duration ni / beats_per_second * inject_Z sample_rate).

(** An entry as [_extract_notes_from_staff] makes them. *)
Definition well_formed (ni : note_info) : Prop :=
  (0 <= duration ni)%Q /\ (type ni <> rest -> is_Some (midi_note ni)).

Definition info_freq (ni : note_info) : Q :=
  match midi_note ni with
  | Some m => midi_to_freq H m
  | None => 0%Q
  end.

Definition info_written (c : cursor) (ni : note_info) : Z :=
  match type ni with
  | rest => 0
  | _ => written (current_frame c) total_frames (Z.to_nat (info_frames ni)) 0
  end.

(** The cursor after the entry. *)
Definition info_cursor (c : cursor) (ni : note_info) (pos : nat) : cursor :=
  match type ni with
  | rest => c
  | _ =>
      Cursor
        (frames_of (current_frame c) total_frames
           (score_val H (_get_instrument_parameters instrument) (info_freq ni)
              (current_frame c) (info_frames ni))
           iset (Z.to_nat (info_frames ni)) 0 (audio_data c) pos)
        (current_frame c + info_frames ni)
        (Some (_get_instrument_parameters instrument))
  end.

Lemma score_note_loop_run c ni s :
  ~ (beats_per_second == 0)%Q -> well_formed ni ->
  (0 < info_frames ni -> 0 <= current_frame c) ->
  Z.of_nat (length (audio_data c)) = total_frames ->
  score_note_loop H instrument beats_per_second total_frames c ni s
  = (Ok (info_cursor c ni (rng_pos s)),
     advance s (current_frame c) (info_written c ni)).
Proof.
  intros Hbps [Hd Hm] Hcur Hlen.
  unfold score_note_loop, info_cursor, info_written.
  destruct (type ni) eqn:Et.
  1,2: destruct Hm as [m Hm]; [congruence|];
       unfold note_seconds, py_div; destruct (Qeq_bool beats_per_second 0) eqn:Eb;
       [apply Qeq_bool_iff in Eb; contradiction|];
       unfold mbind, M_bind, lift, mret, M_ret; cbn beta iota;
       fold (info_frames ni); unfold info_freq; rewrite Hm;
       destruct (Z.to_nat (info_frames ni)) eqn:En;
       [ cbn [for_range_break frames_of]; unfold mret, M_ret;
         replace (written (current_frame c) total_frames 0 0) with 0
           by (unfold written; lia);
         rewrite advance_0; reflexivity
       | rewrite <- En;
         rewrite (frame_loop_run (current_frame c) total_frames
                    (Z.of_nat (Z.to_nat (info_frames ni)))
                    (score_val H (_get_instrument_parameters instrument)
                       (midi_to_freq H m) (current_frame c) (info_frames ni))
                    iset); try lia;
         [ replace (current_frame c + 0) with (current_frame c) by lia; reflexivity
         | apply iset_length
         | intros i a0 s0 Hi Hk; apply score_frame_spec; lia ] ].
  rewrite advance_0. reflexivity.
Qed.

End ScoreNotes.

Section ScoreRun.
Context (H : host) (instrument : string) (beats_per_second : Q) (total_frames : Z).
Import Score.

Hypothesis bps_nonzero : ~ (beats_per_second == 0)%Q.

Definition is_rest (k : kind) : bool :=
  match k with
  | rest => true
  | _ => false
  end.

(** Whether some entry is not a rest, so that [params] gets bound. *)
Definition has_sound (notes_data : list note_info) : bool :=
  existsb (fun ni => negb (is_rest (type ni))) notes_data.

Lemma info_frames_sign ni :
  (0 <= duration ni)%Q ->
  ((0 < beats_per_second)%Q -> 0 <= info_frames beats_per_second ni)
  /\ ((beats_per_second < 0)%Q -> info_frames beats_per_second ni <= 0).
Proof.
  intros Hd. unfold info_frames. split; intros Hb.
  - apply py_int_0_le, Qmult_sample_rate_nonneg, Qdiv_sign_pos; assumption.
  - apply py_int_le_0, Qmult_sample_rate_nonpos, Qdiv_sign_neg; assumption.
Qed.

Lemma bps_sign : (0 < beats_per_second)%Q \/ (beats_per_second < 0)%Q.
Proof.
  destruct (Q_dec 0 beats_per_second) as [[Hl|Hg]|He]; [left|right|]; try assumption.
  exfalso. apply bps_nonzero. symmetry. exact He.
Qed.

Lemma info_written_bounds c ni :
  well_formed ni ->
  ((0 < beats_per_second)%Q -> 0 <= current_frame c) ->
  let w := info_written beats_per_second total_frames c ni in
  0 <= w
  /\ ((beats_per_second < 0)%Q -> w = 0)
  /\ (forall k, current_frame c <= k < current_frame c + w ->
        0 <= k < total_frames
        /\ k < current_frame (info_cursor H instrument beats_per_second total_frames c ni 0)).
Proof.
  intros [Hd _] Hcur. cbv zeta.
  destruct (info_frames_sign ni Hd) as [Hpos Hneg].
  unfold info_written, info_cursor, written.
  destruct (type ni); cbn [current_frame].
  1,2: (split; [lia|]; split; [intros Hb; specialize (Hneg Hb); lia|];
        intros k Hk; destruct bps_sign as [Hb|Hb];
        [specialize (Hpos Hb); specialize (Hcur Hb); lia | specialize (Hneg Hb); lia]).
  split; [lia|]. split; [reflexivity|]. intros k Hk. lia.
Qed.

Lemma for_each_score_run notes_data : forall c s,
  Forall well_formed notes_data ->
  ((0 < beats_per_second)%Q -> 0 <= current_frame c) ->
  Z.of_nat (length (audio_data c)) = total_frames ->
  exists c' new,
    for_each (score_note_loop H instrument beats_per_second total_frames) notes_data c s
    = (Ok c', {| wav_file := wav_file s;
                 rng_pos := rng_pos s + length new;
                 stores := stores s ++ new |})
    /\ length (audio_data c') = length (audio_data c)
    /\ bound_params c'
       = (if has_sound notes_data then Some (_get_instrument_parameters instrument)
          else bound_params c)
    /\ Forall (fun k => 0 <= k < total_frames /\ current_frame c <= k) new
    /\ ((beats_per_second < 0)%Q -> new = [])
    /\ NoDup new.
Proof.
  induction notes_data as [|ni notes_data IH]; intros c s Hwf Hcur Hlen.
  - exists c, []. cbn. repeat split; try constructor.
    destruct s; cbn. rewrite Nat.add_0_r, app_nil_r. reflexivity.
  - apply Forall_cons in Hwf as [Hni Hrest].
    destruct (info_written_bounds c ni Hni Hcur) as (Hw0 & Hwneg & Hwr).
    pose proof Hni as [Hd _].
    destruct (info_frames_sign ni Hd) as [Hpos Hneg].
    set (w := info_written beats_per_second total_frames c ni) in *.
    set (c1 := info_cursor H instrument beats_per_second total_frames c ni (rng_pos s)).
    assert (Hc1 : current_frame c1
                  = current_frame (info_cursor H instrument beats_per_second total_frames c ni 0)).
    { unfold c1, info_cursor. destruct (type ni); reflexivity. }
    assert (Hc1' : current_frame c1 = current_frame c
                   \/ current_frame c1 = current_frame c + info_frames beats_per_second ni).
    { unfold c1, info_cursor. destruct (type ni); cbn; auto. }
    assert (Hlen1 : length (audio_data c1) = length (audio_data c)).
    { unfold c1, info_cursor. destruct (type ni); cbn [audio_data]; try reflexivity;
        apply frames_of_length, iset_length. }
    cbn [for_each]. unfold mbind, M_bind.
    rewrite (score_note_loop_run H instrument beats_per_second total_frames c ni s
               bps_nonzero Hni); [|intros Hf|exact Hlen].
    2:{ destruct bps_sign as [Hb|Hb]; [exact (Hcur Hb)|specialize (Hneg Hb); lia]. }
    fold c1. fold w.
    destruct (IH c1 (advance s (current_frame c) w) Hrest) as (c' & new & Hrun & Hl & Hbp & Hin & Hnil & Hnd).
    { intros Hb. specialize (Hpos Hb). specialize (Hcur Hb). lia. }
    { rewrite Hlen1. exact Hlen. }
    exists c', (seqZ (current_frame c) w ++ new).
    rewrite Hrun. repeat split.
    + unfold advance; cbn. f_equal. f_equal.
      * rewrite length_app, length_seqZ. lia.
      * rewrite app_assoc. reflexivity.
    + rewrite Hl. exact Hlen1.
    + rewrite Hbp. cbn [has_sound existsb].
      unfold c1, info_cursor. destruct (type ni); cbn; try reflexivity;
        fold (has_sound notes_data); destruct (has_sound notes_data); reflexivity.
    + apply Forall_app. split.
      * apply Forall_seqZ. intros k Hk. specialize (Hwr k Hk). lia.
      * destruct bps_sign as [Hb|Hb]; [|rewrite (Hnil Hb); constructor].
        specialize (Hpos Hb).
        eapply Forall_impl; [exact Hin|]. cbn. intros k Hk. lia.
    + intros Hb. rewrite (Hwneg Hb), (Hnil Hb). reflexivity.
    + apply NoDup_app. split; [apply NoDup_seqZ|]. split; [|exact Hnd].
      intros k Hk1 Hk2. apply elem_of_seqZ in Hk1.
      rewrite Forall_forall in Hin. specialize (Hin k Hk2).
      specialize (Hwr k Hk1). lia.
Qed.

End ScoreRun.

(** ** Whole runs of the two synthesisers *)

Lemma np_zeros_ok H (n : Z) :
  0 <= n <= mem_limit H -> np_zeros H n = Ok (replicate (Z.to_nat n) 0%Q).
Proof.
  intros Hn. unfold np_zeros.
  destruct (n <? 0) eqn:E1; [apply Z.ltb_lt in E1; lia|].
  destruct (mem_limit H <? n) eqn:E2; [apply Z.ltb_lt in E2; lia|].
  reflexivity.
Qed.

Lemma replicate_total_0 (n j : nat) : (replicate n 0%Q !!! j) = 0%Q.
Proof.
  destruct (decide (j < n)%nat) as [Hj|Hj].
  - apply lookup_total_replicate_2. exact Hj.
  - rewrite list_lookup_total_alt.
    rewrite (proj1 (lookup_replicate_None n 0%Q j)) by lia. reflexivity.
Qed.

Section DirectRun.
Context (H : host).
Import Midi.

Lemma synthesize_midi_run midi_notes instrument s total_frames :
  Forall (fun n => 0 <= note_start n) midi_notes ->
  midi_total_frames midi_notes = Ok total_frames ->
  0 <= total_frames <= mem_limit H ->
  exists a new,
    synthesize_midi H midi_notes instrument s
    = (Ok a, {| wav_file := wav_file s;
                rng_pos := rng_pos s + length new;
                stores := stores s ++ new |})
    /\ length a = Z.to_nat total_frames
    /\ Forall (fun k => 0 <= k < total_frames) new
    /\ (quiet H -> forall j,
          (a !!! j == sumQ (map (fun n =>
             contribution H (_get_instrument_parameters instrument) total_frames n j)
             midi_notes))%Q).
Proof.
  intros Hst Htot Hmem.
  destruct (for_each_notes_run H (_get_instrument_parameters instrument) total_frames
              midi_notes (replicate (Z.to_nat total_frames) 0%Q) s Hst)
    as (a & new & Hrun & Hl & Hin & Hcell).
  { rewrite length_replicate. lia. }
  exists a, new. unfold synthesize_midi.
  rewrite Htot. unfold mbind, M_bind, lift. cbn beta iota.
  rewrite (np_zeros_ok H total_frames Hmem). rewrite Hrun.
  repeat split.
  - rewrite Hl. apply length_replicate.
  - exact Hin.
  - intros Hq j. rewrite (Hcell Hq j). rewrite replicate_total_0. ring.
Qed.

(** The MIDI path succeeds when the buffer can be allocated, the filter
    accepts it and the file can be written. *)
Lemma direct_ok file instrument s total_frames :
  _extract_midi_notes file <> [] ->
  Forall (fun n => 0 <= note_start n) (_extract_midi_notes file) ->
  midi_total_frames (_extract_midi_notes file) = Ok total_frames ->
  0 <= total_frames <= mem_limit H ->
  (forall wn x, length x = Z.to_nat total_frames ->
     exists y, butter_filtfilt H wn x = Ok y) ->
  wav_writable H = true ->
  exists pcm s',
    _convert_midi_to_wav_direct H file instrument s = (Ok true, s')
    /\ wav_file s' = Some (Wav 1 2 sample_rate pcm)
    /\ length pcm = Z.to_nat total_frames.
Proof.
  intros Hne Hst Htot Hmem Hfilt Hw.
  destruct (synthesize_midi_run (_extract_midi_notes file) instrument s total_frames
              Hst Htot Hmem) as (a & new & Hrun & Hl & _ & _).
  destruct (Hfilt (filter_cutoff (_get_instrument_parameters instrument)
                   / (inject_Z sample_rate / 2))%Q a Hl) as [y Hy].
  exists (to_pcm16 y). eexists.
  unfold _convert_midi_to_wav_direct, try_except, direct_body.
  rewrite bool_decide_eq_false_2 by exact Hne.
  unfold mbind, M_bind. rewrite Hrun.
  unfold low_pass, lift. rewrite Hy.
  unfold write_pcm, wave_write. rewrite Hw. cbn.
  split; [reflexivity|]. split; [reflexivity|].
  unfold to_pcm16. rewrite length_map.
  rewrite (filtfilt_length H _ _ _ Hy). exact Hl.
Qed.

End DirectRun.

Section ScoreWhole.
Context (H : host).
Import Score.

(** [total_frames] of the score path (lines 363-367). *)
Definition score_total_frames (tempo : Z) (total_duration : Q) : Z :=
  py_int (total_duration / beats_per_second_of tempo * inject_Z sample_rate).

Lemma beats_per_second_of_nonzero tempo : tempo <> 0 -> ~ (beats_per_second_of tempo == 0)%Q.
Proof.
  intros Ht E. unfold beats_per_second_of, Qeq, Qdiv, Qmult, Qinv in E. simpl in E. lia.
Qed.

Lemma synthesize_score_run notes_data tempo total_duration instrument s :
  tempo <> 0 ->
  Forall well_formed notes_data ->
  0 <= score_total_frames tempo total_duration <= mem_limit H ->
  exists c new,
    synthesize_score H notes_data tempo total_duration instrument s
    = (Ok c, {| wav_file := wav_file s;
                rng_pos := rng_pos s + length new;
                stores := stores s ++ new |})
    /\ length (audio_data c) = Z.to_nat (score_total_frames tempo total_duration)
    /\ bound_params c
       = (if has_sound notes_data then Some (_get_instrument_parameters instrument)
          else None)
    /\ Forall (fun k => 0 <= k < score_total_frames tempo total_duration) new
    /\ NoDup new.
Proof.
  intros Ht Hwf Hmem.
  pose proof (beats_per_second_of_nonzero tempo Ht) as Hb.
  set (total := score_total_frames tempo total_duration) in *.
  destruct (for_each_score_run H instrument (beats_per_second_of tempo) total Hb notes_data
              (Cursor (replicate (Z.to_nat total) 0%Q) 0 None) s Hwf)
    as (c & new & Hrun & Hl & Hbp & Hin & _ & Hnd).
  { intros _. cbn. lia. }
  { cbn. rewrite length_replicate. lia. }
  exists c, new. unfold synthesize_score.
  fold (beats_per_second_of tempo). unfold py_div.
  destruct (Qeq_bool (beats_per_second_of tempo) 0) eqn:Eb;
    [apply Qeq_bool_iff in Eb; contradiction|].
  unfold mbind, M_bind, lift. cbn beta iota.
  fold (score_total_frames tempo total_duration). fold total.
  rewrite (np_zeros_ok H total Hmem). rewrite Hrun.
  repeat split.
  - rewrite Hl. cbn. apply length_replicate.
  - exact Hbp.
  - eapply Forall_impl; [exact Hin|]. cbn. intros k Hk. lia.
  - exact Hnd.
Qed.

(** The score path succeeds when some entry sounds, the buffer can be
    allocated, the filter accepts it and the file can be written. *)
Lemma musical_ok notes_data tempo total_duration instrument s :
  tempo <> 0 ->
  Forall well_formed notes_data ->
  has_sound notes_data = true ->
  0 <= score_total_frames tempo total_duration <= mem_limit H ->
  (forall wn x, length x = Z.to_nat (score_total_frames tempo total_duration) ->
     exists y, butter_filtfilt H wn x = Ok y) ->
  wav_writable H = true ->
  exists pcm s',
    _create_musical_wav_from_notes H notes_data tempo total_duration instrument s
    = (Ok true, s')
    /\ wav_file s' = Some (Wav 1 2 sample_rate pcm)
    /\ length pcm = Z.to_nat (score_total_frames tempo total_duration).
Proof.
  intros Ht Hwf Hsound Hmem Hfilt Hw.
  destruct (synthesize_score_run notes_data tempo total_duration instrument s Ht Hwf Hmem)
    as (c & new & Hrun & Hl & Hbp & _ & _).
  rewrite Hsound in Hbp.
  destruct (Hfilt (filter_cutoff (_get_instrument_parameters instrument)
                   / (inject_Z sample_rate / 2))%Q (audio_data c) Hl) as [y Hy].
  exists (to_pcm16 y). eexists.
  unfold _create_musical_wav_from_notes, try_except, musical_body.
  unfold mbind, M_bind. rewrite Hrun. rewrite Hbp.
  unfold low_pass, lift. rewrite Hy.
  unfold write_pcm, wave_write. rewrite Hw. cbn.
  split; [reflexivity|]. split; [reflexivity|].
  unfold to_pcm16. rewrite length_map.
  rewrite (filtfilt_length H _ _ _ Hy). exact Hl.
Qed.

(** Every extracted entry is well formed. *)
Lemma extract_well_formed staff : Forall well_formed (_extract_notes_from_staff staff).
Proof.
  unfold _extract_notes_from_staff.
  induction staff as [|c staff IH]; [constructor|].
  cbn [map concat]. apply Forall_app. split; [|exact IH].
  assert (Hb : forall d, (0 <= beats d)%Q).
  { intros d. unfold beats, Qle, Qdiv, Qmult, Qinv. simpl. lia. }
  destruct c as [pitch d|pitches d|d|]; cbn.
  - repeat constructor; cbn; [apply Hb|eauto].
  - destruct pitches; repeat constructor; cbn; [apply Hb|eauto].
  - repeat constructor; cbn; [apply Hb|congruence].
  - constructor.
Qed.

End ScoreWhole.

(** * The properties of the specification *)

(** ** Quantisation and the timbre table *)

Lemma clip16_int (c : Q) :
  (-32767 <= c <= 32767)%Q -> -32767 <= py_int c <= 32767.
Proof.
  intros [Hlo Hhi]. split.
  - exact (py_int_mono (-32767) c Hlo).
  - exact (py_int_mono c 32767 Hhi).
Qed.

Lemma pcm_sample_range (x : Q) :
  -32767 <= astype_int16 (np_clip (x * 16384) (-32767) 32767) <= 32767.
Proof.
  assert (Hc := np_clip_range (x * 16384) (-32767) 32767).
  assert (Hr : (-32767 <= 32767)%Q) by (unfold Qle; simpl; lia).
  specialize (Hc Hr). apply clip16_int in Hc.
  unfold astype_int16. rewrite wrap16_id; lia.
Qed.

(** The sample as saturation describes it. *)
Definition saturate16 (y : Q) : Z :=
  if Qlt_bool y (-32767) then -32767
  else if Qlt_bool 32767 y then 32767
  else py_int y.

Lemma pcm_sample_saturates (x : Q) :
  astype_int16 (np_clip (x * 16384) (-32767) 32767) = saturate16 (x * 16384).
Proof.
  pose proof (pcm_sample_range x) as Hr.
  unfold astype_int16 in *. rewrite wrap16_id in * by
    (assert (Hc := np_clip_range (x * 16384) (-32767) 32767);
     assert (Hq : (-32767 <= 32767)%Q) by (unfold Qle; simpl; lia);
     specialize (Hc Hq); apply clip16_int in Hc; lia).
  unfold saturate16, np_clip.
  destruct (Qlt_bool (x * 16384) (-32767)) eqn:E1.
  - reflexivity.
  - destruct (Qlt_bool 32767 (x * 16384)); reflexivity.
Qed.

Lemma table_amplitudes :
  Forall (fun e => (overall_amplitude e.2 <= 1)%Q) instrument_table.
Proof. repeat constructor; cbn; unfold Qle; simpl; lia. Qed.

(** ** What a render leaves on disk *)

(** The file at [wav_path] is as it was, or holds a quantised buffer. *)
Definition wav_kept_or_pcm (s s' : sys) : Prop :=
  wav_file s' = wav_file s
  \/ exists a, wav_file s' = Some (Wav 1 2 sample_rate (to_pcm16 a)).

Definition keeps {A} (m : M A) : Prop := forall s, wav_kept_or_pcm s (m s).2.

Lemma wav_kept_refl s : wav_kept_or_pcm s s.
Proof. left. reflexivity. Qed.

Lemma wav_kept_trans s1 s2 s3 :
  wav_kept_or_pcm s1 s2 -> wav_kept_or_pcm s2 s3 -> wav_kept_or_pcm s1 s3.
Proof.
  intros H12 [H23|H23]; [|right; exact H23].
  destruct H12 as [H12|[a H12]]; [left|right; exists a]; congruence.
Qed.

Lemma keeps_ret {A} (a : A) : keeps (mret a).
Proof. intros s. apply wav_kept_refl. Qed.

Lemma keeps_lift {A} (o : outcome A) : keeps (lift o).
Proof. intros s. apply wav_kept_refl. Qed.

Lemma keeps_bind {A B} (m : M A) (f : A -> M B) :
  keeps m -> (forall a, keeps (f a)) -> keeps (m ≫= f).
Proof.
  intros Hm Hf s. unfold mbind, M_bind. specialize (Hm s).
  destruct (m s) as [[a|e] s1]; cbn in Hm |- *; [|exact Hm].
  eapply wav_kept_trans; [exact Hm | apply Hf].
Qed.

Lemma keeps_try {A} (m : M A) (h : string -> M A) :
  keeps m -> (forall e, keeps (h e)) -> keeps (try_except m h).
Proof.
  intros Hm Hh s. unfold try_except. specialize (Hm s).
  destruct (m s) as [[a|e] s1]; cbn in Hm |- *; [exact Hm|].
  eapply wav_kept_trans; [exact Hm | apply Hh].
Qed.

Lemma keeps_for_range {B} stop (body : Z -> B -> M B) :
  (forall i acc, keeps (body i acc)) ->
  forall n i acc, keeps (for_range_break stop body n i acc).
Proof.
  intros Hb. induction n as [|n IH]; intros i acc; cbn [for_range_break].
  - apply keeps_ret.
  - destruct (stop i); [apply keeps_ret|].
    apply keeps_bind; [apply Hb|]. intros acc'. apply IH.
Qed.

Lemma keeps_for_each {A B} (body : B -> A -> M B) :
  (forall acc x, keeps (body acc x)) ->
  forall xs acc, keeps (for_each body xs acc).
Proof.
  intros Hb. induction xs as [|x xs IH]; intros acc; cbn [for_each].
  - apply keeps_ret.
  - apply keeps_bind; [apply Hb|]. intros acc'. apply IH.
Qed.

Section Keeps.
Context (H : host).

Lemma keeps_normal sigma : keeps (np_random_normal H sigma).
Proof. intros s. left. reflexivity. Qed.

Lemma keeps_iadd a k v : keeps (array_iadd a k v).
Proof.
  unfold array_iadd. apply keeps_bind; [apply keeps_lift|]. intros j.
  apply keeps_bind; [intros s; left; reflexivity|]. intros _. apply keeps_ret.
Qed.

Lemma keeps_set a k v : keeps (array_set a k v).
Proof.
  unfold array_set. apply keeps_bind; [apply keeps_lift|]. intros j.
  apply keeps_bind; [intros s; left; reflexivity|]. intros _. apply keeps_ret.
Qed.

Lemma keeps_write_pcm a : keeps (write_pcm H a).
Proof.
  intros s. unfold write_pcm, wave_write.
  destruct (wav_writable H); cbn; [right; eauto | left; reflexivity].
Qed.

Lemma keeps_low_pass p a : keeps (low_pass H p a).
Proof. apply keeps_lift. Qed.

Lemma keeps_synthesize_midi notes instrument : keeps (synthesize_midi H notes instrument).
Proof.
  unfold synthesize_midi.
  apply keeps_bind; [apply keeps_lift|]. intros total.
  apply keeps_bind; [apply keeps_lift|]. intros a.
  apply keeps_for_each. intros acc n. unfold midi_note_loop.
  destruct (Midi.velocity n =? 0); [apply keeps_ret|].
  apply keeps_for_range. intros i a0. unfold midi_frame.
  apply keeps_bind; [apply keeps_normal|]. intros noise.
  apply keeps_bind; [apply keeps_lift|]. intros env. apply keeps_iadd.
Qed.

Lemma keeps_direct file instrument : keeps (_convert_midi_to_wav_direct H file instrument).
Proof.
  unfold _convert_midi_to_wav_direct.
  apply keeps_try; [|intros e; apply keeps_ret].
  unfold direct_body. destruct (bool_decide _); [apply keeps_ret|].
  apply keeps_bind; [apply keeps_synthesize_midi|]. intros a.
  apply keeps_bind; [apply keeps_low_pass|]. intros y.
  apply keeps_bind; [apply keeps_write_pcm|]. intros _. apply keeps_ret.
Qed.

Lemma keeps_synthesize_score notes_data tempo total_duration instrument :
  keeps (synthesize_score H notes_data tempo total_duration instrument).
Proof.
  unfold synthesize_score.
  apply keeps_bind; [apply keeps_lift|]. intros secs.
  apply keeps_bind; [apply keeps_lift|]. intros a.
  apply keeps_for_each. intros c ni. unfold score_note_loop.
  destruct (Score.type ni); try apply keeps_ret;
    (apply keeps_bind; [apply keeps_lift|]; intros ds;
     apply keeps_bind; [apply keeps_lift|]; intros freq;
     apply keeps_bind;
       [apply keeps_for_range; intros i a0; unfold score_frame;
        apply keeps_bind; [apply keeps_normal|]; intros noise;
        apply keeps_bind; [apply keeps_lift|]; intros env; apply keeps_set|];
     intros a1; apply keeps_ret).
Qed.

Lemma keeps_musical notes_data tempo total_duration instrument :
  keeps (_create_musical_wav_from_notes H notes_data tempo total_duration instrument).
Proof.
  unfold _create_musical_wav_from_notes.
  apply keeps_try; [|intros e; apply keeps_ret].
  unfold musical_body.
  apply keeps_bind; [apply keeps_synthesize_score|]. intros c.
  apply keeps_bind; [apply keeps_lift|]. intros p.
  apply keeps_bind; [apply keeps_low_pass|]. intros y.
  apply keeps_bind; [apply keeps_write_pcm|]. intros _. apply keeps_ret.
Qed.

Lemma keeps_simple duration : keeps (_create_simple_wav H duration).
Proof.
  unfold _create_simple_wav.
  apply keeps_try; [|intros e; apply keeps_ret].
  apply keeps_bind; [apply keeps_lift|]. intros a.
  apply keeps_bind; [|intros y; apply keeps_write_pcm].
  apply keeps_for_range. intros i a0. unfold simple_frame.
  apply keeps_bind; [apply keeps_lift|]. intros env. apply keeps_set.
Qed.

Lemma keeps_fallback staff tempo instrument :
  keeps (_create_instrument_synthesis_fallback H staff tempo instrument).
Proof.
  unfold _create_instrument_synthesis_fallback.
  apply keeps_try; [|intros e; apply keeps_ret].
  destruct (bool_decide _).
  - apply keeps_bind; [apply keeps_simple|]. intros _. apply keeps_ret.
  - apply keeps_bind; [apply keeps_musical|]. intros b. apply keeps_ret.
Qed.

Lemma keeps_with_staff file staff tempo instrument :
  keeps (_convert_midi_to_wav_with_staff H file staff tempo instrument).
Proof.
  unfold _convert_midi_to_wav_with_staff.
  apply keeps_try; [|intros e; apply keeps_fallback].
  apply keeps_bind; [apply keeps_direct|]. intros [|]; [apply keeps_ret | apply keeps_fallback].
Qed.

Lemma keeps_render T staff filename tempo instrument :
  keeps (render_staff_to_midi H T staff filename tempo instrument).
Proof.
  unfold render_staff_to_midi.
  apply keeps_try; [|intros e; apply keeps_ret].
  unfold render_body.
  apply keeps_bind; [apply keeps_lift|]. intros result.
  destruct (result.1 =? 0); [|apply keeps_ret].
  destruct (midi_exists T); [|apply keeps_ret].
  apply keeps_bind; [apply keeps_with_staff|]. intros r.
  apply keeps_bind; [intros s; left; reflexivity|]. intros there.
  destruct (truthy r && there); [|apply keeps_ret].
  apply keeps_bind; [intros s; left; reflexivity|]. intros b64.
  apply keeps_bind; [intros s; left; reflexivity|]. intros d. apply keeps_ret.
Qed.

End Keeps.

(** C1. Whatever the filtered buffer holds, every sample of the encoded
    output is the buffer's sample times the fixed gain 16384, clipped to
    [-32767, 32767] and truncated: it lies in that range and is the
    saturated value, the 16-bit cast never wraps. So, for every render,
    the WAV file is left as it was or holds samples within that range.
    Every profile of the timbre table, and so every profile a lookup
    returns, has an overall amplitude of at most 1. *)
Theorem C1_pcm_clipped_and_amplitude_bounded (audio_data : list Q) (instrument : string) :
  Forall (fun z => -32767 <= z <= 32767) (to_pcm16 audio_data)
  /\ to_pcm16 audio_data = map (fun x => saturate16 (x * 16384)) audio_data
  /\ (forall (H : host) (T : tools) (staff : list Score.component)
         (filename : option string) (tempo : Z) (s : sys),
         let s' := (render_staff_to_midi H T staff filename tempo instrument s).2 in
         wav_file s' = wav_file s
         \/ exists pcm,
              wav_file s' = Some (Wav 1 2 sample_rate pcm)
              /\ Forall (fun z => -32767 <= z <= 32767) pcm)
  /\ map_Forall (fun _ p => (overall_amplitude p <= 1)%Q) instrument_params
  /\ (overall_amplitude (_get_instrument_parameters instrument) <= 1)%Q.
Proof.
  assert (Hrange : forall a, Forall (fun z => -32767 <= z <= 32767) (to_pcm16 a)).
  { intros a. unfold to_pcm16. apply Forall_forall. intros z Hz.
    apply list_elem_of_fmap in Hz as [x [-> _]]. apply pcm_sample_range. }
  assert (Htab : map_Forall (fun _ p => (overall_amplitude p <= 1)%Q) instrument_params).
  { intros name p Hp. unfold instrument_params in Hp.
    apply elem_of_list_to_map_2 in Hp.
    pose proof table_amplitudes as Hall. rewrite Forall_forall in Hall.
    exact (Hall (name, p) Hp). }
  split; [apply Hrange|]. split; [|split; [|split]].
  - unfold to_pcm16. apply map_ext. intros x. apply pcm_sample_saturates.
  - intros H T staff filename tempo s. cbv zeta.
    destruct (keeps_render H T staff filename tempo instrument s) as [Hk|[a Ha]].
    + left. exact Hk.
    + right. exists (to_pcm16 a). split; [exact Ha | apply Hrange].
  - exact Htab.
  - unfold _get_instrument_parameters.
    destruct (instrument_params !! instrument) as [p|] eqn:E; cbn.
    + exact (Htab _ _ E).
    + unfold Qle; simpl; lia.
Qed.

(** ** The envelope *)

Section EnvelopePhases.
Context (p : params) (n : Z).

(** The phase lengths the code computes for a note of [n] frames. *)
Definition attack_frames : Z := py_int (inject_Z n * attack_time p).
Definition decay_frames : Z := py_int (inject_Z n * decay_time p).
Definition release_frames : Z := py_int (inject_Z n * release_time p).

(** The middle frame of the sustain phase. *)
Definition sustain_mid : Z := (attack_frames + decay_frames + (n - release_frames)) / 2.

Lemma envelope_attack_start :
  1 <= attack_frames -> exists e, envelope p n 0 = Ok e /\ (e == 0)%Q.
Proof.
  intros Ha. unfold envelope. fold attack_frames.
  destruct (0 <? attack_frames) eqn:E; [|apply Z.ltb_ge in E; lia].
  rewrite py_div_ok by lia. eexists. split; [reflexivity|].
  unfold Qdiv. apply Qmult_0_l.
Qed.

Lemma envelope_sustain i :
  attack_frames <= i -> attack_frames + decay_frames <= i -> i < n - release_frames ->
  envelope p n i = Ok (sustain_level p).
Proof.
  intros Ha Hd Hr. unfold envelope.
  fold attack_frames decay_frames release_frames.
  destruct (i <? attack_frames) eqn:E1; [apply Z.ltb_lt in E1; lia|].
  destruct (i <? attack_frames + decay_frames) eqn:E2; [apply Z.ltb_lt in E2; lia|].
  destruct (i <? n - release_frames) eqn:E3; [|apply Z.ltb_ge in E3; lia].
  reflexivity.
Qed.

End EnvelopePhases.

(** C10, as the code has it. The phase lengths are the profile's fractions
    of the note's own frame count, truncated. When the attack phase has
    at least one frame the envelope of frame 0 is 0; when the sustain
    phase is not empty (and the decay phase has no negative length) the
    envelope of its middle frame is exactly [sustain_level]. A note so
    short that the attack length truncates to 0 is not covered. *)
Theorem C10_envelope_start_and_sustain (p : params) (n : Z) :
  (1 <= attack_frames p n ->
     exists e, envelope p n 0 = Ok e /\ (e == 0)%Q)
  /\ (0 <= decay_frames p n ->
      attack_frames p n + decay_frames p n < n - release_frames p n ->
      envelope p n (sustain_mid p n) = Ok (sustain_level p)).
Proof.
  split.
  - apply envelope_attack_start.
  - intros Hd Hs. unfold sustain_mid.
    assert (Hm : attack_frames p n + decay_frames p n
                 <= (attack_frames p n + decay_frames p n + (n - release_frames p n)) / 2
                 < n - release_frames p n).
    { split.
      - apply Z.div_le_lower_bound; lia.
      - apply Z.div_lt_upper_bound; lia. }
    apply envelope_sustain; lia.
Qed.

(** A quarter note at 120 BPM on the violin: 22050 frames, 220 of attack,
    and frame 7276 in the middle of the sustain phase. *)
Lemma C10_envelope_witness :
  (exists e, envelope violin 22050 0 = Ok e /\ (e == 0)%Q)
  /\ envelope violin 22050 (sustain_mid violin 22050) = Ok 0.8%Q.
Proof.
  destruct (C10_envelope_start_and_sustain violin 22050) as [H0 Hs].
  split.
  - apply H0. vm_compute. discriminate.
  - apply Hs; vm_compute; [discriminate | reflexivity].
Defined.

(** A 1024th note at 120 BPM on the violin has 86 frames; 1 % of that
    truncates to no attack frame at all, and the envelope of frame 0 is
    1, not 0. *)
Lemma C10_short_note_counterexample :
  info_frames (beats_per_second_of 120)
    (Score.NoteInfo (Some 60) (Score.beats {| Score.numerator := 1; Score.denominator := 1024 |})
       Score.note) = 86
  /\ attack_frames violin 86 = 0
  /\ exists e, envelope violin 86 0 = Ok e /\ (e == 1)%Q /\ ~ (e == 0)%Q.
Proof.
  split; [vm_compute; reflexivity|].
  split; [vm_compute; reflexivity|].
  eexists. split; [vm_compute; reflexivity|].
  split; [vm_compute; reflexivity|].
  intros E. vm_compute in E. discriminate.
Qed.

(** ** Open notes in the MIDI extraction *)

Section OpenNotes.
Import Midi.
Context (tpb : Z) (L : nat).

(** Every note still open is in [notes], at the position [active_notes]
    records, past the entries of earlier tracks, and with the duration it
    was created with. *)
Definition open_ok (v : vars) : Prop :=
  forall n idx, active_notes v !! n = Some idx ->
    (L <= idx)%nat
    /\ exists nd, notes v !! idx = Some nd /\ note nd = n /\ duration nd = 0.5%Q.

Definition open_inj (v : vars) : Prop :=
  forall n n' idx,
    active_notes v !! n = Some idx -> active_notes v !! n' = Some idx -> n = n'.

(** The invariant of [for msg in track], relative to the variables [v0]
    at some earlier point of the track. *)
Definition track_inv (v0 v : vars) : Prop :=
  open_ok v /\ open_inj v /\ (L <= length (notes v))%nat
  /\ forall i, (i < L)%nat -> notes v !! i = notes v0 !! i.

Lemma close_note_inv n v0 v : track_inv v0 v -> track_inv v0 (close_note n v).
Proof.
  intros Hinv. pose proof Hinv as (Hok & Hinj & Hlen & Hpre). unfold close_note.
  destruct (active_notes v !! n) as [idx|] eqn:En; [|exact Hinv].
  destruct (Hok n idx En) as [HL _].
  split; [|split; [|split]]; cbn.
  - intros m j Hm. cbn in Hm |- *. apply lookup_delete_Some in Hm as [Hne Hm].
    destruct (Hok _ _ Hm) as [HLm (nd & Hnd & Hnote & Hdur)].
    split; [exact HLm|]. exists nd. split; [|split; assumption].
    rewrite list_lookup_alter_ne; [exact Hnd|].
    intros ->. apply Hne. exact (Hinj _ _ _ En Hm).
  - intros a b i Ha Hb. cbn in Ha, Hb.
    apply lookup_delete_Some in Ha as [_ Ha].
    apply lookup_delete_Some in Hb as [_ Hb].
    exact (Hinj _ _ _ Ha Hb).
  - rewrite length_alter. exact Hlen.
  - intros i Hi. rewrite list_lookup_alter_ne by lia. apply Hpre. exact Hi.
Qed.

Lemma note_on_inv n vel ch t v0 v :
  track_inv v0 v ->
  track_inv v0 {| notes := notes v ++ [NoteData n vel t 0.5 ch]; tempo := tempo v;
                  track_time := t;
                  active_notes := <[n := length (notes v)]> (active_notes v) |}.
Proof.
  intros (Hok & Hinj & Hlen & Hpre).
  split; [|split; [|split]]; cbn.
  - intros m j Hm. cbn in Hm |- *. destruct (decide (n = m)) as [->|Hne].
    + rewrite lookup_insert_eq in Hm. injection Hm as <-.
      split; [exact Hlen|]. exists (NoteData m vel t 0.5 ch).
      split; [|split; reflexivity].
      rewrite lookup_app_r by lia. rewrite Nat.sub_diag. reflexivity.
    + rewrite lookup_insert_ne in Hm by exact Hne.
      destruct (Hok _ _ Hm) as [HLm (nd & Hnd & Hnote & Hdur)].
      split; [exact HLm|]. exists nd. split; [|split; assumption].
      rewrite lookup_app_l; [exact Hnd|]. eapply lookup_lt_Some. exact Hnd.
  - intros a b i Ha Hb. cbn in Ha, Hb.
    destruct (decide (n = a)) as [Ea|Hna]; destruct (decide (n = b)) as [Eb|Hnb].
    + congruence.
    + subst a. rewrite lookup_insert_eq in Ha. injection Ha as <-.
      rewrite lookup_insert_ne in Hb by exact Hnb.
      destruct (Hok _ _ Hb) as [_ (nd & Hnd & _)].
      apply lookup_lt_Some in Hnd. lia.
    + subst b. rewrite lookup_insert_eq in Hb. injection Hb as <-.
      rewrite lookup_insert_ne in Ha by exact Hna.
      destruct (Hok _ _ Ha) as [_ (nd & Hnd & _)].
      apply lookup_lt_Some in Hnd. lia.
    + rewrite lookup_insert_ne in Ha by exact Hna.
      rewrite lookup_insert_ne in Hb by exact Hnb.
      exact (Hinj _ _ _ Ha Hb).
  - rewrite length_app. cbn. lia.
  - intros i Hi. rewrite lookup_app_l by lia. apply Hpre. exact Hi.
Qed.

Lemma on_message_inv v0 v msg v' :
  on_message tpb v msg = Ok v' -> track_inv v0 v -> track_inv v0 v'.
Proof.
  unfold on_message. intros Hstep Hinv.
  destruct (py_div (inject_Z (time msg)) (inject_Z tpb)) as [ticks|]; [|discriminate].
  destruct (py_div 60.0 (tempo v)) as [spb|]; [|discriminate].
  cbn in Hstep.
  set (t := (track_time v + ticks * spb)%Q) in *.
  assert (Hinv' : track_inv v0 (Vars (notes v) (tempo v) t (active_notes v))) by exact Hinv.
  destruct msg as [n vel ch tm|n vel ch tm|tmp tm|tm].
  - destruct (0 <? vel) eqn:Ev.
    + injection Hstep as <-. apply (note_on_inv n vel ch t v0 _ Hinv').
    + destruct (vel =? 0); injection Hstep as <-.
      * apply close_note_inv. exact Hinv'.
      * exact Hinv'.
  - injection Hstep as <-. apply close_note_inv. exact Hinv'.
  - destruct (tempo2bpm tmp) as [bpm|]; [|discriminate].
    injection Hstep as <-. exact Hinv.
  - injection Hstep as <-. exact Hinv'.
Qed.

Lemma on_messages_inv track : forall v0 v v',
  on_messages tpb v track = Ok v' -> track_inv v0 v -> track_inv v0 v'.
Proof.
  induction track as [|msg track IH]; intros v0 v v' Hrun Hinv.
  - injection Hrun as <-. exact Hinv.
  - cbn in Hrun. destruct (on_message tpb v msg) as [v1|] eqn:E1; [|discriminate].
    cbn in Hrun. apply (IH v0 v1 v' Hrun). exact (on_message_inv v0 v msg v1 E1 Hinv).
Qed.

End OpenNotes.

Section Tracks.
Import Midi.
Context (tpb : Z).

Lemma track_inv_start nt :
  let v := Vars nt.1 nt.2 0.0 ∅ in track_inv (length nt.1) v v.
Proof.
  cbv zeta. split; [|split; [|split]]; cbn.
  - intros n idx Hn. cbn in Hn. try rewrite lookup_empty in Hn. discriminate.
  - intros n n' idx Hn. cbn in Hn. try rewrite lookup_empty in Hn. discriminate.
  - lia.
  - reflexivity.
Qed.

(** A track leaves the entries of the tracks before it as they are. *)
Lemma on_track_prefix nt track nt' :
  on_track tpb nt track = Ok nt' ->
  (length nt.1 <= length nt'.1)%nat
  /\ forall i, (i < length nt.1)%nat -> nt'.1 !! i = nt.1 !! i.
Proof.
  unfold on_track. intros Hrun.
  destruct (on_messages tpb (Vars nt.1 nt.2 0.0 ∅) track) as [v|] eqn:Ev; [|discriminate].
  cbn in Hrun. injection Hrun as <-.
  destruct (on_messages_inv tpb (length nt.1) track _ _ v Ev (track_inv_start nt))
    as (_ & _ & Hlen & Hpre).
  split; [exact Hlen | exact Hpre].
Qed.

Lemma on_tracks_prefix trks : forall nt nt',
  on_tracks tpb nt trks = Ok nt' ->
  (length nt.1 <= length nt'.1)%nat
  /\ forall i, (i < length nt.1)%nat -> nt'.1 !! i = nt.1 !! i.
Proof.
  induction trks as [|track trks IH]; intros nt nt' Hrun.
  - injection Hrun as <-. split; [lia | reflexivity].
  - cbn in Hrun. destruct (on_track tpb nt track) as [nt1|] eqn:E1; [|discriminate].
    cbn in Hrun. destruct (on_track_prefix nt track nt1 E1) as [Hl1 Hp1].
    destruct (IH nt1 nt' Hrun) as [Hl2 Hp2].
    split; [lia|]. intros i Hi. rewrite Hp2 by lia. apply Hp1. exact Hi.
Qed.

Lemma on_tracks_app pre post : forall nt,
  on_tracks tpb nt (pre ++ post) = on_tracks tpb nt pre ≫= (fun nt1 => on_tracks tpb nt1 post).
Proof.
  induction pre as [|track pre IH]; intros nt; [reflexivity|].
  cbn. destruct (on_track tpb nt track) as [nt1|]; cbn; [apply IH | reflexivity].
Qed.

End Tracks.

(** C9, as the code has it. A note-on of positive velocity appends its
    note to the emitted list at once, with the default duration 0.5 s; a
    note-off only updates that entry. So a note that is still open when
    its track ends is not dropped: whenever the extraction completes, the
    list it returns holds the note, at the position recorded for it, with
    the duration 0.5 s. *)
Theorem C9_open_notes_are_emitted (mid : Midi.MidiFile)
    (pre : list (list Midi.message)) (track : list Midi.message)
    (post : list (list Midi.message))
    (nt : list Midi.note_data * Q) (v : Midi.vars) (final : list Midi.note_data)
    (n : Z) (idx : nat) :
  Midi.tracks mid = pre ++ track :: post ->
  Midi.on_tracks (Midi.ticks_per_beat mid) ([], 120%Q) pre = Ok nt ->
  Midi.on_messages (Midi.ticks_per_beat mid) (Midi.Vars nt.1 nt.2 0.0 ∅) track = Ok v ->
  Midi.active_notes v !! n = Some idx ->
  Midi.extract_body mid = Ok final ->
  Midi._extract_midi_notes (Ok mid) = final
  /\ exists nd, final !! idx = Some nd /\ Midi.note nd = n /\ Midi.duration nd = 0.5%Q.
Proof.
  intros Htr Hpre Htrack Hopen Hfinal.
  split; [unfold Midi._extract_midi_notes; cbn; rewrite Hfinal; reflexivity|].
  destruct (on_messages_inv (Midi.ticks_per_beat mid) (length nt.1) track _ _ v Htrack
              (track_inv_start nt)) as (Hok & _ & _ & _).
  destruct (Hok n idx Hopen) as [_ (nd & Hnd & Hnote & Hdur)].
  exists nd. split; [|split; assumption].
  unfold Midi.extract_body in Hfinal. rewrite Htr, on_tracks_app, Hpre in Hfinal.
  cbn in Hfinal. unfold Midi.on_track in Hfinal. rewrite Htrack in Hfinal. cbn in Hfinal.
  destruct (Midi.on_tracks (Midi.ticks_per_beat mid) (Midi.notes v, Midi.tempo v) post)
    as [ntf|] eqn:Ef; [|discriminate].
  cbn in Hfinal. injection Hfinal as <-.
  destruct (on_tracks_prefix _ post _ ntf Ef) as [Hl Hp]. cbn in Hl, Hp.
  assert (Hi : (idx < length (Midi.notes v))%nat) by (eapply lookup_lt_Some; exact Hnd).
  assert (Hne : ntf.1 <> []).
  { intros E. rewrite E in Hl. cbn in Hl. lia. }
  rewrite bool_decide_eq_false_2 by exact Hne.
  rewrite Hp by exact Hi. exact Hnd.
Qed.

(** A track that opens C4 and never closes it, and plays E4 for two beats. *)
Definition open_c4_track : list Midi.message :=
  [Midi.note_on 60 100 0 0; Midi.note_on 64 80 0 480; Midi.note_off 64 0 0 960].

Definition open_c4 : Midi.MidiFile :=
  {| Midi.ticks_per_beat := 480; Midi.tracks := [open_c4_track] |}.

Lemma C9_open_notes_witness :
  exists final nd,
    Midi._extract_midi_notes (Ok open_c4) = final
    /\ final !! 0%nat = Some nd /\ Midi.note nd = 60 /\ Midi.duration nd = 0.5%Q.
Proof.
  destruct (Midi.on_messages 480 (Midi.Vars [] 120%Q 0.0 ∅) open_c4_track)
    as [v|] eqn:Ev; [|vm_compute in Ev; discriminate].
  destruct (Midi.extract_body open_c4) as [final|] eqn:Ef; [|vm_compute in Ef; discriminate].
  destruct (C9_open_notes_are_emitted open_c4 [] open_c4_track [] ([], 120%Q) v final 60 0%nat)
    as [Hx (nd & Hnd & Hn & Hd)].
  - reflexivity.
  - reflexivity.
  - exact Ev.
  - vm_compute in Ev. injection Ev as <-. vm_compute. reflexivity.
  - exact Ef.
  - exists final, nd. repeat split; assumption.
Defined.

(** The C4 of [open_c4] has no note-off, and the emitted list has it. *)
Lemma C9_open_note_counterexample :
  exists v c4 e4,
    Midi.on_messages 480 (Midi.Vars [] 120%Q 0.0 ∅) open_c4_track = Ok v
    /\ Midi.active_notes v !! 60 = Some 0%nat
    /\ Midi._extract_midi_notes (Ok open_c4) = [c4; e4]
    /\ Midi.note c4 = 60 /\ Midi.duration c4 = 0.5%Q
    /\ Midi.note e4 = 64 /\ (Midi.duration e4 == 1)%Q.
Proof.
  eexists. eexists. eexists.
  split; [vm_compute; reflexivity|].
  split; [vm_compute; reflexivity|].
  split; [vm_compute; reflexivity|].
  repeat split.
Qed.

(** ** What the facade returns *)

Lemma write_pcm_wav H a s s' :
  write_pcm H a s = (Ok tt, s') -> wav_file s' = Some (Wav 1 2 sample_rate (to_pcm16 a)).
Proof.
  unfold write_pcm, wave_write. destruct (wav_writable H); [|discriminate].
  intros E. injection E as <-. reflexivity.
Qed.

(** A path that reports success has just written the file. *)
Lemma direct_true_wav H file instrument s s' :
  _convert_midi_to_wav_direct H file instrument s = (Ok true, s') ->
  exists a, wav_file s' = Some (Wav 1 2 sample_rate (to_pcm16 a)).
Proof.
  unfold _convert_midi_to_wav_direct, try_except, direct_body.
  destruct (bool_decide (Midi._extract_midi_notes file = [])); [discriminate|].
  unfold mbind, M_bind.
  destruct (synthesize_midi H _ instrument s) as [[a|e] s1]; [|discriminate].
  destruct (low_pass H _ a s1) as [[y|e] s2]; [|discriminate].
  destruct (write_pcm H y s2) as [[[]|e] s3] eqn:Ew; [|discriminate].
  intros E. injection E as <-. exists y. exact (write_pcm_wav H y s2 s3 Ew).
Qed.

Lemma musical_true_wav H notes_data tempo total_duration instrument s s' :
  _create_musical_wav_from_notes H notes_data tempo total_duration instrument s
  = (Ok true, s') ->
  exists a, wav_file s' = Some (Wav 1 2 sample_rate (to_pcm16 a)).
Proof.
  unfold _create_musical_wav_from_notes, try_except, musical_body.
  unfold mbind, M_bind.
  destruct (synthesize_score H _ tempo total_duration instrument s) as [[c|e] s1];
    [|discriminate].
  destruct (lift _ s1) as [[p|e] s2]; [|discriminate].
  destruct (low_pass H p _ s2) as [[y|e] s3]; [|discriminate].
  destruct (write_pcm H y s3) as [[[]|e] s4] eqn:Ew; [|discriminate].
  intros E. injection E as <-. exists y. exact (write_pcm_wav H y s3 s4 Ew).
Qed.

Lemma fallback_never_raises H staff tempo instrument s :
  exists r s', _create_instrument_synthesis_fallback H staff tempo instrument s = (Ok r, s').
Proof.
  unfold _create_instrument_synthesis_fallback, try_except.
  match goal with |- context [match ?m s with _ => _ end] => destruct (m s) as [[r|e] s'] end;
    eauto.
Qed.

Lemma fallback_true_wav H staff tempo instrument s r s' :
  _create_instrument_synthesis_fallback H staff tempo instrument s = (Ok r, s') ->
  truthy r = true ->
  exists a, wav_file s' = Some (Wav 1 2 sample_rate (to_pcm16 a)).
Proof.
  unfold _create_instrument_synthesis_fallback, try_except.
  destruct (bool_decide (Score._extract_notes_from_staff staff = [])).
  - unfold mbind, M_bind.
    destruct (_create_simple_wav H 2.0 s) as [[[]|e] s1]; intros E; injection E as <- <-;
      discriminate.
  - unfold mbind, M_bind.
    destruct (_create_musical_wav_from_notes H _ tempo _ instrument s) as [[b|e] s1] eqn:Em.
    + intros E; injection E as <- <-. destruct b; [|discriminate].
      intros _. exact (musical_true_wav _ _ _ _ _ _ _ Em).
    + intros E; injection E as <- <-. discriminate.
Qed.

Lemma with_staff_never_raises H file staff tempo instrument s :
  exists r s', _convert_midi_to_wav_with_staff H file staff tempo instrument s = (Ok r, s').
Proof.
  unfold _convert_midi_to_wav_with_staff, try_except, mbind, M_bind.
  destruct (_convert_midi_to_wav_direct H file instrument s) as [[[|]|e] s1].
  - eauto.
  - destruct (fallback_never_raises H staff tempo instrument s1) as (r & s2 & ->). eauto.
  - apply fallback_never_raises.
Qed.

Lemma with_staff_true_wav H file staff tempo instrument s r s' :
  _convert_midi_to_wav_with_staff H file staff tempo instrument s = (Ok r, s') ->
  truthy r = true ->
  exists a, wav_file s' = Some (Wav 1 2 sample_rate (to_pcm16 a)).
Proof.
  unfold _convert_midi_to_wav_with_staff, try_except, mbind, M_bind.
  destruct (_convert_midi_to_wav_direct H file instrument s) as [[[|]|e] s1] eqn:Ed.
  - intros E; injection E as <- <-. intros _. exact (direct_true_wav _ _ _ _ _ Ed).
  - destruct (fallback_never_raises H staff tempo instrument s1) as (r1 & s2 & Ef).
    rewrite Ef. intros E. injection E as <- <-.
    exact (fallback_true_wav _ _ _ _ _ _ _ Ef).
  - apply fallback_true_wav.
Qed.

Section FacadeCases.
Context (H : host) (T : tools).
Context (staff : list Score.component) (filename : option string)
        (tempo : Z) (instrument : string).

(** The duration [_get_wav_duration] reads off the state. *)
Definition duration_in (s : sys) : Q := match (_get_wav_duration s).1 with
                                         | Ok d => d
                                         | Raise _ => 0%Q
                                         end.
Definition base64_in (s : sys) : string :=
  match wav_file s with
  | Some w => b64encode_wav H w
  | None => ""%string
  end.

Definition failed (d : gmap string pyval) : Prop :=
  d !! "success"%string = None /\ exists msg, d = {["error"%string := PyStr msg]}.

Lemma error_failed msg : failed {["error"%string := PyStr msg]}.
Proof. split; [reflexivity | eauto]. Qed.

(** The facade always returns a dict: that of a success, read off the
    state the synthesis path leaves, or one with only an error text. *)
Lemma render_cases s :
  exists d s',
    render_staff_to_midi H T staff filename tempo instrument s = (Ok d, s')
    /\ ((d = success_result (midi_path T filename) (wav_path T filename)
               (base64_in s') tempo (duration_in s') instrument
         /\ exists r, _convert_midi_to_wav_with_staff H (midi_file T) staff tempo instrument s
                      = (Ok r, s') /\ truthy r = true /\ is_Some (wav_file s'))
        \/ failed d).
Proof.
  unfold render_staff_to_midi, try_except, render_body, mbind, M_bind, lift.
  destruct (lilypond_run T) as [[returncode stderr]|e]; cbn [fst snd].
  2:{ eexists _, _. split; [reflexivity|]. right. apply error_failed. }
  destruct (returncode =? 0).
  2:{ eexists _, _. split; [reflexivity|]. right. apply error_failed. }
  destruct (midi_exists T).
  2:{ eexists _, _. split; [reflexivity|]. right. apply error_failed. }
  destruct (with_staff_never_raises H (midi_file T) staff tempo instrument s)
    as (r & s1 & Hr).
  rewrite Hr. unfold wav_exists.
  destruct (truthy r && bool_decide (is_Some (wav_file s1))) eqn:Eok.
  - apply andb_true_iff in Eok as [Ht Hw]. apply bool_decide_eq_true in Hw.
    eexists _, s1. split; [reflexivity|]. left. split; [reflexivity|].
    exists r. repeat split; assumption.
  - eexists _, _. split; [reflexivity|]. right. apply error_failed.
Qed.

Lemma success_result_success a b c t d i :
  success_result a b c t d i !! "success"%string = Some (PyBool true).
Proof. reflexivity. Qed.

Lemma success_result_duration a b c t d i :
  success_result a b c t d i !! "duration"%string = Some (PyFloat d).
Proof. reflexivity. Qed.

End FacadeCases.

Section FacadeRuns.
Context (H : host) (T : tools).
Context (staff : list Score.component) (filename : option string)
        (tempo : Z) (instrument : string).

(** Past LilyPond, the result is decided by the synthesis path. *)
Lemma render_run s r s1 stderr :
  lilypond_run T = Ok (0, stderr) -> midi_exists T = true ->
  _convert_midi_to_wav_with_staff H (midi_file T) staff tempo instrument s = (Ok r, s1) ->
  render_staff_to_midi H T staff filename tempo instrument s
  = (Ok (if truthy r && bool_decide (is_Some (wav_file s1))
         then success_result (midi_path T filename) (wav_path T filename)
                (base64_in H s1) tempo (duration_in s1) instrument
         else {["error"%string := PyStr "Failed to convert MIDI to WAV"]}), s1).
Proof.
  intros Hl Hm Hr.
  unfold render_staff_to_midi, try_except, render_body, mbind, M_bind, lift.
  rewrite Hl. cbn [fst snd]. change (0 =? 0) with true. cbv iota.
  rewrite Hm, Hr. unfold wav_exists.
  destruct (truthy r && bool_decide (is_Some (wav_file s1))); reflexivity.
Qed.

Lemma duration_in_wav s pcm :
  wav_file s = Some (Wav 1 2 sample_rate pcm) ->
  duration_in s
  = py_round1 (fl (inject_Z (Z.of_nat (length pcm)) / inject_Z sample_rate)).
Proof. intros Hw. unfold duration_in, _get_wav_duration. rewrite Hw. reflexivity. Qed.

(** A render whose MIDI path succeeds. *)
Lemma direct_render s stderr total_frames :
  lilypond_run T = Ok (0, stderr) -> midi_exists T = true ->
  Midi._extract_midi_notes (midi_file T) <> [] ->
  Forall (fun n => 0 <= note_start n) (Midi._extract_midi_notes (midi_file T)) ->
  midi_total_frames (Midi._extract_midi_notes (midi_file T)) = Ok total_frames ->
  0 <= total_frames <= mem_limit H ->
  (forall wn x, length x = Z.to_nat total_frames ->
     exists y, butter_filtfilt H wn x = Ok y) ->
  wav_writable H = true ->
  exists pcm s',
    render_staff_to_midi H T staff filename tempo instrument s
    = (Ok (success_result (midi_path T filename) (wav_path T filename)
             (base64_in H s') tempo
             (py_round1 (fl (inject_Z total_frames / inject_Z sample_rate))) instrument), s')
    /\ wav_file s' = Some (Wav 1 2 sample_rate pcm)
    /\ length pcm = Z.to_nat total_frames.
Proof.
  intros Hl Hm Hne Hst Htot Hmem Hfilt Hw.
  destruct (direct_ok H (midi_file T) instrument s total_frames Hne Hst Htot Hmem Hfilt Hw)
    as (pcm & s' & Hd & Hwav & Hlen).
  exists pcm, s'.
  assert (Hr : _convert_midi_to_wav_with_staff H (midi_file T) staff tempo instrument s
               = (Ok (Some true), s')).
  { unfold _convert_midi_to_wav_with_staff, try_except, mbind, M_bind.
    rewrite Hd. reflexivity. }
  rewrite (render_run s (Some true) s' stderr Hl Hm Hr).
  rewrite Hwav. cbn [truthy default andb].
  rewrite bool_decide_eq_true_2 by eauto.
  rewrite (duration_in_wav s' pcm Hwav), Hlen.
  rewrite Z2Nat.id by lia.
  split; [reflexivity|]. split; reflexivity.
Qed.

(** The score path, tried after the MIDI path gave [False]. *)
Lemma fallback_ok s :
  tempo <> 0 ->
  has_sound (Score._extract_notes_from_staff staff) = true ->
  let total := score_total_frames tempo
                 (py_sum (map Score.duration (Score._extract_notes_from_staff staff))) in
  0 <= total <= mem_limit H ->
  (forall wn x, length x = Z.to_nat total -> exists y, butter_filtfilt H wn x = Ok y) ->
  wav_writable H = true ->
  exists pcm s',
    _create_instrument_synthesis_fallback H staff tempo instrument s = (Ok (Some true), s')
    /\ wav_file s' = Some (Wav 1 2 sample_rate pcm)
    /\ length pcm = Z.to_nat total.
Proof.
  intros Ht Hsound total Hmem Hfilt Hw.
  destruct (musical_ok H (Score._extract_notes_from_staff staff) tempo
              (py_sum (map Score.duration (Score._extract_notes_from_staff staff)))
              instrument s Ht (extract_well_formed staff) Hsound Hmem Hfilt Hw)
    as (pcm & s' & Hrun & Hwav & Hlen).
  exists pcm, s'.
  unfold _create_instrument_synthesis_fallback, try_except.
  assert (Hne : Score._extract_notes_from_staff staff <> []).
  { intros E. rewrite E in Hsound. discriminate. }
  rewrite bool_decide_eq_false_2 by exact Hne.
  unfold mbind, M_bind. rewrite Hrun.
  split; [reflexivity|]. split; [exact Hwav | exact Hlen].
Qed.

End FacadeRuns.

(** ** A host to run examples on *)

(** Exact where the examples need it and crude elsewhere: the sine is its
    third-order Taylor polynomial, [2 ** x] steps at the integers, pi is
    the double nearest to it, and the filter, which like scipy's refuses
    an input no longer than its padding of 15 samples, passes the signal
    unchanged. *)
Module Reference.

Definition taylor_sin (x : Q) : Q := Qred (x - x * x * x / 6)%Q.
Definition step_pow2 (x : Q) : Q := Qpower 2 (Qfloor x).
Definition double_pi : Q := (884279719003555 # 281474976710656)%Q.
Definition padded_filter (wn : Q) (x : list Q) : outcome (list Q) :=
  if (length x <=? 15)%nat then Raise "ValueError" else Ok x.

Lemma padded_filter_length wn x y : padded_filter wn x = Ok y -> length y = length x.
Proof. unfold padded_filter. destruct (_ <=? _)%nat; congruence. Qed.

Lemma padded_filter_ok wn x : (15 < length x)%nat -> exists y, padded_filter wn x = Ok y.
Proof.
  intros Hx. unfold padded_filter.
  destruct (length x <=? 15)%nat eqn:E; [apply Nat.leb_le in E; lia | eauto].
Qed.

(** The host whose generator hands out [draws], with room for [limit]
    samples. *)
Definition machine (draws : nat -> Q) (limit : Z) : host :=
  {| np_sin := taylor_sin; np_pi := double_pi; pow2 := step_pow2;
     gauss := draws; mem_limit := limit;
     butter_filtfilt := padded_filter; filtfilt_length := padded_filter_length;
     wav_writable := true; b64encode_wav := fun _ => ""%string |}.

Definition silence : nat -> Q := fun _ => 0%Q.

(** LilyPond ran, and the MIDI file is read as [file]. *)
Definition session (file : outcome Midi.MidiFile) : tools :=
  {| uuid_hex8 := "0a1b2c3d"; temp_dir := "/tmp";
     path_join := fun a b => (a ++ "/" ++ b)%string;
     lilypond_run := Ok (0, ""%string); midi_exists := true; midi_file := file |}.

Definition fresh : sys := {| wav_file := None; rng_pos := 0; stores := [] |}.

End Reference.

(** ** C4: durations in the score path *)






(** ** C2: the facade and exceptions *)

(** C2, as the code has it. The render operation never lets an exception
    reach its caller: it always returns a dict, that of a success or one
    holding nothing but an error text (it has no success key, which the
    callers read as false). An exception of the facade's own steps becomes
    the text "Audio generation failed: ...". An exception raised while
    synthesising, filtering or encoding does not reach the facade: the
    synthesis paths catch it and return normally, the score path is tried
    after the MIDI path, and when what they return is not true the
    result is the error dict "Failed to convert MIDI to WAV". *)
Theorem C2_render_never_raises (H : host) (T : tools) (staff : list Score.component)
    (filename : option string) (tempo : Z) (instrument : string) (s : sys) :
  exists d s',
    render_staff_to_midi H T staff filename tempo instrument s = (Ok d, s')
    /\ (d !! "success"%string = Some (PyBool true)
        \/ (d !! "success"%string = None
            /\ exists msg, d = {["error"%string := PyStr msg]}))
    /\ (forall e s1,
          render_body H T staff filename tempo instrument s = (Raise e, s1) ->
          d = {["error"%string := PyStr ("Audio generation failed: " ++ e)]})
    /\ exists r s1,
         _convert_midi_to_wav_with_staff H (midi_file T) staff tempo instrument s
         = (Ok r, s1)
         /\ (forall stderr,
               lilypond_run T = Ok (0, stderr) -> midi_exists T = true ->
               truthy r = false ->
               d = {["error"%string := PyStr "Failed to convert MIDI to WAV"]}).
Proof.
  destruct (render_cases H T staff filename tempo instrument s) as (d & s' & Hrun & Hd).
  exists d, s'. split; [exact Hrun|]. split; [|split].
  - destruct Hd as [[-> _]|Hf]; [left; apply success_result_success | right; exact Hf].
  - intros e s1 Hb. unfold render_staff_to_midi, try_except in Hrun.
    rewrite Hb in Hrun. injection Hrun as <- <-. reflexivity.
  - destruct (with_staff_never_raises H (midi_file T) staff tempo instrument s)
      as (r & s1 & Hr).
    exists r, s1. split; [exact Hr|].
    intros stderr Hl Hm Hfalse.
    rewrite (render_run H T staff filename tempo instrument s r s1 stderr Hl Hm Hr) in Hrun.
    rewrite Hfalse in Hrun. cbn [andb] in Hrun. injection Hrun as <- <-. reflexivity.
Qed.

(** LilyPond is not installed where it was found at start-up: the
    exception of [subprocess.run] becomes an error dict. *)
Definition no_lilypond : tools :=
  {| uuid_hex8 := "0a1b2c3d"; temp_dir := "/tmp";
     path_join := fun a b => (a ++ "/" ++ b)%string;
     lilypond_run := Raise "FileNotFoundError"; midi_exists := false;
     midi_file := Raise "FileNotFoundError" |}.

Lemma C2_render_never_raises_witness :
  exists s',
    render_staff_to_midi (Reference.machine Reference.silence 1000000) no_lilypond
      [] None 120 "Piano" Reference.fresh
    = (Ok {["error"%string := PyStr "Audio generation failed: FileNotFoundError"]}, s').
Proof.
  destruct (C2_render_never_raises (Reference.machine Reference.silence 1000000)
              no_lilypond [] None 120 "Piano"%string Reference.fresh)
    as (d & s' & Hrun & _ & Hexc & _).
  exists s'. rewrite Hrun.
  rewrite (Hexc "FileNotFoundError"%string Reference.fresh); reflexivity.
Defined.

(** A MIDI file whose only note starts after the longest delta time the
    format can express: its buffer cannot be allocated. *)
Definition late_note : Midi.MidiFile :=
  {| Midi.ticks_per_beat := 384;
     Midi.tracks := [[Midi.note_on 60 100 0 268435455; Midi.note_off 60 0 0 384]] |}.

Definition quarter_c4 : list Score.component :=
  [Score.Note 60 {| Score.numerator := 1; Score.denominator := 4 |}].

(** Synthesis of the MIDI path raises MemoryError, and the render still
    succeeds, from the score. *)
Lemma C2_exception_then_success_counterexample :
  let H := Reference.machine Reference.silence (2 ^ 31) in
  let T := Reference.session (Ok late_note) in
  (exists s1,
     synthesize_midi H (Midi._extract_midi_notes (midi_file T)) "Piano" Reference.fresh
     = (Raise "MemoryError", s1))
  /\ exists d s',
       render_staff_to_midi H T quarter_c4 None 120 "Piano" Reference.fresh = (Ok d, s')
       /\ d !! "success"%string = Some (PyBool true).
Proof.
  cbv zeta. split; [eexists; vm_compute; reflexivity|].
  set (H := Reference.machine Reference.silence (2 ^ 31)).
  set (T := Reference.session (Ok late_note)).
  assert (Hd : _convert_midi_to_wav_direct H (midi_file T) "Piano" Reference.fresh
               = (Ok false, Reference.fresh)) by (vm_compute; reflexivity).
  destruct (fallback_ok H quarter_c4 120 "Piano" Reference.fresh) as (pcm & s' & Hf & Hw & _).
  - lia.
  - vm_compute. reflexivity.
  - split; apply Z.leb_le; vm_compute; reflexivity.
  - intros wn x Hx. apply Reference.padded_filter_ok. rewrite Hx.
    apply Nat.ltb_lt. vm_compute. reflexivity.
  - reflexivity.
  - assert (Hr : _convert_midi_to_wav_with_staff H (midi_file T) quarter_c4 120 "Piano"
                   Reference.fresh = (Ok (Some true), s')).
    { unfold _convert_midi_to_wav_with_staff, try_except, mbind, M_bind.
      rewrite Hd. rewrite Hf. reflexivity. }
    eexists _, s'. split.
    + apply (render_run H T quarter_c4 None 120 "Piano" Reference.fresh (Some true) s' ""
               eq_refl eq_refl Hr).
    + rewrite Hw. cbn [truthy default andb].
      rewrite bool_decide_eq_true_2 by eauto. apply success_result_success.
Qed.

(** ** C5: the reported duration *)

Lemma round_half_even_near (y : Q) :
  (- (1 # 2) <= inject_Z (round_half_even y) - y <= 1 # 2)%Q.
Proof.
  unfold round_half_even.
  pose proof (Qfloor_le y) as Hlo. pose proof (Qlt_floor y) as Hhi.
  rewrite inject_Z_plus in Hhi. change (inject_Z 1) with 1%Q in Hhi.
  set (f := Qfloor y) in *.
  assert (Hup : inject_Z (f + 1) = (inject_Z f + 1)%Q) by reflexivity || apply inject_Z_plus.
  destruct (Qlt_bool (y - inject_Z f) (1 # 2)) eqn:E1.
  - apply Qlt_bool_iff in E1. generalize dependent (inject_Z f). intros F; intros. lra.
  - apply Qlt_bool_false in E1.
    destruct (Qlt_bool (1 # 2) (y - inject_Z f)) eqn:E2.
    + apply Qlt_bool_iff in E2. rewrite inject_Z_plus. change (inject_Z 1) with 1%Q.
      generalize dependent (inject_Z f). intros F; intros. lra.
    + apply Qlt_bool_false in E2.
      destruct (Z.even f); [|rewrite inject_Z_plus; change (inject_Z 1) with 1%Q];
        generalize dependent (inject_Z f); intros F; intros; lra.
Qed.

(** Rounding to one decimal moves a value by at most 0.05. *)
Lemma py_round1_near (x : Q) : (Qabs (py_round1 x - x) <= 1 # 20)%Q.
Proof.
  unfold py_round1. apply Qabs_Qle_condition.
  pose proof (round_half_even_near (x * 10)) as [Hlo Hhi].
  generalize dependent (inject_Z (round_half_even (x * 10))). intros R Hlo Hhi.
  unfold Qdiv. change (/ 10)%Q with (1 # 10)%Q.
  split; lra.
Qed.

(** C5, as the code has it. The duration a successful render reports is
    read back from the WAV file just written: it is the double quotient of
    the number of frames written by the sample rate, rounded to one
    decimal, so it is within 0.05 s of that quotient, whatever duration
    was requested or estimated. *)
Theorem C5_reported_duration_is_rounded (H : host) (T : tools)
    (staff : list Score.component) (filename : option string) (tempo : Z)
    (instrument : string) (s : sys) (d : gmap string pyval) (s' : sys) :
  render_staff_to_midi H T staff filename tempo instrument s = (Ok d, s') ->
  d !! "success"%string = Some (PyBool true) ->
  exists pcm reported,
    wav_file s' = Some (Wav 1 2 sample_rate pcm)
    /\ d !! "duration"%string = Some (PyFloat reported)
    /\ reported
       = py_round1 (fl (inject_Z (Z.of_nat (length pcm)) / inject_Z sample_rate))
    /\ (Qabs (reported - fl (inject_Z (Z.of_nat (length pcm)) / inject_Z sample_rate))
        <= 1 # 20)%Q.
Proof.
  intros Hrun Hsucc.
  destruct (render_cases H T staff filename tempo instrument s) as (d0 & s0 & Hrun0 & Hd).
  rewrite Hrun in Hrun0. injection Hrun0 as <- <-.
  destruct Hd as [[-> (r & Hr & Ht & _)]|[Hnone _]]; [|congruence].
  destruct (with_staff_true_wav H _ _ _ _ _ _ _ Hr Ht) as [a Hw].
  exists (to_pcm16 a), (duration_in s').
  split; [exact Hw|]. split; [apply success_result_duration|].
  rewrite (duration_in_wav s' _ Hw). split; [reflexivity | apply py_round1_near].
Qed.

(** The quotient of a file of 28665 frames is the double just above 0.65,
    and the duration read from it is 0.7. *)
Lemma duration_of_28665_frames :
  (_get_wav_duration
     {| wav_file := Some (Wav 1 2 sample_rate (replicate (Z.to_nat 28665) 0));
        rng_pos := 0; stores := [] |}).1
  = Ok 0.7%Q.
Proof. vm_compute. reflexivity. Qed.

(** A quarter of a second of C4 in the MIDI file. *)
Definition short_c4 : Midi.MidiFile :=
  {| Midi.ticks_per_beat := 480;
     Midi.tracks := [[Midi.note_on 60 100 0 0; Midi.note_off 60 0 0 240]] |}.

Lemma short_c4_render :
  exists pcm s',
    render_staff_to_midi (Reference.machine Reference.silence (2 ^ 31))
      (Reference.session (Ok short_c4)) quarter_c4 None 120 "Piano" Reference.fresh
    = (Ok (success_result "/tmp/audio_0a1b2c3d.mid" "/tmp/audio_0a1b2c3d.wav" ""
             120 0.8 "Piano"), s')
    /\ wav_file s' = Some (Wav 1 2 sample_rate pcm)
    /\ Z.of_nat (length pcm) = 33075.
Proof.
  destruct (direct_render (Reference.machine Reference.silence (2 ^ 31))
              (Reference.session (Ok short_c4)) quarter_c4 None 120 "Piano"
              Reference.fresh "" 33075)
    as (pcm & s' & Hrun & Hw & Hlen).
  - reflexivity.
  - reflexivity.
  - vm_compute. discriminate.
  - vm_compute. repeat constructor; discriminate.
  - vm_compute. reflexivity.
  - split; apply Z.leb_le; vm_compute; reflexivity.
  - intros wn x Hx. apply Reference.padded_filter_ok. rewrite Hx.
    apply Nat.ltb_lt. vm_compute. reflexivity.
  - reflexivity.
  - exists pcm, s'. split; [|split; [exact Hw | rewrite Hlen; reflexivity]].
    rewrite Hrun. unfold base64_in. rewrite Hw. reflexivity.
Qed.

Lemma C5_reported_duration_witness :
  exists pcm s',
    wav_file s' = Some (Wav 1 2 sample_rate pcm)
    /\ (Qabs (0.8 - fl (inject_Z (Z.of_nat (length pcm)) / inject_Z sample_rate))
        <= 1 # 20)%Q.
Proof.
  destruct short_c4_render as (pcm0 & s' & Hrun & Hw0 & Hlen0).
  destruct (C5_reported_duration_is_rounded _ _ _ _ _ _ _ _ _ Hrun (success_result_success _ _ _ _ _ _))
    as (pcm & reported & Hw & Hd & _ & Hnear).
  rewrite success_result_duration in Hd. injection Hd as <-.
  exists pcm, s'. split; [exact Hw | exact Hnear].
Defined.

(** The file holds 33075 frames, 0.75 s, and the render reports 0.8 s. *)
Lemma C5_rounded_duration_counterexample :
  exists d pcm s',
    render_staff_to_midi (Reference.machine Reference.silence (2 ^ 31))
      (Reference.session (Ok short_c4)) quarter_c4 None 120 "Piano" Reference.fresh
    = (Ok d, s')
    /\ wav_file s' = Some (Wav 1 2 sample_rate pcm)
    /\ Z.of_nat (length pcm) = 33075
    /\ d !! "duration"%string = Some (PyFloat 0.8)
    /\ ~ (0.8 == inject_Z (Z.of_nat (length pcm)) / inject_Z sample_rate)%Q.
Proof.
  destruct short_c4_render as (pcm & s' & Hrun & Hw & Hlen).
  eexists _, pcm, s'. split; [exact Hrun|]. split; [exact Hw|]. split; [exact Hlen|].
  split; [apply success_result_duration|].
  rewrite Hlen. intros E. vm_compute in E. discriminate.
Qed.

(** ** C3: the placeholder event *)

Lemma simple_wav_returns H duration s :
  exists s', _create_simple_wav H duration s = (Ok tt, s').
Proof.
  unfold _create_simple_wav, try_except.
  match goal with |- context [match ?m s with _ => _ end] => destruct (m s) as [[[]|e] s'] end;
    eauto.
Qed.

(** A score that yields no entry: the placeholder tone is written, and the
    function gives [None]. *)
Lemma fallback_empty H staff tempo instrument s :
  Score._extract_notes_from_staff staff = [] ->
  exists s', _create_instrument_synthesis_fallback H staff tempo instrument s = (Ok None, s').
Proof.
  intros He. unfold _create_instrument_synthesis_fallback, try_except.
  rewrite He. rewrite bool_decide_eq_true_2 by reflexivity.
  unfold mbind, M_bind.
  destruct (simple_wav_returns H 2.0 s) as [s' ->]. eauto.
Qed.

Section Placeholder.
Context (H : host) (T : tools).
Context (staff : list Score.component) (filename : option string)
        (tempo : Z) (instrument : string).

Lemma placeholder_render s mid t' stderr :
  lilypond_run T = Ok (0, stderr) -> midi_exists T = true ->
  midi_file T = Ok mid ->
  Midi.on_tracks (Midi.ticks_per_beat mid) ([], 120%Q) (Midi.tracks mid) = Ok ([], t') ->
  66150 <= mem_limit H ->
  (forall wn x, Z.of_nat (length x) = 66150 -> exists y, butter_filtfilt H wn x = Ok y) ->
  wav_writable H = true ->
  Midi._extract_midi_notes (midi_file T) = [Midi.placeholder]
  /\ exists pcm s',
       render_staff_to_midi H T staff filename tempo instrument s
       = (Ok (success_result (midi_path T filename) (wav_path T filename)
                (base64_in H s') tempo 1.5 instrument), s')
       /\ wav_file s' = Some (Wav 1 2 sample_rate pcm)
       /\ Z.of_nat (length pcm) = 66150.
Proof.
  intros Hl Hm Hfile Hnone Hmem Hfilt Hw.
  assert (Hx : Midi._extract_midi_notes (midi_file T) = [Midi.placeholder]).
  { rewrite Hfile. unfold Midi._extract_midi_notes, Midi.extract_body. cbn.
    rewrite Hnone. reflexivity. }
  split; [exact Hx|].
  destruct (direct_render H T staff filename tempo instrument s stderr 66150 Hl Hm)
    as (pcm & s' & Hrun & Hwav & Hlen).
  - rewrite Hx. discriminate.
  - rewrite Hx. repeat constructor. vm_compute. discriminate.
  - rewrite Hx. vm_compute. reflexivity.
  - lia.
  - intros wn x Hlx. apply Hfilt. lia.
  - exact Hw.
  - exists pcm, s'. split; [exact Hrun|]. split; [exact Hwav | lia].
Qed.

End Placeholder.

(** C3, as the code has it. When the MIDI file is read to its end and holds
    no note-on of positive velocity, the extraction returns one
    placeholder event, middle C (60) at velocity 100, starting at 0 and
    lasting 1.0 s, whatever the score holds. The buffer then has 66150
    frames, the second of the note and the half second of tail; when it
    can be allocated, filtered and written, the result of the render has
    success true and reports a duration of 1.5 s. *)
Theorem C3_placeholder_for_empty_midi (H : host) (T : tools)
    (staff : list Score.component) (filename : option string) (tempo : Z)
    (instrument : string) (s : sys) (mid : Midi.MidiFile) (t' : Q) (stderr : string) :
  lilypond_run T = Ok (0, stderr) -> midi_exists T = true ->
  midi_file T = Ok mid ->
  Midi.on_tracks (Midi.ticks_per_beat mid) ([], 120%Q) (Midi.tracks mid) = Ok ([], t') ->
  66150 <= mem_limit H ->
  (forall wn x, Z.of_nat (length x) = 66150 -> exists y, butter_filtfilt H wn x = Ok y) ->
  wav_writable H = true ->
  Midi._extract_midi_notes (midi_file T) = [Midi.NoteData 60 100 0.0 1.0 0]
  /\ exists d s' pcm,
       render_staff_to_midi H T staff filename tempo instrument s = (Ok d, s')
       /\ d !! "success"%string = Some (PyBool true)
       /\ d !! "duration"%string = Some (PyFloat 1.5)
       /\ wav_file s' = Some (Wav 1 2 sample_rate pcm)
       /\ Z.of_nat (length pcm) = 66150.
Proof.
  intros Hl Hm Hfile Hnone Hmem Hfilt Hw.
  destruct (placeholder_render H T staff filename tempo instrument s mid t' stderr
              Hl Hm Hfile Hnone Hmem Hfilt Hw) as (Hx & pcm & s' & Hrun & Hwav & Hlen).
  split; [exact Hx|].
  eexists _, s', pcm. split; [exact Hrun|].
  split; [apply success_result_success|].
  split; [apply success_result_duration|].
  split; [exact Hwav | exact Hlen].
Qed.

(** What LilyPond writes for a score without notes: a track of meta
    messages. *)
Definition no_notes : Midi.MidiFile :=
  {| Midi.ticks_per_beat := 384;
     Midi.tracks := [[Midi.set_tempo 500000 0; Midi.other_message 0]] |}.

Lemma filter_accepts_66150 wn (x : list Q) :
  Z.of_nat (length x) = 66150 -> exists y, Reference.padded_filter wn x = Ok y.
Proof. intros Hx. apply Reference.padded_filter_ok. lia. Qed.

Lemma C3_placeholder_witness :
  exists d s',
    render_staff_to_midi (Reference.machine Reference.silence (2 ^ 31))
      (Reference.session (Ok no_notes)) [] None 120 "Piano" Reference.fresh = (Ok d, s')
    /\ d !! "success"%string = Some (PyBool true)
    /\ d !! "duration"%string = Some (PyFloat 1.5).
Proof.
  destruct (C3_placeholder_for_empty_midi (Reference.machine Reference.silence (2 ^ 31))
              (Reference.session (Ok no_notes)) [] None 120 "Piano" Reference.fresh
              no_notes (60000000 # 500000)%Q "")
    as (_ & d & s' & pcm & Hrun & Hs & Hd & _).
  - reflexivity.
  - reflexivity.
  - reflexivity.
  - vm_compute. reflexivity.
  - apply Z.leb_le. vm_compute. reflexivity.
  - apply filter_accepts_66150.
  - reflexivity.
  - exists d, s'. split; [exact Hrun | split; [exact Hs | exact Hd]].
Defined.

(** An empty score. With a MIDI file without notes the render succeeds
    and reports 1.5 s, half a second more than the placeholder lasts;
    with a MIDI file that cannot be read both extractions yield no event,
    no placeholder event is made and the render fails. *)
Lemma C3_empty_score_counterexample :
  (exists d s',
     render_staff_to_midi (Reference.machine Reference.silence (2 ^ 31))
       (Reference.session (Ok no_notes)) [] None 120 "Piano" Reference.fresh = (Ok d, s')
     /\ d !! "duration"%string = Some (PyFloat 1.5)
     /\ (1.5 - 1.0 == 0.5)%Q)
  /\ Midi._extract_midi_notes (Raise "OSError") = []
  /\ Score._extract_notes_from_staff [] = []
  /\ exists s',
       render_staff_to_midi (Reference.machine Reference.silence (2 ^ 31))
         (Reference.session (Raise "OSError")) [] None 120 "Piano" Reference.fresh
       = (Ok {["error"%string := PyStr "Failed to convert MIDI to WAV"]}, s').
Proof.
  split; [|split; [reflexivity|split; [reflexivity|]]].
  - destruct (placeholder_render (Reference.machine Reference.silence (2 ^ 31))
                (Reference.session (Ok no_notes)) [] None 120 "Piano" Reference.fresh
                no_notes (60000000 # 500000)%Q "")
      as (_ & pcm & s' & Hrun & _).
    + reflexivity.
    + reflexivity.
    + reflexivity.
    + vm_compute. reflexivity.
    + apply Z.leb_le. vm_compute. reflexivity.
    + apply filter_accepts_66150.
    + reflexivity.
    + eexists _, s'. split; [exact Hrun|].
      split; [apply success_result_duration | reflexivity].
  - set (H := Reference.machine Reference.silence (2 ^ 31)).
    set (T := Reference.session (Raise "OSError")).
    destruct (fallback_empty H [] 120 "Piano" Reference.fresh eq_refl) as [s' Hf].
    exists s'.
    assert (Hr : _convert_midi_to_wav_with_staff H (midi_file T) [] 120 "Piano"
                   Reference.fresh = (Ok None, s')).
    { assert (Hd : _convert_midi_to_wav_direct H (midi_file T) "Piano" Reference.fresh
                   = (Ok false, Reference.fresh)) by (vm_compute; reflexivity).
      unfold _convert_midi_to_wav_with_staff, try_except, mbind, M_bind.
      rewrite Hd. rewrite Hf. reflexivity. }
    rewrite (render_run H T [] None 120 "Piano" Reference.fresh None s' "" eq_refl eq_refl Hr).
    reflexivity.
Qed.

(** ** C7: the bounds test of the frame loops *)

Lemma note_start_nonneg (n : Midi.note_data) :
  (0 <= Midi.start_time n)%Q -> 0 <= note_start n.
Proof. intros Hs. apply py_int_0_le, Qmult_sample_rate_nonneg, Hs. Qed.

(** ** Extracted events start at or after 0 *)

Section StartTimes.
Import Midi.
Context (tpb : Z).
Hypothesis tpb_pos : 0 < tpb.

(** A message as a MIDI file holds it: a delta time that is not negative,
    a tempo that is positive. *)
Definition well_timed (msg : message) : Prop :=
  0 <= time msg
  /\ match msg with
     | set_tempo t _ => 0 < t
     | _ => True
     end.

Definition times_ok (v : vars) : Prop :=
  (0 < tempo v)%Q /\ (0 <= track_time v)%Q
  /\ Forall (fun n => (0 <= start_time n)%Q) (notes v).

Lemma py_div_pos x y : (0 < y)%Q -> py_div x y = Ok (x / y)%Q.
Proof.
  intros Hy. unfold py_div. destruct (Qeq_bool y 0) eqn:E; [|reflexivity].
  apply Qeq_bool_iff in E. rewrite E in Hy. destruct (Qlt_irrefl 0 Hy).
Qed.

Lemma close_note_times n v : times_ok v -> times_ok (close_note n v).
Proof.
  intros (Ht & Htt & Hn). unfold close_note.
  destruct (active_notes v !! n) as [idx|]; [|repeat split; assumption].
  split; [exact Ht|]. split; [exact Htt|]. cbn.
  apply Forall_alter; [exact Hn|]. intros nd _ Hnd. exact Hnd.
Qed.

Lemma on_message_times v msg v' :
  well_timed msg -> on_message tpb v msg = Ok v' -> times_ok v -> times_ok v'.
Proof.
  intros [Htime Hmsg] Hstep (Ht & Htt & Hn). unfold on_message in Hstep.
  assert (Htpb : (0 < inject_Z tpb)%Q) by (unfold Qlt; simpl; lia).
  rewrite (py_div_pos _ _ Htpb), (py_div_pos _ _ Ht) in Hstep. cbn in Hstep.
  set (t := (track_time v + inject_Z (time msg) / inject_Z tpb * (60.0 / tempo v))%Q) in *.
  assert (Ht0 : (0 <= t)%Q).
  { unfold t. rewrite <- (Qplus_0_r 0) at 1. apply Qplus_le_compat; [exact Htt|].
    apply Qmult_le_0_compat.
    - apply Qdiv_sign_pos; [unfold Qle; simpl; lia | exact Htpb].
    - apply Qdiv_sign_pos; [unfold Qle; simpl; lia | exact Ht]. }
  assert (Hv : times_ok (Vars (notes v) (tempo v) t (active_notes v))).
  { repeat split; assumption. }
  destruct msg as [n vel ch tm|n vel ch tm|tmp tm|tm].
  - destruct (0 <? vel).
    + injection Hstep as <-. split; [exact Ht|]. split; [exact Ht0|]. cbn.
      apply Forall_app. split; [exact Hn|]. repeat constructor. exact Ht0.
    + destruct (vel =? 0); injection Hstep as <-;
        [apply close_note_times; exact Hv | exact Hv].
  - injection Hstep as <-. apply close_note_times. exact Hv.
  - unfold tempo2bpm in Hstep.
    assert (Htmp : (0 < inject_Z tmp)%Q) by (unfold Qlt; simpl; lia).
    rewrite (py_div_pos _ _ Htmp) in Hstep. cbn in Hstep. injection Hstep as <-.
    split; [|split; [exact Ht0 | exact Hn]]. cbn.
    apply Qlt_shift_div_l; [exact Htmp|]. rewrite Qmult_0_l. reflexivity.
  - injection Hstep as <-. exact Hv.
Qed.

Lemma on_messages_times track : forall v v',
  Forall well_timed track -> on_messages tpb v track = Ok v' -> times_ok v -> times_ok v'.
Proof.
  induction track as [|msg track IH]; intros v v' Hw Hrun Hv.
  - injection Hrun as <-. exact Hv.
  - apply Forall_cons in Hw as [Hm Hw]. cbn in Hrun.
    destruct (on_message tpb v msg) as [v1|] eqn:E1; [|discriminate]. cbn in Hrun.
    exact (IH v1 v' Hw Hrun (on_message_times v msg v1 Hm E1 Hv)).
Qed.

Lemma on_tracks_times trks : forall nt nt',
  Forall (Forall well_timed) trks -> on_tracks tpb nt trks = Ok nt' ->
  (0 < nt.2)%Q -> Forall (fun n => (0 <= start_time n)%Q) nt.1 ->
  (0 < nt'.2)%Q /\ Forall (fun n => (0 <= start_time n)%Q) nt'.1.
Proof.
  induction trks as [|track trks IH]; intros nt nt' Hw Hrun Ht Hn.
  - injection Hrun as <-. split; assumption.
  - apply Forall_cons in Hw as [Hm Hw]. cbn in Hrun. unfold on_track in Hrun.
    destruct (on_messages tpb (Vars nt.1 nt.2 0.0 ∅) track) as [v|] eqn:Ev; [|discriminate].
    cbn in Hrun.
    destruct (on_messages_times track _ v Hm Ev) as (Htv & _ & Hnv).
    { split; [exact Ht|]. split; [unfold Qle; simpl; lia | exact Hn]. }
    exact (IH (notes v, tempo v) nt' Hw Hrun Htv Hnv).
Qed.

End StartTimes.

(** Every event extracted from a MIDI file of positive resolution whose
    messages are well timed starts at or after 0. *)
Lemma extract_start_nonneg (mid : Midi.MidiFile) :
  0 < Midi.ticks_per_beat mid ->
  Forall (Forall well_timed) (Midi.tracks mid) ->
  Forall (fun n => (0 <= Midi.start_time n)%Q) (Midi._extract_midi_notes (Ok mid)).
Proof.
  intros Htpb Hw. unfold Midi._extract_midi_notes. cbn. unfold Midi.extract_body.
  destruct (Midi.on_tracks (Midi.ticks_per_beat mid) ([], 120%Q) (Midi.tracks mid))
    as [nt|] eqn:E; cbn; [|constructor].
  destruct (on_tracks_times _ Htpb _ _ nt Hw E) as [_ Hn].
  - reflexivity.
  - constructor.
  - destruct (bool_decide (nt.1 = [])); [|exact Hn].
    apply Forall_app. split; [exact Hn|]. repeat constructor. cbn. unfold Qle; simpl; lia.
Qed.

(** C7. In both synthesis loops the index is tested against the end of
    the buffer before the store. For a note that starts at or after time
    0 and a buffer of [total_frames] cells, the loop of the MIDI path
    returns normally, leaves the length of the buffer as it was, and the
    indices it stores to are consecutive frames from the first frame of
    the note on, no further than the end of the note and the end of the
    buffer, all of them within the buffer; the frames past the end are
    dropped without an error. The same holds for the loop of the score
    path, from a cursor at or after frame 0. So the synthesis of the
    events extracted from a well-timed MIDI file, and that of the entries
    extracted from a score, return normally once the buffer is allocated,
    and every index they store to lies within the buffer. *)
Theorem C7_stores_are_in_bounds (H : host) (total_frames : Z) (s : sys) :
  (forall (p : params) (a : list Q) (n : Midi.note_data),
     (0 <= Midi.start_time n)%Q -> Z.of_nat (length a) = total_frames ->
     exists a' w,
       midi_note_loop H p total_frames a n s
       = (Ok a', {| wav_file := wav_file s;
                    rng_pos := rng_pos s + Z.to_nat w;
                    stores := stores s ++ seqZ (note_start n) w |})
       /\ length a' = length a
       /\ 0 <= w <= Z.max 0 (note_frames n)
       /\ note_start n + w <= Z.max (note_start n) total_frames
       /\ Forall (fun k => 0 <= k < total_frames) (seqZ (note_start n) w))
  /\ (forall (instrument : string) (beats_per_second : Q) (c : cursor)
        (ni : Score.note_info),
        ~ (beats_per_second == 0)%Q -> well_formed ni ->
        0 <= current_frame c -> Z.of_nat (length (audio_data c)) = total_frames ->
        exists c' w,
          score_note_loop H instrument beats_per_second total_frames c ni s
          = (Ok c', {| wav_file := wav_file s;
                       rng_pos := rng_pos s + Z.to_nat w;
                       stores := stores s ++ seqZ (current_frame c) w |})
          /\ length (audio_data c') = length (audio_data c)
          /\ 0 <= w <= Z.max 0 (info_frames beats_per_second ni)
          /\ current_frame c + w <= Z.max (current_frame c) total_frames
          /\ Forall (fun k => 0 <= k < total_frames) (seqZ (current_frame c) w))
  /\ (forall (mid : Midi.MidiFile) (instrument : string),
        0 < Midi.ticks_per_beat mid -> Forall (Forall well_timed) (Midi.tracks mid) ->
        midi_total_frames (Midi._extract_midi_notes (Ok mid)) = Ok total_frames ->
        0 <= total_frames <= mem_limit H ->
        exists a new,
          synthesize_midi H (Midi._extract_midi_notes (Ok mid)) instrument s
          = (Ok a, {| wav_file := wav_file s;
                      rng_pos := rng_pos s + length new;
                      stores := stores s ++ new |})
          /\ Forall (fun k => 0 <= k < total_frames) new)
  /\ (forall (staff : list Score.component) (tempo : Z) (instrument : string),
        tempo <> 0 ->
        score_total_frames tempo
          (py_sum (map Score.duration (Score._extract_notes_from_staff staff)))
        = total_frames ->
        0 <= total_frames <= mem_limit H ->
        exists c new,
          synthesize_score H (Score._extract_notes_from_staff staff) tempo
            (py_sum (map Score.duration (Score._extract_notes_from_staff staff)))
            instrument s
          = (Ok c, {| wav_file := wav_file s;
                      rng_pos := rng_pos s + length new;
                      stores := stores s ++ new |})
          /\ Forall (fun k => 0 <= k < total_frames) new).
Proof.
  split; [|split; [|split]].
  - intros p a n Hst Hlen.
    pose proof (note_start_nonneg n Hst) as Hs.
    exists (note_buffer H p total_frames a n (rng_pos s)), (note_written total_frames n).
    split; [apply midi_note_loop_run; assumption|].
    split; [apply note_buffer_length|].
    assert (Hw : 0 <= note_written total_frames n <= Z.max 0 (note_frames n)
                 /\ note_start n + note_written total_frames n
                    <= Z.max (note_start n) total_frames).
    { unfold note_written, written. destruct (Midi.velocity n =? 0); lia. }
    split; [apply Hw|]. split; [apply Hw|].
    apply Forall_seqZ. intros k Hk. lia.
  - intros instrument bps c ni Hbps Hwf Hcur Hlen.
    exists (info_cursor H instrument bps total_frames c ni (rng_pos s)),
           (info_written bps total_frames c ni).
    split; [apply score_note_loop_run; auto|].
    assert (Hw : 0 <= info_written bps total_frames c ni <= Z.max 0 (info_frames bps ni)
                 /\ current_frame c + info_written bps total_frames c ni
                    <= Z.max (current_frame c) total_frames).
    { unfold info_written, written. destruct (Score.type ni); lia. }
    split.
    { unfold info_cursor. destruct (Score.type ni); cbn [audio_data]; try reflexivity;
        apply frames_of_length, iset_length. }
    split; [apply Hw|]. split; [apply Hw|].
    apply Forall_seqZ. intros k Hk. lia.
  - intros mid instrument Htpb Hw Ht Hmem.
    assert (Hst : Forall (fun n => 0 <= note_start n) (Midi._extract_midi_notes (Ok mid))).
    { eapply Forall_impl; [exact (extract_start_nonneg mid Htpb Hw)|].
      intros n. apply note_start_nonneg. }
    destruct (synthesize_midi_run H _ instrument s total_frames Hst Ht Hmem)
      as (a & new & Hrun & _ & Hin & _).
    exists a, new. split; [exact Hrun | exact Hin].
  - intros staff tempo instrument Ht Htot Hmem. rewrite <- Htot in Hmem.
    destruct (synthesize_score_run H _ tempo _ instrument s Ht (extract_well_formed staff) Hmem)
      as (c & new & Hrun & _ & _ & Hin & _).
    exists c, new. split; [exact Hrun|]. rewrite <- Htot. exact Hin.
Qed.

(** A note of half a second that starts 0.9 s into a buffer of one second:
    no more than the 4410 frames that fit are stored. A 64th note at
    120 BPM, 1378 frames, into a buffer of 1000. And the two whole
    syntheses, of a quarter of a second of C4 from a MIDI file and of a
    quarter note C4 from a score. *)
Lemma C7_stores_in_bounds_witness :
  (exists a' w,
     midi_note_loop (Reference.machine Reference.silence (2 ^ 31)) piano 44100
       (replicate (Z.to_nat 44100) 0%Q) (Midi.NoteData 60 100 0.9 0.5 0) Reference.fresh
     = (Ok a', {| wav_file := None; rng_pos := Z.to_nat w; stores := seqZ 39690 w |})
     /\ w <= 4410)
  /\ (exists c' w,
        score_note_loop (Reference.machine Reference.silence (2 ^ 31)) "Piano"
          (beats_per_second_of 120) 1000
          (Cursor (replicate (Z.to_nat 1000) 0%Q) 0 None)
          (Score.NoteInfo (Some 60)
             (Score.beats {| Score.numerator := 1; Score.denominator := 64 |}) Score.note)
          Reference.fresh
        = (Ok c', {| wav_file := None; rng_pos := Z.to_nat w; stores := seqZ 0 w |})
        /\ w <= 1000)
  /\ (exists a new,
        synthesize_midi (Reference.machine Reference.silence (2 ^ 31))
          (Midi._extract_midi_notes (Ok short_c4)) "Piano" Reference.fresh
        = (Ok a, {| wav_file := None; rng_pos := length new; stores := new |})
        /\ Forall (fun k => 0 <= k < 33075) new)
  /\ (exists c new,
        synthesize_score (Reference.machine Reference.silence (2 ^ 31))
          (Score._extract_notes_from_staff quarter_c4) 120
          (py_sum (map Score.duration (Score._extract_notes_from_staff quarter_c4)))
          "Piano" Reference.fresh
        = (Ok c, {| wav_file := None; rng_pos := length new; stores := new |})
        /\ Forall (fun k => 0 <= k < 22050) new).
Proof.
  destruct (C7_stores_are_in_bounds (Reference.machine Reference.silence (2 ^ 31)) 44100
              Reference.fresh) as [Hmidi _].
  destruct (C7_stores_are_in_bounds (Reference.machine Reference.silence (2 ^ 31)) 1000
              Reference.fresh) as [_ [Hscore _]].
  destruct (C7_stores_are_in_bounds (Reference.machine Reference.silence (2 ^ 31)) 33075
              Reference.fresh) as [_ [_ [Hfile _]]].
  destruct (C7_stores_are_in_bounds (Reference.machine Reference.silence (2 ^ 31)) 22050
              Reference.fresh) as [_ [_ [_ Hstaff]]].
  split; [|split; [|split]].
  - destruct (Hmidi piano (replicate (Z.to_nat 44100) 0%Q) (Midi.NoteData 60 100 0.9 0.5 0))
      as (a' & w & Hrun & _ & _ & Hend & _).
    + vm_compute. discriminate.
    + rewrite length_replicate. lia.
    + exists a', w. split; [exact Hrun|].
      change (note_start (Midi.NoteData 60 100 0.9 0.5 0)) with 39690 in Hend. lia.
  - destruct (Hscore "Piano"%string (beats_per_second_of 120)
                (Cursor (replicate (Z.to_nat 1000) 0%Q) 0 None)
                (Score.NoteInfo (Some 60)
                   (Score.beats {| Score.numerator := 1; Score.denominator := 64 |})
                   Score.note))
      as (c' & w & Hrun & _ & _ & Hend & _).
    + apply beats_per_second_of_nonzero. lia.
    + split; [vm_compute; discriminate | intros _; eexists; reflexivity].
    + cbn. lia.
    + cbn [audio_data]. rewrite length_replicate. lia.
    + exists c', w. split; [exact Hrun|]. cbn [current_frame] in Hend. lia.
  - destruct (Hfile short_c4 "Piano"%string) as (a & new & Hrun & Hin).
    + cbn. lia.
    + repeat constructor; cbn; lia.
    + vm_compute. reflexivity.
    + split; apply Z.leb_le; vm_compute; reflexivity.
    + exists a, new. split; [exact Hrun | exact Hin].
  - destruct (Hstaff quarter_c4 120 "Piano"%string) as (c & new & Hrun & Hin).
    + lia.
    + vm_compute. reflexivity.
    + split; apply Z.leb_le; vm_compute; reflexivity.
    + exists c, new. split; [exact Hrun | exact Hin].
Defined.

(** ** C6: accumulation and the order of the events *)

Lemma fold_max_spec rest : forall x,
  let m := fold_left (fun m y => if Qlt_bool m y then y else m) rest x in
  m ∈ x :: rest /\ (x <= m)%Q /\ Forall (fun y => (y <= m)%Q) rest.
Proof.
  induction rest as [|y rest IH]; intros x; cbn.
  - split; [left|]. split; [apply Qle_refl | constructor].
  - destruct (Qlt_bool x y) eqn:E.
    + apply Qlt_bool_iff in E. destruct (IH y) as (Hin & Hle & Hall).
      split; [right; exact Hin|]. split; [|constructor; assumption].
      apply Qle_trans with y; [apply Qlt_le_weak, E | exact Hle].
    + apply Qlt_bool_false in E. destruct (IH x) as (Hin & Hle & Hall).
      split.
      * apply elem_of_cons in Hin as [->|Hin]; [left | right; right; exact Hin].
      * split; [exact Hle|]. constructor; [|exact Hall].
        apply Qle_trans with x; assumption.
Qed.

Lemma py_max_spec xs m :
  py_max xs = Ok m -> m ∈ xs /\ Forall (fun y => (y <= m)%Q) xs.
Proof.
  destruct xs as [|x rest]; [discriminate|]. cbn. intros E. injection E as <-.
  destruct (fold_max_spec rest x) as (Hin & Hle & Hall).
  split; [exact Hin | constructor; assumption].
Qed.

Lemma py_max_perm xs ys m :
  Permutation xs ys -> py_max xs = Ok m ->
  exists m', py_max ys = Ok m' /\ (m == m')%Q.
Proof.
  intros Hp Hm. destruct ys as [|y ys'].
  - apply Permutation_nil_r in Hp. subst xs. discriminate.
  - destruct (py_max (y :: ys')) as [m'|] eqn:E; [|discriminate].
    exists m'. split; [reflexivity|].
    destruct (py_max_spec _ _ Hm) as [Hin Hall].
    destruct (py_max_spec _ _ E) as [Hin' Hall'].
    rewrite Forall_forall in Hall, Hall'.
    apply Qle_antisym.
    + apply Hall'. rewrite <- Hp. exact Hin.
    + apply Hall. rewrite Hp. exact Hin'.
Qed.

Lemma midi_total_frames_perm notes notes' total :
  Permutation notes notes' ->
  midi_total_frames notes = Ok total -> midi_total_frames notes' = Ok total.
Proof.
  intros Hp. unfold midi_total_frames.
  destruct (py_max (map (fun n => (Midi.start_time n + Midi.duration n)%Q) notes))
    as [m|] eqn:Em; [|discriminate].
  destruct (py_max_perm _ _ m (Permutation_map _ Hp) Em) as (m' & -> & Hq).
  cbn. intros E. injection E as <-. f_equal.
  apply py_int_comp. rewrite Hq. reflexivity.
Qed.

Lemma sumQ_perm xs ys : Permutation xs ys -> (sumQ xs == sumQ ys)%Q.
Proof.
  induction 1 as [|x xs ys _ IH|x y xs|xs ys zs _ IH1 _ IH2]; cbn.
  - reflexivity.
  - rewrite IH. reflexivity.
  - ring.
  - rewrite IH1. exact IH2.
Qed.

Lemma fold_left_Qplus xs : forall a, (fold_left Qplus xs a == a + sumQ xs)%Q.
Proof.
  induction xs as [|x xs IH]; intros a.
  - cbn. ring.
  - cbn [fold_left]. change (sumQ (x :: xs)) with (x + sumQ xs)%Q.
    rewrite IH. ring.
Qed.

Lemma Forall2_Qeq_cells (a b : list Q) :
  length a = length b -> (forall j, (a !!! j == b !!! j)%Q) -> Forall2 Qeq a b.
Proof.
  intros Hl Hc. apply Forall2_same_length_lookup_2; [exact Hl|].
  intros i x y Hx Hy.
  rewrite <- (list_lookup_total_correct a i x Hx), <- (list_lookup_total_correct b i y Hy).
  apply Hc.
Qed.

Lemma np_zeros_cases H n :
  (0 <= n <= mem_limit H) \/ exists e, np_zeros H n = Raise e.
Proof.
  unfold np_zeros. destruct (n <? 0) eqn:E1; [right; eauto|].
  destruct (mem_limit H <? n) eqn:E2; [right; eauto|].
  apply Z.ltb_ge in E1, E2. left. lia.
Qed.

(** *** The samples of the MIDI path, noise included *)

Section Superposition.
Context (H : host) (p : params) (total_frames : Z).
Import Midi.

(** What the note adds to cell [j] when the generator stands at [pos] as
    the note is entered: the store to frame [j] is the note's
    [j - start_frame]-th and takes the draw that many places on. *)
Definition sample (n : note_data) (pos j : nat) : Q :=
  if velocity n =? 0 then 0%Q
  else if in_window (note_start n) total_frames (Z.to_nat (note_frames n)) 0 j
  then ((tone_midi H p (midi_to_freq H (note n))
           (inject_Z (Z.of_nat j) / inject_Z sample_rate) (note_gain n)
         + (0 + noise_level p * gauss H (pos + Z.to_nat (Z.of_nat j - note_start n))))
        * env_val p (note_frames n) (Z.of_nat j - note_start n) * overall_amplitude p)%Q
  else 0%Q.

(** The part of it that comes from the draw. *)
Definition noise_part (n : note_data) (pos j : nat) : Q :=
  if velocity n =? 0 then 0%Q
  else if in_window (note_start n) total_frames (Z.to_nat (note_frames n)) 0 j
  then (noise_level p * gauss H (pos + Z.to_nat (Z.of_nat j - note_start n))
        * env_val p (note_frames n) (Z.of_nat j - note_start n) * overall_amplitude p)%Q
  else 0%Q.

(** [f] of each note and of the place of the generator as the note is
    entered, first note first; a note moves the generator by one draw for
    each frame it writes. *)
Fixpoint in_turn (f : note_data -> nat -> Q) (notes : list note_data) (pos : nat) : list Q :=
  match notes with
  | [] => []
  | n :: rest => f n pos :: in_turn f rest (pos + Z.to_nat (note_written total_frames n))
  end.

Lemma note_buffer_sample a n pos j :
  0 <= note_start n -> Z.of_nat (length a) = total_frames ->
  (note_buffer H p total_frames a n pos !!! j == a !!! j + sample n pos j)%Q.
Proof.
  intros Hs Hlen. unfold note_buffer, sample.
  destruct (velocity n =? 0); [ring|].
  rewrite frames_of_iadd_cell by lia.
  destruct (in_window _ _ _ _ _) eqn:Ew; [|reflexivity].
  unfold cell_val, midi_val.
  replace (note_start n + (Z.of_nat j - note_start n)) with (Z.of_nat j) by lia.
  rewrite Z.sub_0_r. reflexivity.
Qed.

Lemma sample_parts n pos j :
  (sample n pos j == contribution H p total_frames n j + noise_part n pos j)%Q.
Proof.
  unfold sample, contribution, noise_part.
  destruct (velocity n =? 0); [ring|].
  destruct (in_window _ _ _ _ _); ring.
Qed.

Lemma fold_left_Qplus_comp xs : forall a b,
  (a == b)%Q -> (fold_left Qplus xs a == fold_left Qplus xs b)%Q.
Proof.
  induction xs as [|x xs IH]; intros a b E; cbn [fold_left]; [exact E|].
  apply IH. rewrite E. reflexivity.
Qed.

(** Every cell ends as what it held plus the samples of the notes, added
    in the order of the notes. *)
Lemma for_each_notes_cells notes : forall a s a' s',
  Forall (fun n => 0 <= note_start n) notes -> Z.of_nat (length a) = total_frames ->
  for_each (midi_note_loop H p total_frames) notes a s = (Ok a', s') ->
  forall j,
    (a' !!! j
     == fold_left Qplus (in_turn (fun n pos => sample n pos j) notes (rng_pos s)) (a !!! j))%Q.
Proof.
  induction notes as [|n notes IH]; intros a s a' s' Hst Hlen Hrun j.
  - cbn in Hrun. injection Hrun as <- <-. reflexivity.
  - apply Forall_cons in Hst as [Hn Hrest].
    cbn [for_each] in Hrun. unfold mbind, M_bind in Hrun.
    rewrite midi_note_loop_run in Hrun by assumption.
    rewrite (IH _ _ a' s' Hrest (eq_trans (f_equal Z.of_nat (note_buffer_length H p total_frames a n (rng_pos s))) Hlen) Hrun j).
    cbn [in_turn fold_left advance rng_pos].
    apply fold_left_Qplus_comp. apply note_buffer_sample; assumption.
Qed.

Lemma in_turn_parts notes j : forall pos,
  (sumQ (in_turn (fun n pos => sample n pos j) notes pos)
   == sumQ (map (fun n => contribution H p total_frames n j) notes)
      + sumQ (in_turn (fun n pos => noise_part n pos j) notes pos))%Q.
Proof.
  induction notes as [|n notes IH]; intros pos.
  - cbn. ring.
  - cbn [in_turn map].
    change (sumQ (?x :: ?xs)) with (x + sumQ xs)%Q.
    rewrite IH, sample_parts. ring.
Qed.

End Superposition.

(** The buffer of the MIDI path before filtering. *)
Lemma synthesize_midi_cells H notes instrument s total_frames :
  Forall (fun n => 0 <= note_start n) notes ->
  midi_total_frames notes = Ok total_frames ->
  0 <= total_frames <= mem_limit H ->
  exists a s1,
    synthesize_midi H notes instrument s = (Ok a, s1)
    /\ length a = Z.to_nat total_frames
    /\ forall j,
         (a !!! j
          == fold_left Qplus
               (in_turn total_frames
                  (fun n pos => sample H (_get_instrument_parameters instrument)
                                  total_frames n pos j) notes (rng_pos s)) 0)%Q.
Proof.
  intros Hst Htot Hmem.
  assert (Hlen : Z.of_nat (length (replicate (Z.to_nat total_frames) 0%Q)) = total_frames).
  { rewrite length_replicate. lia. }
  destruct (for_each_notes_run H (_get_instrument_parameters instrument) total_frames
              notes (replicate (Z.to_nat total_frames) 0%Q) s Hst Hlen)
    as (a & new & Hrun & Hl & _ & _).
  exists a. eexists. unfold synthesize_midi.
  rewrite Htot. unfold mbind, M_bind, lift. cbn beta iota.
  rewrite (np_zeros_ok H total_frames Hmem). rewrite Hrun.
  split; [reflexivity|]. split; [rewrite Hl; apply length_replicate|].
  intros j.
  rewrite (for_each_notes_cells H _ total_frames notes _ s a _ Hst Hlen Hrun j).
  rewrite replicate_total_0. reflexivity.
Qed.

(** The noise in cell [j] after the [notes], the generator standing at
    [pos] before the first. *)
Definition noise_in (H : host) (p : params) (total_frames : Z)
    (notes : list Midi.note_data) (pos j : nat) : Q :=
  sumQ (in_turn total_frames (fun n pos => noise_part H p total_frames n pos j) notes pos).

(** Two runs leave the same samples once the noise of each is taken off,
    or both raise. *)
Definition same_but_noise (noise1 noise2 : nat -> Q) (o1 o2 : outcome (list Q)) : Prop :=
  match o1, o2 with
  | Ok a, Ok b => length a = length b /\ forall j, (a !!! j - noise1 j == b !!! j - noise2 j)%Q
  | Raise _, Raise _ => True
  | _, _ => False
  end.

Lemma synthesize_midi_tonal H notes instrument s total_frames a s1 j :
  Forall (fun n => 0 <= note_start n) notes ->
  midi_total_frames notes = Ok total_frames ->
  synthesize_midi H notes instrument s = (Ok a, s1) ->
  (a !!! j
   == sumQ (map (fun n => contribution H (_get_instrument_parameters instrument)
                            total_frames n j) notes)
      + noise_in H (_get_instrument_parameters instrument) total_frames notes (rng_pos s) j)%Q.
Proof.
  intros Hst Htot Hrun.
  destruct (np_zeros_cases H total_frames) as [Hmem|[e He]].
  - destruct (synthesize_midi_cells H notes instrument s total_frames Hst Htot Hmem)
      as (a0 & s0 & Hrun0 & _ & Hc).
    rewrite Hrun in Hrun0. injection Hrun0 as <- <-.
    rewrite (Hc j), fold_left_Qplus, in_turn_parts. unfold noise_in. ring.
  - unfold synthesize_midi, mbind, M_bind, lift in Hrun.
    rewrite Htot, He in Hrun. discriminate.
Qed.

Lemma synthesize_midi_order H notes notes' instrument s s' total_frames :
  Forall (fun n => (0 <= Midi.start_time n)%Q) notes ->
  Permutation notes notes' ->
  midi_total_frames notes = Ok total_frames ->
  midi_total_frames notes' = Ok total_frames
  /\ same_but_noise
       (noise_in H (_get_instrument_parameters instrument) total_frames notes (rng_pos s))
       (noise_in H (_get_instrument_parameters instrument) total_frames notes' (rng_pos s'))
       (synthesize_midi H notes instrument s).1
       (synthesize_midi H notes' instrument s').1.
Proof.
  intros Hst Hp Et.
  assert (Hst1 : Forall (fun n => 0 <= note_start n) notes).
  { eapply Forall_impl; [exact Hst|]. intros n. apply note_start_nonneg. }
  assert (Hst2 : Forall (fun n => 0 <= note_start n) notes').
  { rewrite <- Hp. exact Hst1. }
  pose proof (midi_total_frames_perm _ _ _ Hp Et) as Et'.
  split; [exact Et'|].
  destruct (np_zeros_cases H total_frames) as [Hmem|[e He]].
  - destruct (synthesize_midi_cells H notes instrument s total_frames Hst1 Et Hmem)
      as (a & s1 & Hrun & Hl & _).
    destruct (synthesize_midi_cells H notes' instrument s' total_frames Hst2 Et' Hmem)
      as (b & s1' & Hrun' & Hl' & _).
    rewrite Hrun, Hrun'. cbn [fst same_but_noise].
    split; [congruence|]. intros j.
    rewrite (synthesize_midi_tonal H notes instrument s total_frames a s1 j Hst1 Et Hrun).
    rewrite (synthesize_midi_tonal H notes' instrument s' total_frames b s1' j Hst2 Et' Hrun').
    assert (Hsum : (sumQ (map (fun n => contribution H (_get_instrument_parameters instrument)
                                          total_frames n j) notes)
                    == sumQ (map (fun n => contribution H (_get_instrument_parameters instrument)
                                          total_frames n j) notes'))%Q).
    { apply sumQ_perm, Permutation_map, Hp. }
    rewrite Hsum. ring.
  - unfold synthesize_midi, mbind, M_bind, lift. rewrite Et, Et', He. exact I.
Qed.

Lemma synthesize_score_stores H staff tempo instrument s c s1 :
  synthesize_score H (Score._extract_notes_from_staff staff) tempo
    (py_sum (map Score.duration (Score._extract_notes_from_staff staff))) instrument s
  = (Ok c, s1) ->
  exists new, stores s1 = stores s ++ new /\ NoDup new.
Proof.
  intros Hrun.
  set (nd := Score._extract_notes_from_staff staff) in *.
  set (td := py_sum (map Score.duration nd)) in *.
  assert (Ht : tempo <> 0).
  { intros ->. unfold synthesize_score, mbind, M_bind, lift in Hrun.
    change (py_div td (beats_per_second_of 0)) with (@Raise Q "ZeroDivisionError") in Hrun.
    discriminate. }
  destruct (np_zeros_cases H (score_total_frames tempo td)) as [Hmem|[e He]].
  - destruct (synthesize_score_run H nd tempo td instrument s Ht (extract_well_formed staff) Hmem)
      as (c0 & new & Hrun0 & _ & _ & _ & Hnd).
    rewrite Hrun0 in Hrun. injection Hrun as <- <-.
    exists new. split; [reflexivity | exact Hnd].
  - exfalso. unfold synthesize_score, mbind, M_bind, lift in Hrun.
    pose proof (beats_per_second_of_nonzero tempo Ht) as Hb.
    unfold py_div in Hrun.
    destruct (Qeq_bool (beats_per_second_of tempo) 0) eqn:Eb;
      [apply Qeq_bool_iff in Eb; contradiction|].
    fold (score_total_frames tempo td) in Hrun. rewrite He in Hrun. discriminate.
Qed.

Section ScoreCells.
Context (H : host) (instrument : string) (beats_per_second : Q) (total_frames : Z).
Hypothesis bps_pos : (0 < beats_per_second)%Q.

Lemma bps_pos_nonzero : ~ (beats_per_second == 0)%Q.
Proof. intros E. rewrite E in bps_pos. exact (Qlt_irrefl 0 bps_pos). Qed.

(** The cells one entry leaves: those of its window hold its samples, the
    others are as they were. *)
Lemma info_cursor_cell c ni pos j :
  well_formed ni -> 0 <= current_frame c ->
  Z.of_nat (length (audio_data c)) = total_frames ->
  audio_data (info_cursor H instrument beats_per_second total_frames c ni pos) !!! j
  = if negb (is_rest (Score.type ni))
       && in_window (current_frame c) total_frames
            (Z.to_nat (info_frames beats_per_second ni)) 0 j
    then cell_val (current_frame c)
           (score_val H (_get_instrument_parameters instrument) (info_freq H ni)
              (current_frame c) (info_frames beats_per_second ni)) 0 pos j
    else audio_data c !!! j.
Proof.
  intros Hwf Hcur Hlen. unfold info_cursor.
  destruct (Score.type ni); cbn [is_rest negb andb audio_data]; try reflexivity;
    apply frames_of_iset_cell; lia.
Qed.

Lemma info_cursor_frame c ni pos :
  well_formed ni ->
  current_frame c
  <= current_frame (info_cursor H instrument beats_per_second total_frames c ni pos).
Proof.
  intros [Hd _]. destruct (info_frames_sign beats_per_second ni Hd) as [Hpos _].
  specialize (Hpos bps_pos). unfold info_cursor.
  destruct (Score.type ni); cbn [current_frame]; lia.
Qed.

Lemma info_cursor_length c ni pos :
  length (audio_data (info_cursor H instrument beats_per_second total_frames c ni pos))
  = length (audio_data c).
Proof.
  unfold info_cursor. destruct (Score.type ni); cbn [audio_data]; try reflexivity;
    apply frames_of_length, iset_length.
Qed.

(** The loop never stores before the cursor. *)
Lemma for_each_score_before notes_data : forall c s c' s',
  Forall well_formed notes_data -> 0 <= current_frame c ->
  Z.of_nat (length (audio_data c)) = total_frames ->
  for_each (score_note_loop H instrument beats_per_second total_frames) notes_data c s
  = (Ok c', s') ->
  forall j, Z.of_nat j < current_frame c -> audio_data c' !!! j = audio_data c !!! j.
Proof.
  induction notes_data as [|ni notes_data IH]; intros c s c' s' Hwf Hcur Hlen Hrun j Hj.
  - cbn in Hrun. injection Hrun as <- <-. reflexivity.
  - apply Forall_cons in Hwf as [Hni Hrest].
    cbn [for_each] in Hrun. unfold mbind, M_bind in Hrun.
    rewrite (score_note_loop_run H instrument beats_per_second total_frames c ni s
               bps_pos_nonzero Hni (fun _ => Hcur) Hlen) in Hrun.
    pose proof (info_cursor_frame c ni (rng_pos s) Hni) as Hfr.
    set (c1 := info_cursor H instrument beats_per_second total_frames c ni (rng_pos s)) in *.
    assert (Hcur1 : 0 <= current_frame c1) by lia.
    assert (Hlen1 : Z.of_nat (length (audio_data c1)) = total_frames).
    { unfold c1. rewrite info_cursor_length. exact Hlen. }
    assert (Hj1 : Z.of_nat j < current_frame c1) by lia.
    rewrite (IH c1 _ c' s' Hrest Hcur1 Hlen1 Hrun j Hj1). unfold c1.
    rewrite (info_cursor_cell c ni (rng_pos s) j Hni Hcur Hlen).
    assert (Hw : in_window (current_frame c) total_frames
                   (Z.to_nat (info_frames beats_per_second ni)) 0 j = false).
    { unfold in_window. apply bool_decide_eq_false. lia. }
    rewrite Hw, andb_false_r. reflexivity.
Qed.

End ScoreCells.

(** The samples of the first entry of a score, when it sounds. *)
Lemma score_first_entry_cell H ni notes_data tempo total_duration instrument s c s1 j :
  0 < tempo ->
  Forall well_formed (ni :: notes_data) ->
  Score.type ni <> Score.rest ->
  synthesize_score H (ni :: notes_data) tempo total_duration instrument s = (Ok c, s1) ->
  in_window 0 (score_total_frames tempo total_duration)
    (Z.to_nat (info_frames (beats_per_second_of tempo) ni)) 0 j = true ->
  audio_data c !!! j
  = score_val H (_get_instrument_parameters instrument) (info_freq H ni) 0
      (info_frames (beats_per_second_of tempo) ni) (Z.of_nat j) (rng_pos s + j).
Proof.
  intros Ht Hwf Hsound Hrun Hwin.
  apply Forall_cons in Hwf as [Hni Hrest].
  assert (Hb : (0 < beats_per_second_of tempo)%Q).
  { unfold beats_per_second_of, Qlt, Qdiv, Qmult, Qinv. simpl. lia. }
  pose proof (bps_pos_nonzero _ Hb) as Hnz.
  set (total := score_total_frames tempo total_duration) in *.
  unfold synthesize_score, mbind, M_bind, lift in Hrun.
  unfold py_div in Hrun.
  destruct (Qeq_bool (beats_per_second_of tempo) 0) eqn:Eb;
    [apply Qeq_bool_iff in Eb; contradiction|].
  fold (score_total_frames tempo total_duration) in Hrun. fold total in Hrun.
  destruct (np_zeros_cases H total) as [Hmem|[e He]];
    [|rewrite He in Hrun; discriminate].
  rewrite (np_zeros_ok H total Hmem) in Hrun.
  set (c0 := Cursor (replicate (Z.to_nat total) 0%Q) 0 None) in *.
  assert (Hlen0 : Z.of_nat (length (audio_data c0)) = total).
  { cbn. rewrite length_replicate. lia. }
  cbn [for_each] in Hrun. unfold mbind, M_bind in Hrun.
  rewrite (score_note_loop_run H instrument (beats_per_second_of tempo) total c0 ni s
             Hnz Hni (fun _ => Z.le_refl 0) Hlen0) in Hrun.
  set (c1 := info_cursor H instrument (beats_per_second_of tempo) total c0 ni (rng_pos s)) in *.
  assert (Hcell : audio_data c1 !!! j
                  = score_val H (_get_instrument_parameters instrument) (info_freq H ni) 0
                      (info_frames (beats_per_second_of tempo) ni) (Z.of_nat j)
                      (rng_pos s + j)).
  { unfold c1. rewrite (info_cursor_cell H instrument _ total c0 ni (rng_pos s) j Hni
                          (Z.le_refl 0) Hlen0).
    cbn [current_frame c0]. rewrite Hwin.
    destruct (Score.type ni); try contradiction; cbn [is_rest negb andb];
      unfold cell_val; rewrite !Z.sub_0_r, Nat2Z.id; reflexivity. }
  assert (Hj : Z.of_nat j < current_frame c1).
  { unfold in_window in Hwin. apply bool_decide_eq_true in Hwin.
    unfold written in Hwin. unfold c1, info_cursor.
    destruct (Score.type ni); try contradiction; cbn [current_frame c0]; lia. }
  assert (Hcur1 : 0 <= current_frame c1).
  { pose proof (info_cursor_frame H instrument _ total Hb c0 ni (rng_pos s) Hni) as Hf.
    exact Hf. }
  assert (Hlen1 : Z.of_nat (length (audio_data c1)) = total).
  { unfold c1. rewrite info_cursor_length. exact Hlen0. }
  rewrite (for_each_score_before H instrument _ total Hb notes_data c1 _ c s1 Hrest
             Hcur1 Hlen1 Hrun j Hj).
  exact Hcell.
Qed.

(** C6, as the code has it. In the MIDI path every store adds to the
    sample already in the cell, so the events superpose, noise included:
    each sample of the buffer is what the events add to that frame, summed
    in the order of the events, an event adding its tone plus its own
    noise draw, shaped by its envelope. Each sample is thus the sum of the
    tonal contributions of the events and of their noise. Processing the
    events in another order gives a buffer of the same length which, once
    the noise of each run is taken off, holds the same samples (as
    rationals: the code adds the same numbers in another order, so its
    floats can differ by rounding), or both runs raise. In the score path
    the store is an assignment and the events are laid out one after
    another in score order; no cell is stored to twice, so no sample is
    lost, but the buffer does depend on the order of the events. *)
Theorem C6_accumulation_and_order (H : host) (instrument : string) (s s' : sys) :
  (forall notes total_frames,
     Forall (fun n => (0 <= Midi.start_time n)%Q) notes ->
     midi_total_frames notes = Ok total_frames -> 0 <= total_frames <= mem_limit H ->
     exists a s1,
       synthesize_midi H notes instrument s = (Ok a, s1)
       /\ forall j,
            (a !!! j
             == fold_left Qplus
                  (in_turn total_frames
                     (fun n pos => sample H (_get_instrument_parameters instrument)
                                     total_frames n pos j) notes (rng_pos s)) 0)%Q
            /\ (a !!! j
                == sumQ (map (fun n =>
                     contribution H (_get_instrument_parameters instrument) total_frames n j)
                     notes)
                   + noise_in H (_get_instrument_parameters instrument) total_frames notes
                       (rng_pos s) j)%Q)
  /\ (forall notes notes' total_frames,
        Forall (fun n => (0 <= Midi.start_time n)%Q) notes ->
        Permutation notes notes' ->
        midi_total_frames notes = Ok total_frames ->
        midi_total_frames notes' = Ok total_frames
        /\ same_but_noise
             (noise_in H (_get_instrument_parameters instrument) total_frames notes (rng_pos s))
             (noise_in H (_get_instrument_parameters instrument) total_frames notes' (rng_pos s'))
             (synthesize_midi H notes instrument s).1
             (synthesize_midi H notes' instrument s').1)
  /\ (forall staff tempo c s1,
        synthesize_score H (Score._extract_notes_from_staff staff) tempo
          (py_sum (map Score.duration (Score._extract_notes_from_staff staff)))
          instrument s = (Ok c, s1) ->
        exists new, stores s1 = stores s ++ new /\ NoDup new).
Proof.
  split; [|split].
  - intros notes total Hst Ht Hmem.
    assert (Hst1 : Forall (fun n => 0 <= note_start n) notes).
    { eapply Forall_impl; [exact Hst|]. intros n. apply note_start_nonneg. }
    destruct (synthesize_midi_cells H notes instrument s total Hst1 Ht Hmem)
      as (a & s1 & Hrun & _ & Hc).
    exists a, s1. split; [exact Hrun|]. intros j. split; [exact (Hc j)|].
    exact (synthesize_midi_tonal H notes instrument s total a s1 j Hst1 Ht Hrun).
  - intros notes notes' total Hst Hp Ht. apply synthesize_midi_order; assumption.
  - intros staff tempo c s1. apply synthesize_score_stores.
Qed.

(** The chord C4-E4, half a second long. *)
Definition c4_e4 : list Midi.note_data :=
  [Midi.NoteData 60 100 0.0 0.5 0; Midi.NoteData 64 100 0.0 0.5 0].

Definition a4_quarter_half : list Score.component :=
  [Score.Note 69 {| Score.numerator := 1; Score.denominator := 4 |};
   Score.Note 69 {| Score.numerator := 1; Score.denominator := 2 |}].

Definition a4_half_quarter : list Score.component :=
  [Score.Note 69 {| Score.numerator := 1; Score.denominator := 2 |};
   Score.Note 69 {| Score.numerator := 1; Score.denominator := 4 |}].

(** A generator whose draws run through -0.3, -0.2, ..., 0.3. *)
Definition hiss (k : nat) : Q := ((inject_Z (Z.of_nat k mod 7) - 3) / 10)%Q.

Lemma a4_runs staff :
  staff = a4_quarter_half \/ staff = a4_half_quarter ->
  exists c s1,
    synthesize_score (Reference.machine hiss (2 ^ 31))
      (Score._extract_notes_from_staff staff) 120
      (py_sum (map Score.duration (Score._extract_notes_from_staff staff))) "Piano"
      Reference.fresh = (Ok c, s1).
Proof.
  intros Hs.
  destruct (synthesize_score_run (Reference.machine hiss (2 ^ 31))
              (Score._extract_notes_from_staff staff) 120
              (py_sum (map Score.duration (Score._extract_notes_from_staff staff)))
              "Piano" Reference.fresh) as (c & new & Hrun & _).
  - lia.
  - apply extract_well_formed.
  - destruct Hs as [-> | ->]; split; apply Z.leb_le; vm_compute; reflexivity.
  - eauto.
Qed.

(** The chord on a generator that is not silent, in either order. *)
Lemma C6_accumulation_witness :
  same_but_noise
    (noise_in (Reference.machine hiss (2 ^ 31)) piano 44100 c4_e4 0)
    (noise_in (Reference.machine hiss (2 ^ 31)) piano 44100 (rev c4_e4) 0)
    (synthesize_midi (Reference.machine hiss (2 ^ 31)) c4_e4 "Piano" Reference.fresh).1
    (synthesize_midi (Reference.machine hiss (2 ^ 31)) (rev c4_e4) "Piano"
       Reference.fresh).1
  /\ (exists a s1,
        synthesize_midi (Reference.machine hiss (2 ^ 31)) c4_e4 "Piano" Reference.fresh
        = (Ok a, s1)
        /\ (a !!! 1%nat
            == 0 + sample (Reference.machine hiss (2 ^ 31)) piano 44100
                     (Midi.NoteData 60 100 0.0 0.5 0) 0 1
               + sample (Reference.machine hiss (2 ^ 31)) piano 44100
                   (Midi.NoteData 64 100 0.0 0.5 0) (Z.to_nat 22050) 1)%Q)
  /\ exists c s1 new,
       synthesize_score (Reference.machine hiss (2 ^ 31))
         (Score._extract_notes_from_staff a4_quarter_half) 120
         (py_sum (map Score.duration (Score._extract_notes_from_staff a4_quarter_half)))
         "Piano" Reference.fresh = (Ok c, s1)
       /\ stores s1 = new /\ NoDup new.
Proof.
  destruct (C6_accumulation_and_order (Reference.machine hiss (2 ^ 31))
              "Piano" Reference.fresh Reference.fresh) as (Hsum & Hord & Hset).
  assert (Hst : Forall (fun n => (0 <= Midi.start_time n)%Q) c4_e4).
  { repeat constructor; vm_compute; discriminate. }
  assert (Ht : midi_total_frames c4_e4 = Ok 44100) by (vm_compute; reflexivity).
  split; [|split].
  - exact (proj2 (Hord c4_e4 (rev c4_e4) 44100 Hst (Permutation_rev _) Ht)).
  - destruct (Hsum c4_e4 44100 Hst Ht) as (a & s1 & Hrun & Hc).
    + split; apply Z.leb_le; vm_compute; reflexivity.
    + exists a, s1. split; [exact Hrun | exact (proj1 (Hc 1%nat))].
  - destruct (a4_runs a4_quarter_half (or_introl eq_refl)) as (c & s1 & Hrun).
    destruct (Hset a4_quarter_half 120 c s1 Hrun) as (new & Hst' & Hnd).
    exists c, s1, new. split; [exact Hrun | split; [exact Hst' | exact Hnd]].
Defined.

(** Two A4, a quarter and a half note, at 120 BPM, in either order: the
    same events, and the same draw of the generator at frame 1 in both
    runs, yet frame 1 of the buffer differs, since it carries the attack
    of whichever note comes first. *)
Lemma C6_score_order_counterexample :
  Permutation (Score._extract_notes_from_staff a4_quarter_half)
              (Score._extract_notes_from_staff a4_half_quarter)
  /\ exists c s1 c' s1',
       synthesize_score (Reference.machine hiss (2 ^ 31))
         (Score._extract_notes_from_staff a4_quarter_half) 120
         (py_sum (map Score.duration (Score._extract_notes_from_staff a4_quarter_half)))
         "Piano" Reference.fresh = (Ok c, s1)
       /\ synthesize_score (Reference.machine hiss (2 ^ 31))
            (Score._extract_notes_from_staff a4_half_quarter) 120
            (py_sum (map Score.duration (Score._extract_notes_from_staff a4_half_quarter)))
            "Piano" Reference.fresh = (Ok c', s1')
       /\ ~ (audio_data c !!! 1%nat == audio_data c' !!! 1%nat)%Q.
Proof.
  split; [apply perm_swap|].
  destruct (a4_runs a4_quarter_half (or_introl eq_refl)) as (c & s1 & Hrun).
  destruct (a4_runs a4_half_quarter (or_intror eq_refl)) as (c' & s1' & Hrun').
  exists c, s1, c', s1'. split; [exact Hrun|]. split; [exact Hrun'|].
  set (H := Reference.machine hiss (2 ^ 31)) in *.
  set (q := Score.NoteInfo (Some 69)
              (Score.beats {| Score.numerator := 1; Score.denominator := 4 |}) Score.note).
  set (h := Score.NoteInfo (Some 69)
              (Score.beats {| Score.numerator := 1; Score.denominator := 2 |}) Score.note).
  assert (Ht : 0 < 120) by lia.
  assert (Hq : Score.type q <> Score.rest) by discriminate.
  assert (Hh : Score.type h <> Score.rest) by discriminate.
  rewrite (score_first_entry_cell H q [h] 120 _ "Piano" Reference.fresh c s1 1%nat Ht
             (extract_well_formed a4_quarter_half) Hq Hrun)
    by (vm_compute; reflexivity).
  rewrite (score_first_entry_cell H h [q] 120 _ "Piano" Reference.fresh c' s1' 1%nat Ht
             (extract_well_formed a4_half_quarter) Hh Hrun')
    by (vm_compute; reflexivity).
  intros E. vm_compute in E. discriminate.
Qed.

(** ** C8: what the buffer depends on *)

Section SameDraws.
Context (H1 H2 : host).
Hypothesis same_sin : np_sin H1 = np_sin H2.
Hypothesis same_pi : np_pi H1 = np_pi H2.
Hypothesis same_pow : pow2 H1 = pow2 H2.
Hypothesis same_mem : mem_limit H1 = mem_limit H2.

(** From where the two generators stand they hand out the same draws. *)
Definition aligned (s1 s2 : sys) : Prop :=
  forall k, gauss H1 (rng_pos s1 + k) = gauss H2 (rng_pos s2 + k).

(** Two computations that return the same and keep the generators
    aligned. *)
Definition agree {A} (m1 m2 : M A) : Prop :=
  forall s1 s2, aligned s1 s2 ->
    (m1 s1).1 = (m2 s2).1 /\ aligned (m1 s1).2 (m2 s2).2.

Lemma agree_ret {A} (a : A) : agree (mret a) (mret a).
Proof. intros s1 s2 Ha. split; [reflexivity | exact Ha]. Qed.

Lemma agree_lift {A} (o : outcome A) : agree (lift o) (lift o).
Proof. intros s1 s2 Ha. split; [reflexivity | exact Ha]. Qed.

Lemma agree_bind {A B} (m1 m2 : M A) (f1 f2 : A -> M B) :
  agree m1 m2 -> (forall a, agree (f1 a) (f2 a)) ->
  agree (m1 ≫= f1) (m2 ≫= f2).
Proof.
  intros Hm Hf s1 s2 Ha. unfold mbind, M_bind.
  destruct (Hm s1 s2 Ha) as [Ho Hs].
  destruct (m1 s1) as [[a1|e1] t1]; destruct (m2 s2) as [[a2|e2] t2];
    cbn in Ho, Hs; try discriminate.
  - injection Ho as ->. apply Hf. exact Hs.
  - injection Ho as ->. split; [reflexivity | exact Hs].
Qed.

Lemma agree_log k : agree (log_store k) (log_store k).
Proof. intros s1 s2 Ha. split; [reflexivity | exact Ha]. Qed.

Lemma agree_normal sigma : agree (np_random_normal H1 sigma) (np_random_normal H2 sigma).
Proof.
  intros s1 s2 Ha. unfold np_random_normal. cbn. split.
  - specialize (Ha 0%nat). rewrite !Nat.add_0_r in Ha. rewrite Ha. reflexivity.
  - intros k. cbn. specialize (Ha (S k)).
    rewrite !Nat.add_succ_r in Ha. exact Ha.
Qed.

Lemma agree_iadd a k v : agree (array_iadd a k v) (array_iadd a k v).
Proof.
  unfold array_iadd. apply agree_bind; [apply agree_lift|]. intros j.
  apply agree_bind; [apply agree_log|]. intros _. apply agree_ret.
Qed.

Lemma agree_set a k v : agree (array_set a k v) (array_set a k v).
Proof.
  unfold array_set. apply agree_bind; [apply agree_lift|]. intros j.
  apply agree_bind; [apply agree_log|]. intros _. apply agree_ret.
Qed.

Lemma agree_for_range {B} stop (body1 body2 : Z -> B -> M B) :
  (forall i acc, agree (body1 i acc) (body2 i acc)) ->
  forall n i acc,
    agree (for_range_break stop body1 n i acc) (for_range_break stop body2 n i acc).
Proof.
  intros Hb. induction n as [|n IH]; intros i acc; cbn [for_range_break].
  - apply agree_ret.
  - destruct (stop i); [apply agree_ret|].
    apply agree_bind; [apply Hb|]. intros acc'. apply IH.
Qed.

Lemma agree_for_each {A B} (body1 body2 : B -> A -> M B) :
  (forall acc x, agree (body1 acc x) (body2 acc x)) ->
  forall xs acc, agree (for_each body1 xs acc) (for_each body2 xs acc).
Proof.
  intros Hb. induction xs as [|x xs IH]; intros acc; cbn [for_each].
  - apply agree_ret.
  - apply agree_bind; [apply Hb|]. intros acc'. apply IH.
Qed.

Lemma same_tone_midi p freq t v : tone_midi H1 p freq t v = tone_midi H2 p freq t v.
Proof. unfold tone_midi. rewrite same_sin, same_pi. reflexivity. Qed.

Lemma same_tone_score p freq t : tone_score H1 p freq t = tone_score H2 p freq t.
Proof. unfold tone_score. rewrite same_sin, same_pi. reflexivity. Qed.

Lemma same_freq m : midi_to_freq H1 m = midi_to_freq H2 m.
Proof. unfold midi_to_freq. rewrite same_pow. reflexivity. Qed.

Lemma same_zeros n : np_zeros H1 n = np_zeros H2 n.
Proof. unfold np_zeros. rewrite same_mem. reflexivity. Qed.

Lemma agree_midi_frame p freq v start frames i a :
  agree (midi_frame H1 p freq v start frames i a) (midi_frame H2 p freq v start frames i a).
Proof.
  unfold midi_frame. rewrite same_tone_midi.
  apply agree_bind; [apply agree_normal|]. intros noise.
  apply agree_bind; [apply agree_lift|]. intros env. apply agree_iadd.
Qed.

Lemma agree_score_frame p freq cur frames i a :
  agree (score_frame H1 p freq cur frames i a) (score_frame H2 p freq cur frames i a).
Proof.
  unfold score_frame. rewrite same_tone_score.
  apply agree_bind; [apply agree_normal|]. intros noise.
  apply agree_bind; [apply agree_lift|]. intros env. apply agree_set.
Qed.

Lemma agree_synthesize_midi notes instrument :
  agree (synthesize_midi H1 notes instrument) (synthesize_midi H2 notes instrument).
Proof.
  unfold synthesize_midi.
  apply agree_bind; [apply agree_lift|]. intros total.
  rewrite same_zeros. apply agree_bind; [apply agree_lift|]. intros a.
  apply agree_for_each. intros acc n. unfold midi_note_loop.
  destruct (Midi.velocity n =? 0); [apply agree_ret|].
  rewrite same_freq. apply agree_for_range. intros i a0. apply agree_midi_frame.
Qed.

Lemma agree_synthesize_score notes_data tempo total_duration instrument :
  agree (synthesize_score H1 notes_data tempo total_duration instrument)
        (synthesize_score H2 notes_data tempo total_duration instrument).
Proof.
  unfold synthesize_score.
  apply agree_bind; [apply agree_lift|]. intros secs.
  rewrite same_zeros. apply agree_bind; [apply agree_lift|]. intros a.
  apply agree_for_each. intros c ni. unfold score_note_loop.
  destruct (Score.type ni); try apply agree_ret;
    (apply agree_bind; [apply agree_lift|]; intros ds;
     apply agree_bind;
       [destruct (Score.midi_note ni); [rewrite same_freq|]; apply agree_lift|];
     intros freq;
     apply agree_bind;
       [apply agree_for_range; intros i a0; apply agree_score_frame|];
     intros a1; apply agree_ret).
Qed.

End SameDraws.

(** The samples of a single sounding note in the MIDI path, noise
    included. *)
Lemma midi_single_note_cell H n instrument s total_frames j :
  (0 <= Midi.start_time n)%Q ->
  midi_total_frames [n] = Ok total_frames ->
  0 <= total_frames <= mem_limit H ->
  Midi.velocity n <> 0 ->
  in_window (note_start n) total_frames (Z.to_nat (note_frames n)) 0 j = true ->
  exists a s1,
    synthesize_midi H [n] instrument s = (Ok a, s1)
    /\ (a !!! j
        == midi_val H (_get_instrument_parameters instrument) (midi_to_freq H (Midi.note n))
             (note_gain n) (note_start n) (note_frames n) (Z.of_nat j - note_start n)
             (rng_pos s + Z.to_nat (Z.of_nat j - note_start n - 0)))%Q.
Proof.
  intros Hst Ht Hmem Hv Hwin.
  pose proof (note_start_nonneg n Hst) as Hs.
  unfold synthesize_midi, mbind, M_bind, lift. rewrite Ht.
  rewrite (np_zeros_ok H total_frames Hmem).
  cbn [for_each]. unfold mbind, M_bind.
  rewrite midi_note_loop_run; [|exact Hs|rewrite length_replicate; lia].
  eexists _, _. split; [reflexivity|].
  unfold note_buffer. apply Z.eqb_neq in Hv. rewrite Hv.
  rewrite frames_of_iadd_cell; [|lia|rewrite length_replicate; lia].
  rewrite Hwin, replicate_total_0. unfold cell_val. ring.
Qed.

(** C8, as the code has it. The synthesiser draws a Gaussian noise sample
    from numpy's global generator for every frame it writes, so the
    buffer is a function of the events, the profile and those draws: two
    runs on the same events and profile, on hosts with the same sine,
    power and memory, whose generators hand out the same draws from where
    they stand, return the same buffer (or raise the same exception), in
    the MIDI path and in the score path. *)
Theorem C8_same_draws_same_buffer (H1 H2 : host) (s1 s2 : sys)
    (notes : list Midi.note_data) (notes_data : list Score.note_info)
    (tempo : Z) (total_duration : Q) (instrument : string) :
  np_sin H1 = np_sin H2 -> np_pi H1 = np_pi H2 -> pow2 H1 = pow2 H2 ->
  mem_limit H1 = mem_limit H2 ->
  (forall k, gauss H1 (rng_pos s1 + k) = gauss H2 (rng_pos s2 + k)) ->
  (synthesize_midi H1 notes instrument s1).1 = (synthesize_midi H2 notes instrument s2).1
  /\ (synthesize_score H1 notes_data tempo total_duration instrument s1).1
     = (synthesize_score H2 notes_data tempo total_duration instrument s2).1.
Proof.
  intros Hsin Hpi Hpow Hmem Hdraws. split.
  - apply (agree_synthesize_midi H1 H2 Hsin Hpi Hpow Hmem notes instrument s1 s2 Hdraws).
  - apply (agree_synthesize_score H1 H2 Hsin Hpi Hpow Hmem notes_data tempo total_duration
             instrument s1 s2 Hdraws).
Qed.

(** A generator whose draws alternate, and the same one three draws on. *)
Definition alternating (k : nat) : Q := if Nat.even k then 1%Q else (-1)%Q.
Definition alternating_later (k : nat) : Q := alternating (k + 3).

Lemma C8_same_draws_witness :
  (synthesize_midi (Reference.machine alternating (2 ^ 31)) [Midi.placeholder] "Piano"
     {| wav_file := None; rng_pos := 3; stores := [] |}).1
  = (synthesize_midi (Reference.machine alternating_later (2 ^ 31)) [Midi.placeholder] "Piano"
       Reference.fresh).1.
Proof.
  refine (proj1 (C8_same_draws_same_buffer
                   (Reference.machine alternating (2 ^ 31))
                   (Reference.machine alternating_later (2 ^ 31))
                   {| wav_file := None; rng_pos := 3; stores := [] |} Reference.fresh
                   [Midi.placeholder] [] 120 0%Q "Piano"
                   eq_refl eq_refl eq_refl eq_refl _)).
  intros k. cbn [rng_pos Reference.fresh Reference.machine gauss].
  unfold alternating_later. f_equal. lia.
Defined.

(** The same event and profile, a generator that hands out 0 and one that
    hands out 1: frame 1 of the buffer differs. *)
Definition ones : nat -> Q := fun _ => 1%Q.

Lemma C8_noise_counterexample :
  exists a0 s0 a1 s1,
    synthesize_midi (Reference.machine Reference.silence (2 ^ 31)) [Midi.placeholder] "Piano"
      Reference.fresh = (Ok a0, s0)
    /\ synthesize_midi (Reference.machine ones (2 ^ 31)) [Midi.placeholder] "Piano"
         Reference.fresh = (Ok a1, s1)
    /\ ~ (a0 !!! 1%nat == a1 !!! 1%nat)%Q.
Proof.
  assert (Hst : (0 <= Midi.start_time Midi.placeholder)%Q) by (vm_compute; discriminate).
  assert (Hv : Midi.velocity Midi.placeholder <> 0) by discriminate.
  destruct (midi_single_note_cell (Reference.machine Reference.silence (2 ^ 31))
              Midi.placeholder "Piano" Reference.fresh 66150 1%nat Hst)
    as (a0 & s0 & Hrun0 & Hc0); try exact Hv.
  { vm_compute. reflexivity. }
  { split; apply Z.leb_le; vm_compute; reflexivity. }
  { vm_compute. reflexivity. }
  destruct (midi_single_note_cell (Reference.machine ones (2 ^ 31))
              Midi.placeholder "Piano" Reference.fresh 66150 1%nat Hst)
    as (a1 & s1 & Hrun1 & Hc1); try exact Hv.
  { vm_compute. reflexivity. }
  { split; apply Z.leb_le; vm_compute; reflexivity. }
  { vm_compute. reflexivity. }
  exists a0, s0, a1, s1. split; [exact Hrun0|]. split; [exact Hrun1|].
  intros E. rewrite Hc0, Hc1 in E. vm_compute in E. discriminate.
Qed.

(** * Further properties of the renderer *)

(** ** What the MIDI extractor emits *)

Section Emitted.
Import Midi.

(** An event that sounds: a positive velocity and at least a tenth of a
    second. *)
Definition audible (n : note_data) : Prop :=
  0 < velocity n /\ (0.1 <= duration n)%Q.

Lemma close_note_audible n v :
  Forall audible (notes v) -> Forall audible (notes (close_note n v)).
Proof.
  intros Hall. unfold close_note.
  destruct (active_notes v !! n) as [idx|]; [|exact Hall].
  cbn [notes]. apply Forall_alter; [exact Hall|].
  intros nd _ [Hv _]. split; [exact Hv|]. cbn [duration set_duration].
  destruct (Qlt_bool (track_time v - start_time nd) 0.1) eqn:E.
  - unfold Qle; simpl; lia.
  - apply Qlt_bool_false in E. exact E.
Qed.

Lemma on_message_audible tpb v msg v' :
  on_message tpb v msg = Ok v' -> Forall audible (notes v) -> Forall audible (notes v').
Proof.
  intros Hstep Hall. unfold on_message in Hstep.
  destruct (py_div (inject_Z (time msg)) (inject_Z tpb)) as [ticks|]; [|discriminate].
  destruct (py_div 60.0 (tempo v)) as [spb|]; [|discriminate].
  cbn in Hstep.
  destruct msg as [n vel ch tm|n vel ch tm|tmp tm|tm].
  - destruct (0 <? vel) eqn:Ev.
    + injection Hstep as <-. cbn [notes]. apply Forall_app. split; [exact Hall|].
      repeat constructor; cbn; [apply Z.ltb_lt; exact Ev | unfold Qle; simpl; lia].
    + destruct (vel =? 0); injection Hstep as <-;
        [apply close_note_audible; exact Hall | exact Hall].
  - injection Hstep as <-. apply close_note_audible. exact Hall.
  - destruct (tempo2bpm tmp); [|discriminate]. cbn in Hstep.
    injection Hstep as <-. exact Hall.
  - injection Hstep as <-. exact Hall.
Qed.

Lemma on_messages_audible tpb track : forall v v',
  on_messages tpb v track = Ok v' -> Forall audible (notes v) -> Forall audible (notes v').
Proof.
  induction track as [|msg track IH]; intros v v' Hrun Hall.
  - injection Hrun as <-. exact Hall.
  - cbn in Hrun.
    destruct (on_message tpb v msg) as [v1|] eqn:E1; [|discriminate]. cbn in Hrun.
    exact (IH v1 v' Hrun (on_message_audible tpb v msg v1 E1 Hall)).
Qed.

Lemma on_tracks_audible tpb trks : forall nt nt',
  on_tracks tpb nt trks = Ok nt' -> Forall audible nt.1 -> Forall audible nt'.1.
Proof.
  induction trks as [|track trks IH]; intros nt nt' Hrun Hall.
  - injection Hrun as <-. exact Hall.
  - cbn in Hrun. unfold on_track in Hrun.
    destruct (on_messages tpb (Vars nt.1 nt.2 0.0 ∅) track) as [v|] eqn:Ev; [|discriminate].
    cbn in Hrun.
    exact (IH (notes v, tempo v) nt' Hrun (on_messages_audible tpb track _ v Ev Hall)).
Qed.

(** The events of a file are never empty once the loop has completed. *)
Lemma extract_body_nonempty mid notes : extract_body mid = Ok notes -> notes <> [].
Proof.
  unfold extract_body.
  destruct (on_tracks (ticks_per_beat mid) ([], 120%Q) (tracks mid)) as [nt|]; [|discriminate].
  cbn. destruct (bool_decide (nt.1 = [])) eqn:E; intros Hn; injection Hn as <-.
  - intros Happ. apply app_eq_nil in Happ as [_ Hp]. discriminate.
  - apply bool_decide_eq_false in E. exact E.
Qed.

(** ** When the extraction gives up *)

Definition is_zero_tempo (msg : message) : bool :=
  match msg with
  | set_tempo t _ => t =? 0
  | _ => false
  end.

Lemma py_div_nonzero x y : ~ (y == 0)%Q -> py_div x y = Ok (x / y)%Q.
Proof.
  intros Hy. unfold py_div. destruct (Qeq_bool y 0) eqn:E; [|reflexivity].
  apply Qeq_bool_iff in E. contradiction.
Qed.

Lemma on_message_runs tpb v msg :
  tpb <> 0 -> is_zero_tempo msg = false -> ~ (tempo v == 0)%Q ->
  exists v', on_message tpb v msg = Ok v' /\ ~ (tempo v' == 0)%Q.
Proof.
  intros Htpb Hmsg Ht. unfold on_message.
  rewrite (py_div_ok _ tpb Htpb), (py_div_nonzero _ _ Ht). cbn.
  destruct msg as [n vel ch tm|n vel ch tm|tmp tm|tm].
  - destruct (0 <? vel); [eexists; split; [reflexivity|exact Ht]|].
    destruct (vel =? 0); eexists; (split; [reflexivity|]); [|exact Ht].
    unfold close_note. destruct (active_notes _ !! n); exact Ht.
  - eexists; split; [reflexivity|].
    unfold close_note. destruct (active_notes _ !! n); exact Ht.
  - cbn in Hmsg. apply Z.eqb_neq in Hmsg. unfold tempo2bpm.
    rewrite (py_div_ok _ tmp Hmsg). cbn. eexists; split; [reflexivity|]. cbn.
    unfold Qeq, Qdiv, Qmult, Qinv; simpl. destruct tmp; simpl; lia.
  - eexists; split; [reflexivity|exact Ht].
Qed.

Lemma on_messages_runs tpb track : forall v,
  tpb <> 0 -> Forall (fun msg => is_zero_tempo msg = false) track -> ~ (tempo v == 0)%Q ->
  exists v', on_messages tpb v track = Ok v' /\ ~ (tempo v' == 0)%Q.
Proof.
  induction track as [|msg track IH]; intros v Htpb Hall Ht.
  - exists v. split; [reflexivity|exact Ht].
  - apply Forall_cons in Hall as [Hm Hall]. cbn.
    destruct (on_message_runs tpb v msg Htpb Hm Ht) as (v1 & -> & Ht1). cbn.
    exact (IH v1 Htpb Hall Ht1).
Qed.

Lemma on_tracks_runs tpb trks : forall nt,
  tpb <> 0 \/ concat trks = [] ->
  Forall (fun msg => is_zero_tempo msg = false) (concat trks) -> ~ (nt.2 == 0)%Q ->
  exists nt', on_tracks tpb nt trks = Ok nt'.
Proof.
  induction trks as [|track trks IH]; intros nt Htpb Hall Ht.
  - exists nt. reflexivity.
  - cbn [concat] in Htpb, Hall. apply Forall_app in Hall as [Htr Hall].
    cbn. unfold on_track.
    destruct track as [|msg track].
    + cbn. apply IH; [|exact Hall|exact Ht].
      destruct Htpb as [Htpb|Hc]; [left; exact Htpb|right; exact Hc].
    + destruct Htpb as [Htpb|Hc]; [|discriminate].
      destruct (on_messages_runs tpb (msg :: track) (Vars nt.1 nt.2 0.0 ∅) Htpb Htr Ht)
        as (v & -> & Hv).
      cbn. apply IH; [left; exact Htpb|exact Hall|exact Hv].
Qed.

Lemma zero_tempo_raises tpb v msg :
  is_zero_tempo msg = true -> exists e, on_message tpb v msg = Raise e.
Proof.
  destruct msg as [n vel ch tm|n vel ch tm|tmp tm|tm]; try discriminate.
  cbn. intros Hz. apply Z.eqb_eq in Hz. subst tmp. unfold on_message.
  destruct (py_div _ (inject_Z tpb)); [|eauto]. cbn.
  destruct (py_div 60.0 (tempo v)); [|eauto]. cbn. eauto.
Qed.

Lemma on_messages_zero_tempo tpb track : forall v,
  Exists (fun msg => is_zero_tempo msg = true) track ->
  exists e, on_messages tpb v track = Raise e.
Proof.
  induction track as [|msg track IH]; intros v Hex.
  - apply Exists_nil in Hex. destruct Hex.
  - cbn. apply Exists_cons in Hex as [Hm|Hrest].
    + destruct (zero_tempo_raises tpb v msg Hm) as [e ->]. cbn. eauto.
    + destruct (on_message tpb v msg) as [v1|e]; cbn; [apply IH; exact Hrest|eauto].
Qed.

Lemma on_tracks_zero_tempo tpb trks : forall nt,
  Exists (fun msg => is_zero_tempo msg = true) (concat trks) ->
  exists e, on_tracks tpb nt trks = Raise e.
Proof.
  induction trks as [|track trks IH]; intros nt Hex.
  - apply Exists_nil in Hex. destruct Hex.
  - cbn [concat] in Hex. apply Exists_app in Hex as [Hm|Hrest]; cbn; unfold on_track.
    + destruct (on_messages_zero_tempo tpb track (Vars nt.1 nt.2 0.0 ∅) Hm) as [e ->].
      cbn. eauto.
    + destruct (on_messages tpb _ track) as [v|e]; cbn; [apply IH; exact Hrest|eauto].
Qed.

Lemma on_tracks_zero_resolution trks : forall nt,
  concat trks <> [] -> exists e, on_tracks 0 nt trks = Raise e.
Proof.
  induction trks as [|track trks IH]; intros nt Hne.
  - destruct Hne. reflexivity.
  - cbn. unfold on_track. destruct track as [|msg track].
    + cbn. apply IH. exact Hne.
    + cbn. unfold on_message. cbn. eauto.
Qed.

(** ** Pitches, velocities and channels *)

Definition sounding (msg : message) : option (Z * Z * Z) :=
  match msg with
  | note_on n vel ch _ => if 0 <? vel then Some (n, vel, ch) else None
  | _ => None
  end.

Definition key_of (n : note_data) : Z * Z * Z := (note n, velocity n, channel n).

Lemma alter_key_of f idx (l : list note_data) :
  (forall nd, key_of (f nd) = key_of nd) -> map key_of (alter f idx l) = map key_of l.
Proof.
  intros Hf. revert idx. induction l as [|x l IH]; intros [|idx]; cbn; try reflexivity.
  - rewrite Hf. reflexivity.
  - f_equal. apply IH.
Qed.

Lemma close_note_keys n v : map key_of (notes (close_note n v)) = map key_of (notes v).
Proof.
  unfold close_note. destruct (active_notes v !! n) as [idx|]; [|reflexivity].
  cbn [notes]. apply alter_key_of. intros nd. reflexivity.
Qed.

Lemma on_message_keys tpb v msg v' :
  on_message tpb v msg = Ok v' ->
  map key_of (notes v') = map key_of (notes v) ++ omap sounding [msg].
Proof.
  intros Hstep. unfold on_message in Hstep.
  destruct (py_div (inject_Z (time msg)) (inject_Z tpb)) as [ticks|]; [|discriminate].
  destruct (py_div 60.0 (tempo v)) as [spb|]; [|discriminate].
  cbn in Hstep.
  destruct msg as [n vel ch tm|n vel ch tm|tmp tm|tm]; cbn [omap list_omap sounding].
  - destruct (0 <? vel) eqn:Ev.
    + injection Hstep as <-. cbn [notes]. rewrite map_app. reflexivity.
    + destruct (vel =? 0); injection Hstep as <-; rewrite app_nil_r;
        [rewrite close_note_keys; reflexivity | reflexivity].
  - injection Hstep as <-. rewrite app_nil_r. rewrite close_note_keys. reflexivity.
  - destruct (tempo2bpm tmp); [|discriminate]. cbn in Hstep.
    injection Hstep as <-. rewrite app_nil_r. reflexivity.
  - injection Hstep as <-. rewrite app_nil_r. reflexivity.
Qed.

Lemma on_messages_keys tpb track : forall v v',
  on_messages tpb v track = Ok v' ->
  map key_of (notes v') = map key_of (notes v) ++ omap sounding track.
Proof.
  induction track as [|msg track IH]; intros v v' Hrun.
  - injection Hrun as <-. cbn. rewrite app_nil_r. reflexivity.
  - cbn in Hrun.
    destruct (on_message tpb v msg) as [v1|] eqn:E1; [|discriminate]. cbn in Hrun.
    rewrite (IH v1 v' Hrun), (on_message_keys tpb v msg v1 E1).
    rewrite <- app_assoc. f_equal.
    change (msg :: track) with ([msg] ++ track). rewrite omap_app. reflexivity.
Qed.

Lemma on_tracks_keys tpb trks : forall nt nt',
  on_tracks tpb nt trks = Ok nt' ->
  map key_of nt'.1 = map key_of nt.1 ++ omap sounding (concat trks).
Proof.
  induction trks as [|track trks IH]; intros nt nt' Hrun.
  - injection Hrun as <-. cbn. rewrite app_nil_r. reflexivity.
  - cbn in Hrun. unfold on_track in Hrun.
    destruct (on_messages tpb (Vars nt.1 nt.2 0.0 ∅) track) as [v|] eqn:Ev; [|discriminate].
    cbn in Hrun. rewrite (IH _ nt' Hrun). cbn [fst].
    rewrite (on_messages_keys tpb track _ v Ev). cbn [notes concat].
    rewrite omap_app, app_assoc. reflexivity.
Qed.

End Emitted.

(** Every event [_extract_midi_notes] returns, whatever the file, has a
    positive velocity and lasts at least a tenth of a second, that is at
    least 4410 frames: the synthesiser never meets an event it would skip
    for its velocity of 0, nor one without frames. *)
Theorem extracted_events_sound (file : outcome Midi.MidiFile) :
  Forall (fun n => 0 < Midi.velocity n /\ (0.1 <= Midi.duration n)%Q /\ 4410 <= note_frames n)
    (Midi._extract_midi_notes file).
Proof.
  assert (Hall : Forall audible (Midi._extract_midi_notes file)).
  { unfold Midi._extract_midi_notes. destruct file as [mid|e]; cbn; [|constructor].
    unfold Midi.extract_body.
    destruct (Midi.on_tracks (Midi.ticks_per_beat mid) ([], 120%Q) (Midi.tracks mid))
      as [nt|] eqn:E; cbn; [|constructor].
    pose proof (on_tracks_audible _ _ _ nt E (Forall_nil_2 _)) as Hn.
    destruct (bool_decide (nt.1 = [])); [|exact Hn].
    apply Forall_app. split; [exact Hn|].
    constructor; [|constructor]. split; cbn; [lia | unfold Qle; simpl; lia]. }
  eapply Forall_impl; [exact Hall|]. intros n [Hv Hd].
  split; [exact Hv|]. split; [exact Hd|].
  unfold note_frames. change 4410 with (py_int (0.1 * inject_Z sample_rate)).
  apply py_int_mono. apply Qmult_le_compat_r; [exact Hd|].
  apply Qlt_le_weak, sample_rate_pos.
Qed.

(** [_extract_midi_notes] returns the empty list, its answer to an
    exception, exactly when the file has a message and a resolution of 0
    ticks per beat, or holds a tempo change to 0 microseconds per beat;
    in every other case it returns at least one event. *)
Theorem extraction_gives_up_exactly_when (mid : Midi.MidiFile) :
  Midi._extract_midi_notes (Ok mid) = []
  <-> (Midi.ticks_per_beat mid = 0 /\ concat (Midi.tracks mid) <> [])
      \/ Exists (fun msg => is_zero_tempo msg = true) (concat (Midi.tracks mid)).
Proof.
  unfold Midi._extract_midi_notes. cbn.
  destruct (Midi.extract_body mid) as [notes|e] eqn:Eb.
  - split.
    + intros ->. destruct (extract_body_nonempty mid [] Eb eq_refl).
    + unfold Midi.extract_body in Eb. intros [[Hz Hne]|Hex].
      * rewrite Hz in Eb.
        destruct (on_tracks_zero_resolution (Midi.tracks mid) ([], 120%Q) Hne) as [e He].
        rewrite He in Eb. discriminate.
      * destruct (on_tracks_zero_tempo (Midi.ticks_per_beat mid) (Midi.tracks mid)
                    ([], 120%Q) Hex) as [e He].
        rewrite He in Eb. discriminate.
  - split; [intros _|reflexivity].
    destruct (decide (Exists (fun msg => is_zero_tempo msg = true) (concat (Midi.tracks mid))))
      as [Hex|Hnex]; [right; exact Hex|].
    destruct (decide (Midi.ticks_per_beat mid = 0)) as [Hz|Hnz];
      [destruct (decide (concat (Midi.tracks mid) = [])) as [Hc|Hc]|].
    + exfalso. unfold Midi.extract_body in Eb.
      destruct (on_tracks_runs (Midi.ticks_per_beat mid) (Midi.tracks mid) ([], 120%Q))
        as [nt Hnt].
      * right. exact Hc.
      * rewrite Hc. constructor.
      * cbn. unfold Qeq; simpl; lia.
      * rewrite Hnt in Eb. discriminate.
    + left. split; assumption.
    + exfalso. unfold Midi.extract_body in Eb.
      destruct (on_tracks_runs (Midi.ticks_per_beat mid) (Midi.tracks mid) ([], 120%Q))
        as [nt Hnt].
      * left. exact Hnz.
      * apply Forall_forall. intros msg Hin.
        destruct (is_zero_tempo msg) eqn:Em; [|reflexivity].
        exfalso. apply Hnex. apply Exists_exists. exists msg. split; assumption.
      * cbn. unfold Qeq; simpl; lia.
      * rewrite Hnt in Eb. discriminate.
Qed.

(** When the extraction loop completes, the events carry the pitch, the
    velocity and the channel of the note-on messages of positive velocity,
    one event for each, in the order of the messages with the tracks one
    after another; only when there is no such message is the single
    placeholder event (middle C, velocity 100) returned. *)
Theorem extraction_keeps_note_ons (mid : Midi.MidiFile) (notes : list Midi.note_data) :
  Midi.extract_body mid = Ok notes ->
  map key_of notes
  = match omap sounding (concat (Midi.tracks mid)) with
    | [] => [key_of Midi.placeholder]
    | keys => keys
    end.
Proof.
  unfold Midi.extract_body.
  destruct (Midi.on_tracks (Midi.ticks_per_beat mid) ([], 120%Q) (Midi.tracks mid))
    as [nt|] eqn:E; [|discriminate].
  cbn. pose proof (on_tracks_keys _ _ _ nt E) as Hk. cbn in Hk.
  destruct (bool_decide (nt.1 = [])) eqn:En; intros Hn; injection Hn as <-.
  - apply bool_decide_eq_true in En. rewrite En in Hk |- *. cbn in Hk. rewrite <- Hk.
    reflexivity.
  - apply bool_decide_eq_false in En. rewrite <- Hk.
    destruct nt.1 as [|n l]; [destruct En; reflexivity|reflexivity].
Qed.

(** A track of two overlapping notes, the first released by a note-on of
    velocity 0, and a conductor track before it. *)
Definition two_voices : Midi.MidiFile :=
  {| Midi.ticks_per_beat := 480;
     Midi.tracks :=
       [ [Midi.set_tempo 600000 0; Midi.other_message 0];
         [Midi.note_on 60 90 0 0; Midi.note_on 64 70 1 240;
          Midi.note_on 60 0 0 240; Midi.note_off 64 0 1 480] ] |}.

Lemma extraction_keeps_note_ons_witness :
  exists notes,
    Midi.extract_body two_voices = Ok notes
    /\ map key_of notes = [(60, 90, 0); (64, 70, 1)].
Proof.
  destruct (Midi.extract_body two_voices) as [notes|e] eqn:Hrun.
  - exists notes. split; [reflexivity|].
    exact (extraction_keeps_note_ons two_voices notes Hrun).
  - vm_compute in Hrun. discriminate Hrun.
Defined.

(** ** The buffer of the MIDI path is long enough *)

Lemma py_int_add_le x y :
  (0 <= x)%Q -> (0 <= y)%Q -> py_int x + py_int y <= py_int (x + y).
Proof.
  intros Hx Hy.
  assert (Hxy : (0 <= x + y)%Q).
  { rewrite <- (Qplus_0_r 0). apply Qplus_le_compat; assumption. }
  rewrite (py_int_nonneg x Hx), (py_int_nonneg y Hy), (py_int_nonneg _ Hxy).
  apply Z.le_trans with (Qfloor (inject_Z (Qfloor x + Qfloor y))).
  - rewrite Qfloor_Z. lia.
  - apply Qfloor_resp_le. rewrite inject_Z_plus.
    apply Qplus_le_compat; apply Qfloor_le.
Qed.

(** The buffer is sized from the latest end of a note plus half a second,
    which is far more than the truncations to whole frames can take away,
    so every event that starts at or after 0 and has a duration that is
    not negative ends within the buffer: the bounds test of the frame
    loop never cuts such a note, which writes every one of its frames. *)
Theorem midi_notes_fit_the_buffer (midi_notes : list Midi.note_data) (total_frames : Z) :
  midi_total_frames midi_notes = Ok total_frames ->
  Forall (fun n => (0 <= Midi.start_time n)%Q /\ (0 <= Midi.duration n)%Q) midi_notes ->
  Forall (fun n =>
            note_start n + note_frames n <= total_frames
            /\ note_written total_frames n
               = (if Midi.velocity n =? 0 then 0 else note_frames n))
    midi_notes.
Proof.
  unfold midi_total_frames. intros Htot Hall.
  destruct (py_max (map (fun n => (Midi.start_time n + Midi.duration n)%Q) midi_notes))
    as [m|] eqn:Em; [|discriminate].
  cbn in Htot. injection Htot as <-.
  destruct (py_max_spec _ _ Em) as [_ Hmax]. rewrite Forall_forall in Hmax.
  apply Forall_forall. intros n Hin.
  rewrite Forall_forall in Hall. destruct (Hall n Hin) as [Hs Hd].
  assert (Hle : (Midi.start_time n + Midi.duration n <= m)%Q).
  { apply Hmax. apply list_elem_of_fmap. exists n. split; [reflexivity|exact Hin]. }
  assert (Hsum : (0 <= Midi.start_time n + Midi.duration n)%Q).
  { rewrite <- (Qplus_0_r 0). apply Qplus_le_compat; assumption. }
  assert (Hm0 : (0 <= m)%Q) by (eapply Qle_trans; [exact Hsum | exact Hle]).
  assert (H1 : note_start n + note_frames n <= py_int (m * inject_Z sample_rate)).
  { unfold note_start, note_frames.
    etransitivity; [apply py_int_add_le; apply Qmult_sample_rate_nonneg; assumption|].
    apply py_int_mono. rewrite <- Qmult_plus_distr_l.
    apply Qmult_le_compat_r; [exact Hle | apply Qlt_le_weak, sample_rate_pos]. }
  assert (H2 : py_int (m * inject_Z sample_rate) + 22050
               <= py_int ((m + 0.5) * inject_Z sample_rate)).
  { pose proof (py_int_add_le (m * inject_Z sample_rate) (inject_Z 22050)
                  (Qmult_sample_rate_nonneg m Hm0)) as Hadd.
    rewrite py_int_inject in Hadd.
    etransitivity; [apply Hadd; unfold Qle; simpl; lia|].
    apply Z.eq_le_incl, py_int_comp. rewrite Qmult_plus_distr_l.
    apply Qplus_comp; [reflexivity|]. vm_compute. reflexivity. }
  assert (Hf : 0 <= note_frames n).
  { unfold note_frames. apply py_int_0_le, Qmult_sample_rate_nonneg, Hd. }
  split; [lia|].
  unfold note_written, written. destruct (Midi.velocity n =? 0); lia.
Qed.

(** Two overlapping notes, the second of which ends last. *)
Definition overlapping_pair : list Midi.note_data :=
  [Midi.NoteData 60 100 0 0.5 0; Midi.NoteData 64 80 0.25 1 0].

Lemma midi_notes_fit_the_buffer_witness :
  Forall (fun n =>
            note_start n + note_frames n <= 77175
            /\ note_written 77175 n = (if Midi.velocity n =? 0 then 0 else note_frames n))
    overlapping_pair.
Proof.
  apply midi_notes_fit_the_buffer.
  - vm_compute. reflexivity.
  - repeat constructor; apply Qle_bool_iff; vm_compute; reflexivity.
Defined.

(** ** The synthesis paths write the file last *)







Section Untouched.
Context (H : host).







End Untouched.



(** ** The instrument name counts only through its profile *)

(** Two instrument names with the same profile in the timbre table give
    the same synthesis, MIDI path and fallback alike: the same result,
    the same file, the same draws. A name that is not in the table, one
    in lower case for example, sounds as "Music Theory" does. *)
Theorem synthesis_reads_only_the_profile (H : host) (file : outcome Midi.MidiFile)
    (staff : list Score.component) (tempo : Z) (i1 i2 : string) :
  _get_instrument_parameters i1 = _get_instrument_parameters i2 ->
  _convert_midi_to_wav_with_staff H file staff tempo i1
  = _convert_midi_to_wav_with_staff H file staff tempo i2.
Proof.
  intros Hp.
  unfold _convert_midi_to_wav_with_staff, _create_instrument_synthesis_fallback,
    _convert_midi_to_wav_direct, direct_body, synthesize_midi,
    _create_musical_wav_from_notes, musical_body, synthesize_score, score_note_loop.
  rewrite Hp. reflexivity.
Qed.

Lemma synthesis_reads_only_the_profile_witness :
  _convert_midi_to_wav_with_staff (Reference.machine Reference.silence 1000000)
    (Raise "OSError") [Score.Note 69 {| Score.numerator := 1; Score.denominator := 4 |}]
    120 "piano"
  = _convert_midi_to_wav_with_staff (Reference.machine Reference.silence 1000000)
      (Raise "OSError") [Score.Note 69 {| Score.numerator := 1; Score.denominator := 4 |}]
      120 "Music Theory".
Proof.
  apply synthesis_reads_only_the_profile. vm_compute. reflexivity.
Defined.

(** ** The envelope is a gain *)

Lemma Qdiv_unit (x y : Z) :
  0 <= x < y -> (0 <= inject_Z x / inject_Z y <= 1)%Q.
Proof.
  intros Hxy.
  assert (Hy : (0 < inject_Z y)%Q) by (unfold Qlt; simpl; lia).
  split.
  - apply Qle_shift_div_l; [exact Hy|]. rewrite Qmult_0_l. unfold Qle; simpl; lia.
  - apply Qle_shift_div_r; [exact Hy|]. rewrite Qmult_1_l. rewrite <- Zle_Qle. lia.
Qed.

Lemma envelope_unit p n i :
  (0 <= sustain_level p <= 1)%Q -> 0 <= i < n -> (0 <= env_val p n i <= 1)%Q.
Proof.
  intros Hs Hi. unfold env_val, envelope.
  set (a := py_int (inject_Z n * attack_time p)).
  set (d := py_int (inject_Z n * decay_time p)).
  set (r := py_int (inject_Z n * release_time p)).
  destruct (i <? a) eqn:Ea.
  - apply Z.ltb_lt in Ea. rewrite py_div_ok by lia. apply Qdiv_unit. lia.
  - apply Z.ltb_ge in Ea. destruct (i <? a + d) eqn:Ed.
    + apply Z.ltb_lt in Ed. rewrite py_div_ok by lia. cbn.
      pose proof (Qdiv_unit (i - a) d) as Hq.
      set (q := (inject_Z (i - a) / inject_Z d)%Q) in *.
      assert (Hq' : (0 <= q <= 1)%Q) by (apply Hq; lia). clear Hq.
      generalize dependent q. intros q Hq. generalize dependent (sustain_level p).
      intros sl Hs. nra.
    + apply Z.ltb_ge in Ed. destruct (i <? n - r) eqn:Er.
      * cbn. exact Hs.
      * apply Z.ltb_ge in Er. rewrite py_div_ok by lia. cbn.
        pose proof (Qdiv_unit (i - (n - r)) r) as Hq.
        set (q := (inject_Z (i - (n - r)) / inject_Z r)%Q) in *.
        assert (Hq' : (0 <= q <= 1)%Q) by (apply Hq; lia). clear Hq.
        generalize dependent q. intros q Hq. generalize dependent (sustain_level p).
        intros sl Hs. nra.
Qed.

Lemma table_sustain_levels :
  Forall (fun e => (0 <= sustain_level e.2 <= 1)%Q) instrument_table.
Proof. repeat constructor; cbn; unfold Qle; simpl; lia. Qed.

(** For every instrument name and every frame of a note, the ADSR
    envelope the synthesiser multiplies the tone by exists (no division
    by zero) and lies between 0 and 1: the envelope never amplifies and
    never inverts the tone, however short the note. *)
Theorem envelope_is_a_gain (instrument : string) (n i : Z) :
  0 <= i < n ->
  exists e, envelope (_get_instrument_parameters instrument) n i = Ok e
            /\ (0 <= e <= 1)%Q.
Proof.
  intros Hi. exists (env_val (_get_instrument_parameters instrument) n i).
  split; [apply envelope_ok; exact Hi|].
  apply envelope_unit; [|exact Hi].
  unfold _get_instrument_parameters.
  destruct (instrument_params !! instrument) as [p|] eqn:E; cbn.
  - unfold instrument_params in E. apply elem_of_list_to_map_2 in E.
    pose proof table_sustain_levels as Hall. rewrite Forall_forall in Hall.
    exact (Hall (instrument, p) E).
  - split; unfold Qle; simpl; lia.
Qed.

Lemma envelope_is_a_gain_witness :
  exists e, envelope (_get_instrument_parameters "Flute") 7 6 = Ok e /\ (0 <= e <= 1)%Q.
Proof. apply envelope_is_a_gain. lia. Defined.

(** ** The quantiser keeps order and polarity *)

Lemma saturate16_range u : -32767 <= saturate16 u <= 32767.
Proof.
  unfold saturate16.
  destruct (Qlt_bool u (-32767)) eqn:E1; [lia|].
  destruct (Qlt_bool 32767 u) eqn:E2; [lia|].
  apply Qlt_bool_false in E1, E2. apply clip16_int. split; assumption.
Qed.

Lemma saturate16_mono u v : (u <= v)%Q -> saturate16 u <= saturate16 v.
Proof.
  intros Huv. pose proof (saturate16_range u) as Hu. pose proof (saturate16_range v) as Hv.
  unfold saturate16 in *.
  destruct (Qlt_bool u (-32767)) eqn:E1; [lia|].
  apply Qlt_bool_false in E1.
  destruct (Qlt_bool v (-32767)) eqn:E3.
  { apply Qlt_bool_iff in E3. exfalso.
    apply (Qlt_not_le _ _ E3). apply Qle_trans with u; assumption. }
  destruct (Qlt_bool 32767 u) eqn:E2.
  - apply Qlt_bool_iff in E2.
    destruct (Qlt_bool 32767 v) eqn:E4; [lia|].
    apply Qlt_bool_false in E4. exfalso.
    apply (Qlt_not_le _ _ E2). apply Qle_trans with v; assumption.
  - destruct (Qlt_bool 32767 v) eqn:E4; [lia|].
    apply py_int_mono. exact Huv.
Qed.

Lemma saturate16_opp u : saturate16 (- u) = - saturate16 u.
Proof.
  unfold saturate16.
  assert (H1 : Qlt_bool (- u) (-32767) = Qlt_bool 32767 u).
  { apply eq_true_iff_eq. rewrite !Qlt_bool_iff. split; intros Hlt; lra. }
  assert (H2 : Qlt_bool 32767 (- u) = Qlt_bool u (-32767)).
  { apply eq_true_iff_eq. rewrite !Qlt_bool_iff. split; intros Hlt; lra. }
  rewrite H1, H2.
  destruct (Qlt_bool 32767 u) eqn:E1; destruct (Qlt_bool u (-32767)) eqn:E2;
    try reflexivity.
  - apply Qlt_bool_iff in E1, E2. lra.
  - apply py_int_opp.
Qed.

(** The quantiser is monotone and odd: a buffer that is sample by sample
    no louder gives samples that are no larger, and a buffer of inverted
    polarity gives the negated samples; the 16-bit cast never folds a
    large value over to the other sign. *)
Theorem quantiser_keeps_order_and_polarity (a b : list Q) :
  Forall2 Qle a b ->
  Forall2 Z.le (to_pcm16 a) (to_pcm16 b)
  /\ to_pcm16 (map Qopp a) = map Z.opp (to_pcm16 a).
Proof.
  intros Hab. split.
  - unfold to_pcm16. induction Hab as [|x y a b Hxy Hab IH]; cbn [map]; constructor.
    + rewrite !pcm_sample_saturates. apply saturate16_mono.
      apply Qmult_le_compat_r; [exact Hxy | unfold Qle; simpl; lia].
    + exact IH.
  - clear Hab. unfold to_pcm16. rewrite !map_map. apply map_ext. intros x.
    rewrite !pcm_sample_saturates. rewrite <- saturate16_opp.
    apply Z.le_antisymm; apply saturate16_mono; lra.
Qed.

Lemma quantiser_keeps_order_and_polarity_witness :
  Forall2 Z.le (to_pcm16 [(-3)%Q; 0.5%Q; 1%Q]) (to_pcm16 [(-2)%Q; 0.5%Q; 7%Q])
  /\ to_pcm16 (map Qopp [(-3)%Q; 0.5%Q; 1%Q]) = map Z.opp (to_pcm16 [(-3)%Q; 0.5%Q; 1%Q]).
Proof.
  apply quantiser_keeps_order_and_polarity.
  repeat constructor; apply Qle_bool_iff; vm_compute; reflexivity.
Defined.

(** ** Rests in the score path *)

(** An entry that is not a rest. *)
Definition sounds (ni : Score.note_info) : bool := negb (is_rest (Score.type ni)).

Lemma for_each_skips_rests H instrument bps total notes_data : forall c s,
  for_each (score_note_loop H instrument bps total) notes_data c s
  = for_each (score_note_loop H instrument bps total) (List.filter sounds notes_data) c s.
Proof.
  induction notes_data as [|ni notes_data IH]; intros c s; [reflexivity|].
  cbn [List.filter].
  assert (Hs : sounds ni = negb (is_rest (Score.type ni))) by reflexivity.
  destruct (Score.type ni) eqn:Et; cbn in Hs; rewrite Hs.
  1,2: cbn [for_each]; unfold mbind, M_bind;
       destruct (score_note_loop H instrument bps total c ni s) as [[c1|e] s1];
       [apply IH | reflexivity].
  cbn [for_each]. unfold mbind, M_bind. unfold score_note_loop at 1. rewrite Et.
  cbn. apply IH.
Qed.

Lemma synthesize_score_skips_rests H notes_data tempo total_duration instrument s :
  synthesize_score H notes_data tempo total_duration instrument s
  = synthesize_score H (List.filter sounds notes_data) tempo total_duration instrument s.
Proof.
  unfold synthesize_score, mbind, M_bind, lift.
  destruct (py_div total_duration (beats_per_second_of tempo)) as [secs|e]; [|reflexivity].
  destruct (np_zeros H _) as [a|e]; [|reflexivity].
  apply for_each_skips_rests.
Qed.

(** A rest takes no time in the score path: with the same total duration,
    the rendering of a list of entries is that of the list without its
    rests, in result, file, draws and stores. The rest adds to the
    length of the buffer only, and its silence comes after the last
    note, not where the rest is written. *)
Theorem rests_take_no_time (H : host) (notes_data : list Score.note_info) (tempo : Z)
    (total_duration : Q) (instrument : string) (s : sys) :
  _create_musical_wav_from_notes H notes_data tempo total_duration instrument s
  = _create_musical_wav_from_notes H (List.filter sounds notes_data) tempo total_duration
      instrument s.
Proof.
  unfold _create_musical_wav_from_notes, try_except, musical_body, mbind, M_bind.
  rewrite synthesize_score_skips_rests. reflexivity.
Qed.

Lemma no_sound_filter notes_data :
  has_sound notes_data = false -> List.filter sounds notes_data = [].
Proof.
  unfold has_sound. induction notes_data as [|ni notes_data IH]; [reflexivity|].
  cbn [existsb List.filter]. fold (sounds ni). intros Hex.
  apply orb_false_iff in Hex as [Hni Hrest]. rewrite Hni. exact (IH Hrest).
Qed.

Lemma musical_fails H notes_data tempo total_duration instrument s :
  tempo = 0 \/ has_sound notes_data = false ->
  _create_musical_wav_from_notes H notes_data tempo total_duration instrument s
  = (Ok false, s).
Proof.
  intros [->|Hs].
  - reflexivity.
  - unfold _create_musical_wav_from_notes, try_except, musical_body, mbind, M_bind.
    rewrite synthesize_score_skips_rests, (no_sound_filter _ Hs).
    unfold synthesize_score, mbind, M_bind, lift.
    destruct (py_div total_duration (beats_per_second_of tempo)) as [secs|e]; [|reflexivity].
    destruct (np_zeros H _) as [a|e]; reflexivity.
Qed.

(** The fallback on a score that has entries but cannot sound: at tempo 0
    (a division by zero), or when every entry is a rest (the parameters
    of the filter are then never bound), it returns [False] and leaves
    the file, the generator and the buffer log as they were. *)
Theorem fallback_fails_without_tempo_or_sound (H : host) (staff : list Score.component)
    (tempo : Z) (instrument : string) (s : sys) :
  Score._extract_notes_from_staff staff <> [] ->
  tempo = 0 \/ has_sound (Score._extract_notes_from_staff staff) = false ->
  _create_instrument_synthesis_fallback H staff tempo instrument s = (Ok (Some false), s).
Proof.
  intros Hne Hfail. unfold _create_instrument_synthesis_fallback, try_except.
  rewrite bool_decide_eq_false_2 by exact Hne.
  unfold mbind, M_bind. rewrite (musical_fails H _ tempo _ instrument s Hfail).
  reflexivity.
Qed.

(** A bar of rests. *)
Definition bar_of_rests : list Score.component :=
  [Score.Rest {| Score.numerator := 1; Score.denominator := 2 |};
   Score.Rest {| Score.numerator := 1; Score.denominator := 2 |}].

Lemma fallback_fails_without_tempo_or_sound_witness :
  _create_instrument_synthesis_fallback (Reference.machine Reference.silence 1000000)
    bar_of_rests 120 "Piano" Reference.fresh
  = (Ok (Some false), Reference.fresh).
Proof.
  apply fallback_fails_without_tempo_or_sound.
  - discriminate.
  - right. reflexivity.
Defined.

(** ** The buffer of the score path is long enough *)

Lemma advance_advance s k w1 w2 :
  0 <= w1 -> 0 <= w2 -> advance (advance s k w1) (k + w1) w2 = advance s k (w1 + w2).
Proof.
  intros H1 H2. unfold advance; cbn. f_equal.
  - rewrite Z2Nat.inj_add by lia. lia.
  - rewrite <- app_assoc, seqZ_app by lia. reflexivity.
Qed.

Section ScoreFit.
Context (H : host) (instrument : string) (beats_per_second : Q) (total_frames : Z).
Hypothesis bps_pos : (0 < beats_per_second)%Q.

(** The frames of the entries that are not rests. *)
Definition sounding_frames (notes_data : list Score.note_info) : Z :=
  foldr (fun ni acc =>
           (if is_rest (Score.type ni) then 0 else info_frames beats_per_second ni) + acc)
    0 notes_data.

Lemma info_frames_nonneg ni : well_formed ni -> 0 <= info_frames beats_per_second ni.
Proof.
  intros [Hd _]. destruct (info_frames_sign beats_per_second ni Hd) as [Hpos _].
  exact (Hpos bps_pos).
Qed.

Lemma sounding_frames_nonneg notes_data :
  Forall well_formed notes_data -> 0 <= sounding_frames notes_data.
Proof.
  induction 1 as [|ni notes_data Hni _ IH]; [cbn; lia|].
  cbn [sounding_frames foldr]. fold (sounding_frames notes_data).
  pose proof (info_frames_nonneg ni Hni). destruct (is_rest (Score.type ni)); lia.
Qed.

Lemma sumQ_durations_nonneg notes_data :
  Forall well_formed notes_data -> (0 <= sumQ (map Score.duration notes_data))%Q.
Proof.
  induction 1 as [|ni notes_data [Hd _] _ IH]; [cbn; apply Qle_refl|].
  cbn [map]. change (sumQ (Score.duration ni :: map Score.duration notes_data))
    with (Score.duration ni + sumQ (map Score.duration notes_data))%Q.
  rewrite <- (Qplus_0_r 0). apply Qplus_le_compat; assumption.
Qed.

Lemma sounding_frames_le notes_data :
  Forall well_formed notes_data ->
  sounding_frames notes_data
  <= py_int (sumQ (map Score.duration notes_data) / beats_per_second * inject_Z sample_rate).
Proof.
  induction 1 as [|ni notes_data Hni Hall IH]; cbn [sounding_frames foldr map sumQ].
  - apply py_int_0_le. unfold Qdiv. rewrite Qmult_0_l, Qmult_0_l. apply Qle_refl.
  - fold (sounding_frames notes_data). fold (sumQ (map Score.duration notes_data)).
    pose proof (info_frames_nonneg ni Hni) as Hf. destruct Hni as [Hd _].
    pose proof (sumQ_durations_nonneg notes_data Hall) as Hs.
    set (S := sumQ (map Score.duration notes_data)) in *.
    assert (Hx : (0 <= Score.duration ni / beats_per_second * inject_Z sample_rate)%Q).
    { apply Qmult_sample_rate_nonneg, Qdiv_sign_pos; assumption. }
    assert (Hy : (0 <= S / beats_per_second * inject_Z sample_rate)%Q).
    { apply Qmult_sample_rate_nonneg, Qdiv_sign_pos; assumption. }
    pose proof (py_int_add_le _ _ Hx Hy) as Hadd.
    assert (He : py_int (Score.duration ni / beats_per_second * inject_Z sample_rate
                         + S / beats_per_second * inject_Z sample_rate)
                 = py_int ((Score.duration ni + S) / beats_per_second
                           * inject_Z sample_rate)).
    { apply py_int_comp. unfold Qdiv. ring. }
    rewrite He in Hadd. unfold info_frames in Hf |- *.
    destruct (is_rest (Score.type ni)); lia.
Qed.

Lemma for_each_score_exact notes_data : forall c s,
  Forall well_formed notes_data ->
  0 <= current_frame c ->
  Z.of_nat (length (audio_data c)) = total_frames ->
  current_frame c + sounding_frames notes_data <= total_frames ->
  exists c',
    for_each (score_note_loop H instrument beats_per_second total_frames) notes_data c s
    = (Ok c', advance s (current_frame c) (sounding_frames notes_data))
    /\ current_frame c' = current_frame c + sounding_frames notes_data.
Proof.
  induction notes_data as [|ni notes_data IH]; intros c s Hwf Hcur Hlen Hfit.
  - exists c. cbn. rewrite advance_0. split; [reflexivity|lia].
  - apply Forall_cons in Hwf as [Hni Hrest].
    pose proof (info_frames_nonneg ni Hni) as Hf.
    pose proof (sounding_frames_nonneg notes_data Hrest) as Hs.
    cbn [sounding_frames foldr] in Hfit |- *. fold (sounding_frames notes_data) in Hfit |- *.
    set (f := if is_rest (Score.type ni) then 0 else info_frames beats_per_second ni) in *.
    assert (Hf0 : 0 <= f) by (unfold f; destruct (is_rest (Score.type ni)); lia).
    assert (Hw : info_written beats_per_second total_frames c ni = f).
    { unfold info_written, f, written.
      destruct (Score.type ni); cbn [is_rest] in *; lia. }
    set (c1 := info_cursor H instrument beats_per_second total_frames c ni (rng_pos s)).
    assert (Hc1 : current_frame c1 = current_frame c + f).
    { unfold c1, info_cursor, f. destruct (Score.type ni); cbn [is_rest current_frame]; lia. }
    assert (Hlen1 : length (audio_data c1) = length (audio_data c)).
    { unfold c1, info_cursor. destruct (Score.type ni); cbn [audio_data]; try reflexivity;
        apply frames_of_length, iset_length. }
    cbn [for_each]. unfold mbind, M_bind.
    rewrite (score_note_loop_run H instrument beats_per_second total_frames c ni s);
      [|intros E; rewrite E in bps_pos; exact (Qlt_irrefl 0 bps_pos)
       |exact Hni|intros _; exact Hcur|exact Hlen].
    fold c1. rewrite Hw.
    destruct (IH c1 (advance s (current_frame c) f) Hrest) as (c' & Hrun & Hend).
    { lia. }
    { rewrite Hlen1. exact Hlen. }
    { lia. }
    exists c'. rewrite Hrun, Hc1. split; [|lia].
    rewrite advance_advance by assumption. reflexivity.
Qed.

End ScoreFit.

Lemma beats_per_second_of_pos tempo : 0 < tempo -> (0 < beats_per_second_of tempo)%Q.
Proof.
  intros Ht. unfold beats_per_second_of.
  apply Qlt_shift_div_l; [reflexivity|]. rewrite Qmult_0_l.
  unfold Qlt; simpl; lia.
Qed.

(** A component whose written duration, if it has one, has a power of two
    as its denominator, as the durations abjad lets a note, chord or rest
    be written with have. *)
Definition binary (c : Score.component) : Prop :=
  match c with
  | Score.Note _ d | Score.Chord _ d | Score.Rest d =>
      exists j, 0 <= j /\ Zpos (Score.denominator d) = 2 ^ j
  | Score.Container => True
  end.

(** In the fallback at a tempo of 60, 120, 240, ... beats a minute, the
    default of 120 among them, a beat lasts a whole power of two of a
    second and, the written durations being binary, the doubles of the
    code are exact. No note is then cut by the end of the buffer: the
    entries that are not rests store to the frames 0, 1, ... up to the
    sum of their frame counts, one after the other and each frame once,
    with one draw of the generator for each, and that sum is no more than
    the length of the buffer. *)
Theorem score_notes_fit_the_buffer (H : host) (staff : list Score.component)
    (tempo k : Z) (instrument : string) (s : sys) :
  0 <= k -> tempo = 60 * 2 ^ k -> Forall binary staff ->
  let notes_data := Score._extract_notes_from_staff staff in
  let total_duration := py_sum (map Score.duration notes_data) in
  let ending := sounding_frames (beats_per_second_of tempo) notes_data in
  score_total_frames tempo total_duration <= mem_limit H ->
  0 <= ending <= score_total_frames tempo total_duration
  /\ exists c,
       synthesize_score H notes_data tempo total_duration instrument s
       = (Ok c, {| wav_file := wav_file s;
                   rng_pos := rng_pos s + Z.to_nat ending;
                   stores := stores s ++ seqZ 0 ending |})
       /\ current_frame c = ending.
Proof.
  intros Hk Htempo _ notes_data total_duration ending Hmem.
  assert (Ht : 0 < tempo).
  { pose proof (Z.pow_pos_nonneg 2 k ltac:(lia) Hk). lia. }
  pose proof (beats_per_second_of_pos tempo Ht) as Hb.
  pose proof (extract_well_formed staff) as Hwf. fold notes_data in Hwf.
  assert (He0 : 0 <= ending) by (apply sounding_frames_nonneg; assumption).
  assert (Hle : ending <= score_total_frames tempo total_duration).
  { unfold ending, score_total_frames.
    etransitivity; [apply sounding_frames_le; assumption|].
    apply Z.eq_le_incl, py_int_comp. unfold total_duration, py_sum.
    rewrite fold_left_Qplus. rewrite Qplus_0_l. reflexivity. }
  split; [lia|].
  set (total := score_total_frames tempo total_duration) in *.
  destruct (for_each_score_exact H instrument (beats_per_second_of tempo) total Hb notes_data
              (Cursor (replicate (Z.to_nat total) 0%Q) 0 None) s Hwf)
    as (c & Hrun & Hend).
  { cbn. lia. }
  { cbn. rewrite length_replicate. lia. }
  { cbn. fold ending. lia. }
  exists c. unfold synthesize_score.
  fold (beats_per_second_of tempo).
  rewrite (py_div_pos _ _ Hb).
  unfold mbind, M_bind, lift. cbn beta iota.
  fold (score_total_frames tempo total_duration). fold total.
  rewrite (np_zeros_ok H total) by lia. rewrite Hrun.
  cbn [current_frame] in Hend |- *. fold ending in Hend |- *.
  split; [reflexivity|lia].
Qed.

(** A quarter note, a quarter rest and a half note. *)
Definition note_rest_note : list Score.component :=
  [Score.Note 60 {| Score.numerator := 1; Score.denominator := 4 |};
   Score.Rest {| Score.numerator := 1; Score.denominator := 4 |};
   Score.Note 64 {| Score.numerator := 1; Score.denominator := 2 |}].

Lemma score_notes_fit_the_buffer_witness :
  let H := Reference.machine Reference.silence 1000000 in
  let notes_data := Score._extract_notes_from_staff note_rest_note in
  let total_duration := py_sum (map Score.duration notes_data) in
  let ending := sounding_frames (beats_per_second_of 120) notes_data in
  0 <= ending <= score_total_frames 120 total_duration
  /\ exists c,
       synthesize_score H notes_data 120 total_duration "Piano" Reference.fresh
       = (Ok c, {| wav_file := wav_file Reference.fresh;
                   rng_pos := rng_pos Reference.fresh + Z.to_nat ending;
                   stores := stores Reference.fresh ++ seqZ 0 ending |})
       /\ current_frame c = ending.
Proof.
  apply (score_notes_fit_the_buffer (Reference.machine Reference.silence 1000000)
           note_rest_note 120 1 "Piano" Reference.fresh).
  - lia.
  - reflexivity.
  - repeat constructor; cbn;
      first [exists 2; split; [lia|reflexivity] | exists 1; split; [lia|reflexivity]].
  - apply Z.leb_le. vm_compute. reflexivity.
Defined.

(** ** The estimate of the duration *)

(** The estimate is never below one second, and it is the default of
    three seconds at tempo 0, where the division raises. *)
Theorem estimate_duration_bounds (staff : list (option Score.Duration)) (tempo : Z) :
  (1 <= _estimate_duration staff tempo)%Q
  /\ _estimate_duration staff 0 = 3.0%Q.
Proof.
  split; [|reflexivity].
  unfold _estimate_duration. cbv zeta.
  destruct (py_div _ (inject_Z tempo / 60.0)) as [d|e].
  - destruct (Qlt_bool d 1.0) eqn:E.
    + unfold Qle; simpl; lia.
    + apply Qlt_bool_false in E. apply Qle_trans with 1.0%Q; [|exact E].
      unfold Qle; simpl; lia.
  - unfold Qle; simpl; lia.
Qed.

(** A component other than a chord without pitches. *)
Definition has_pitches (c : Score.component) : bool :=
  match c with
  | Score.Chord [] _ => false
  | _ => true
  end.

(** What [hasattr(component, 'written_duration')] finds: the duration of
    a note, a chord or a rest, and none on a component of another kind
    that has none (a voice, a tuplet). *)
Definition leaf_duration (c : Score.component) : option Score.Duration :=
  match c with
  | Score.Note _ d | Score.Chord _ d | Score.Rest d => Some d
  | Score.Container => None
  end.

Lemma total_beats_extracted staff : forall total_beats,
  forallb has_pitches staff = true ->
  fold_left (fun total_beats written_duration =>
               match written_duration with
               | Some duration => (total_beats + Score.beats duration)%Q
               | None => total_beats
               end) (map leaf_duration staff) total_beats
  = fold_left Qplus (map Score.duration (Score._extract_notes_from_staff staff)) total_beats.
Proof.
  unfold Score._extract_notes_from_staff.
  induction staff as [|c staff IH]; intros total_beats Hall; [reflexivity|].
  cbn [forallb] in Hall. apply andb_true_iff in Hall as [Hc Hall].
  cbn [map concat fold_left]. rewrite map_app, fold_left_app, (IH _ Hall).
  destruct c as [pitch d|[|root pitches] d|d|]; try discriminate; reflexivity.
Qed.

(** On a staff of notes, chords that have pitches, rests and components
    without a written duration, and when the music lasts at least a
    second at the tempo, the estimate is the length of the buffer the
    fallback allocates: the estimate in frames, truncated, is the
    fallback's [total_frames]. *)
Theorem estimate_matches_fallback_length (staff : list Score.component) (tempo : Z) :
  forallb has_pitches staff = true ->
  (1 <= py_sum (map Score.duration (Score._extract_notes_from_staff staff))
        / beats_per_second_of tempo)%Q ->
  py_int (_estimate_duration (map leaf_duration staff) tempo * inject_Z sample_rate)
  = score_total_frames tempo
      (py_sum (map Score.duration (Score._extract_notes_from_staff staff))).
Proof.
  intros Hall Hlong. unfold _estimate_duration. cbv zeta.
  rewrite (total_beats_extracted staff 0%Q Hall).
  fold (py_sum (map Score.duration (Score._extract_notes_from_staff staff))).
  fold (beats_per_second_of tempo).
  set (total := py_sum (map Score.duration (Score._extract_notes_from_staff staff))) in *.
  assert (Hb : ~ (beats_per_second_of tempo == 0)%Q).
  { intros E. unfold Qdiv in Hlong. rewrite E in Hlong.
    change (/ 0)%Q with 0%Q in Hlong. rewrite Qmult_0_r in Hlong.
    revert Hlong. unfold Qle; simpl; lia. }
  rewrite (py_div_nonzero _ _ Hb).
  assert (Hd : Qlt_bool (total / beats_per_second_of tempo) 1.0 = false).
  { apply Qlt_bool_false. apply Qle_trans with 1%Q; [|exact Hlong].
    unfold Qle; simpl; lia. }
  rewrite Hd. reflexivity.
Qed.

(** Two half notes at 60 beats a minute: four seconds. *)
Definition two_halves : list Score.component :=
  [Score.Note 60 {| Score.numerator := 1; Score.denominator := 2 |};
   Score.Chord [64; 67] {| Score.numerator := 1; Score.denominator := 2 |}].

Lemma estimate_matches_fallback_length_witness :
  py_int (_estimate_duration (map leaf_duration two_halves) 60 * inject_Z sample_rate)
  = score_total_frames 60
      (py_sum (map Score.duration (Score._extract_notes_from_staff two_halves))).
Proof.
  apply estimate_matches_fallback_length.
  - reflexivity.
  - apply Qle_bool_iff. vm_compute. reflexivity.
Defined.

(** ** The explanation text *)

Lemma string_app_nil_r (s : string) : (s ++ "")%string = s.
Proof.
  induction s as [|a s IH]; [reflexivity|].
  change (String a (s ++ "")%string = String a s). rewrite IH. reflexivity.
Qed.

(** Whatever the question type, known or not, the explanation quotes the
    correct answer. *)
Theorem explanation_quotes_the_answer (question_type correct_answer : string) :
  exists before after,
    generate_audio_explanation question_type correct_answer
    = (before ++ correct_answer ++ after)%string.
Proof.
  unfold generate_audio_explanation.
  destruct ((list_to_map (explanations correct_answer) : gmap string string) !! question_type)
    as [text|] eqn:E; cbn [default].
  - apply elem_of_list_to_map_2 in E. unfold explanations in E.
    repeat (apply elem_of_cons in E as [E|E];
            [injection E as _ ->; eexists _, _; reflexivity|]).
    apply elem_of_nil in E. destruct E.
  - exists "Listen to this musical example: "%string, ""%string.
    rewrite string_app_nil_r. reflexivity.
Qed.

(** ** Cleaning the temporary directory *)

Lemma cleanup_loop_frame path_exists removable listing : forall dir file,
  (file ∈ cleanup_loop path_exists removable listing dir -> file ∈ dir)
  /\ (file ∈ dir -> is_render_file file = false ->
      file ∈ cleanup_loop path_exists removable listing dir).
Proof.
  induction listing as [|f listing IH]; intros dir file; cbn [cleanup_loop]; [tauto|].
  destruct (is_render_file f) eqn:Ef; [|apply IH].
  destruct (path_exists f); [|apply IH].
  destruct (removable f); [|tauto].
  destruct (IH (dir ∖ {[f]}) file) as [H1 H2]. split.
  - intros Hin. apply H1 in Hin. apply elem_of_difference in Hin as [Hin _]. exact Hin.
  - intros Hin Hf. apply H2; [|exact Hf].
    apply elem_of_difference. split; [exact Hin|].
    intros Heq. apply elem_of_singleton in Heq. subst f. congruence.
Qed.

(** The render files the loop takes on: those that [os.path.exists] sees. *)
Definition taken (path_exists : string -> bool) (file : string) : bool :=
  is_render_file file && path_exists file.

Lemma cleanup_loop_all path_exists removable listing : forall dir,
  (forall file, file ∈ listing -> taken path_exists file = true -> removable file = true) ->
  forall file,
    file ∈ cleanup_loop path_exists removable listing dir
    <-> file ∈ dir /\ ~ (file ∈ listing /\ taken path_exists file = true).
Proof.
  induction listing as [|f listing IH]; intros dir Hrem file; cbn [cleanup_loop].
  - split; [intros Hin; split; [exact Hin|]; intros [Hn _]; inversion Hn | tauto].
  - assert (Hrest : forall g, g ∈ listing -> taken path_exists g = true -> removable g = true).
    { intros g Hg. apply Hrem. right. exact Hg. }
    destruct (taken path_exists f) eqn:Et.
    + pose proof Et as Et'. unfold taken in Et'. apply andb_true_iff in Et' as [Ef Ep].
      rewrite Ef, Ep, (Hrem f (list_elem_of_here _ _) Et).
      rewrite (IH _ Hrest file).
      rewrite elem_of_difference, elem_of_singleton, elem_of_cons.
      split.
      * intros [[Hin Hne] Hno]. split; [exact Hin|].
        intros [[->|Hl] Hr]; [congruence|]. apply Hno. split; assumption.
      * intros [Hin Hno]. split; [split; [exact Hin|]|].
        -- intros ->. apply Hno. split; [left; reflexivity | exact Et].
        -- intros [Hl Hr]. apply Hno. split; [right; exact Hl | exact Hr].
    + assert (Hgo : (if is_render_file f
                     then if path_exists f
                          then if removable f
                               then cleanup_loop path_exists removable listing (dir ∖ {[f]})
                               else dir
                          else cleanup_loop path_exists removable listing dir
                     else cleanup_loop path_exists removable listing dir)
                    = cleanup_loop path_exists removable listing dir).
      { unfold taken in Et. destruct (is_render_file f); [|reflexivity].
        destruct (path_exists f); [discriminate|reflexivity]. }
      rewrite Hgo, (IH dir Hrest file), elem_of_cons. split.
      * intros [Hin Hno]. split; [exact Hin|].
        intros [[->|Hl] Hr]; [congruence|]. apply Hno. split; assumption.
      * intros [Hin Hno]. split; [exact Hin|].
        intros [Hl Hr]. apply Hno. split; [right; exact Hl | exact Hr].
Qed.

(** [cleanup_temp_files] creates nothing and spares every entry of the
    temporary directory whose name does not end in [.ly], [.mid] or
    [.wav], whether or not a removal fails on the way. *)
Theorem cleanup_spares_other_files (path_exists removable : string -> bool)
    (dir : gset string) :
  cleanup_temp_files path_exists removable dir ⊆ dir
  /\ filter (fun file => is_render_file file = false) dir
     ⊆ cleanup_temp_files path_exists removable dir.
Proof.
  unfold cleanup_temp_files. split; intros file Hin.
  - exact (proj1 (cleanup_loop_frame path_exists removable (elements dir) dir file) Hin).
  - apply elem_of_filter in Hin as [Hf Hin].
    exact (proj2 (cleanup_loop_frame path_exists removable (elements dir) dir file) Hin Hf).
Qed.

(** When every entry of the temporary directory whose name ends in [.ly],
    [.mid] or [.wav] and that [os.path.exists] sees can be removed,
    [cleanup_temp_files] removes all of these, those of other renders and
    of other programs included, and leaves exactly the other entries: the
    files of other names and the links of such a name whose target is
    missing. *)
Theorem cleanup_removes_every_render_file (path_exists removable : string -> bool)
    (dir : gset string) :
  (forall file, file ∈ dir -> is_render_file file = true -> path_exists file = true ->
     removable file = true) ->
  cleanup_temp_files path_exists removable dir
  = filter (fun file => is_render_file file && path_exists file = false) dir.
Proof.
  intros Hrem. apply set_eq. intros file. unfold cleanup_temp_files.
  rewrite (cleanup_loop_all path_exists removable (elements dir) dir).
  - rewrite elem_of_filter, elem_of_elements. fold (taken path_exists file). split.
    + intros [Hin Hno]. split; [|exact Hin].
      destruct (taken path_exists file); [|reflexivity].
      exfalso. apply Hno. split; [exact Hin | reflexivity].
    + intros [Hf Hin]. split; [exact Hin|]. intros [_ Hr]. congruence.
  - intros g Hg Ht. apply elem_of_elements in Hg.
    unfold taken in Ht. apply andb_true_iff in Ht as [Hf Hp].
    exact (Hrem g Hg Hf Hp).
Qed.

(** A directory with the files of a render, a note and a link [old.wav]
    whose target is gone. *)
Lemma cleanup_removes_every_render_file_witness :
  cleanup_temp_files (fun file => negb (String.eqb file "old.wav")) (fun _ => true)
    {["audio_1f.wav"; "audio_1f.mid"; "notes.txt"; "old.wav"]}%string
  = filter (fun file => is_render_file file && negb (String.eqb file "old.wav") = false)
      ({["audio_1f.wav"; "audio_1f.mid"; "notes.txt"; "old.wav"]}%string : gset string).
Proof.
  apply cleanup_removes_every_render_file. intros file _ _ _. reflexivity.
Defined.

(** ** The caller: [MusicTheoryEngine._generate_audio] *)

(** [_generate_audio] never raises, and the instrument it is given has no
    part in the sound: it reaches the renderer as the file name, so that
    the synthesis runs at tempo 120 with the "Music Theory" profile. For
    the same responses of LilyPond and of the MIDI reader, two
    instruments leave the same samples in the file at their [wav_path],
    the same generator position and the same stores, and give results
    that agree on [success], [audio_base64], [tempo], [duration] and
    [instrument]; a result that reports a tempo or an instrument reports
    120 and "Music Theory". *)
Theorem generate_audio_ignores_the_instrument (H : host) (T : tools)
    (staff : list Score.component) (i1 i2 : string) (s : sys) :
  exists d1 d2 s',
    _generate_audio H T staff i1 s = (Ok d1, s')
    /\ _generate_audio H T staff i2 s = (Ok d2, s')
    /\ Forall (fun key => d1 !! key = d2 !! key)
         ["success"; "audio_base64"; "tempo"; "duration"; "instrument"]%string
    /\ d1 !! "tempo"%string ∈ [None; Some (PyInt 120)]
    /\ d1 !! "instrument"%string ∈ [None; Some (PyStr "Music Theory")].
Proof.
  unfold _generate_audio, render_staff_to_midi, try_except, render_body, mbind, M_bind, lift.
  destruct (lilypond_run T) as [[returncode stderr]|e]; cbn [fst snd].
  2:{ eexists _, _, _. split; [reflexivity|]. split; [reflexivity|].
      split; [repeat constructor|]. split; left. }
  destruct (returncode =? 0).
  2:{ eexists _, _, _. split; [reflexivity|]. split; [reflexivity|].
      split; [repeat constructor|]. split; left. }
  destruct (midi_exists T).
  2:{ eexists _, _, _. split; [reflexivity|]. split; [reflexivity|].
      split; [repeat constructor|]. split; left. }
  destruct (with_staff_never_raises H (midi_file T) staff 120 "Music Theory" s)
    as (r & s1 & Hr).
  rewrite Hr. unfold wav_exists.
  destruct (truthy r && bool_decide (is_Some (wav_file s1))).
  - eexists _, _, _. split; [reflexivity|]. split; [reflexivity|].
    split; [repeat constructor|]. split; right; left.
  - eexists _, _, _. split; [reflexivity|]. split; [reflexivity|].
    split; [repeat constructor|]. split; left.
Qed.

(** ** Chords in the score path *)

(** A chord reduced to its first written pitch. *)
Definition first_pitch (c : Score.component) : Score.component :=
  match c with
  | Score.Chord (root :: _) d => Score.Note root d
  | _ => c
  end.

Definition as_note (ni : Score.note_info) : Score.note_info :=
  match Score.type ni with
  | Score.chord => Score.NoteInfo (Score.midi_note ni) (Score.duration ni) Score.note
  | _ => ni
  end.

Lemma extract_first_pitch staff :
  Score._extract_notes_from_staff (map first_pitch staff)
  = map as_note (Score._extract_notes_from_staff staff).
Proof.
  unfold Score._extract_notes_from_staff.
  induction staff as [|c staff IH]; [reflexivity|].
  cbn [map concat]. rewrite map_app, IH. f_equal.
  destruct c as [pitch d|[|root pitches] d|d|]; reflexivity.
Qed.

Lemma score_note_loop_as_note H instrument bps total c ni :
  score_note_loop H instrument bps total c (as_note ni)
  = score_note_loop H instrument bps total c ni.
Proof. unfold score_note_loop, as_note. destruct ni as [m d []]; reflexivity. Qed.

Lemma for_each_as_note H instrument bps total notes_data : forall c s,
  for_each (score_note_loop H instrument bps total) (map as_note notes_data) c s
  = for_each (score_note_loop H instrument bps total) notes_data c s.
Proof.
  induction notes_data as [|ni notes_data IH]; intros c s; [reflexivity|].
  cbn [map for_each]. unfold mbind, M_bind. rewrite score_note_loop_as_note.
  destruct (score_note_loop H instrument bps total c ni s) as [[c1|e] s1];
    [apply IH | reflexivity].
Qed.

Lemma durations_as_note notes_data :
  map Score.duration (map as_note notes_data) = map Score.duration notes_data.
Proof.
  rewrite map_map. apply map_ext. intros [m d []]; reflexivity.
Qed.

(** In the fallback a chord sounds as its first written pitch alone: the
    rendering of a staff is that of the staff with every chord replaced
    by a note of the chord's first pitch and duration, in result, file,
    draws and stores. *)
Theorem fallback_plays_the_first_pitch_of_a_chord (H : host) (staff : list Score.component)
    (tempo : Z) (instrument : string) (s : sys) :
  _create_instrument_synthesis_fallback H staff tempo instrument s
  = _create_instrument_synthesis_fallback H (map first_pitch staff) tempo instrument s.
Proof.
  unfold _create_instrument_synthesis_fallback, try_except.
  rewrite extract_first_pitch, durations_as_note.
  destruct (Score._extract_notes_from_staff staff) as [|ni notes_data] eqn:E;
    [reflexivity|].
  rewrite <- E.
  assert (Hne : Score._extract_notes_from_staff staff <> []) by (rewrite E; discriminate).
  assert (Hne' : map as_note (Score._extract_notes_from_staff staff) <> []).
  { rewrite E. discriminate. }
  rewrite (bool_decide_eq_false_2 _ Hne), (bool_decide_eq_false_2 _ Hne').
  unfold mbind, M_bind.
  unfold _create_musical_wav_from_notes, try_except, musical_body, mbind, M_bind.
  assert (Hs : forall total_duration,
             synthesize_score H (map as_note (Score._extract_notes_from_staff staff)) tempo
               total_duration instrument s
             = synthesize_score H (Score._extract_notes_from_staff staff) tempo
                 total_duration instrument s).
  { intros total_duration. unfold synthesize_score, mbind, M_bind, lift.
    destruct (py_div total_duration (beats_per_second_of tempo)) as [secs|e];
      [|reflexivity].
    destruct (np_zeros H _) as [a|e]; [|reflexivity].
    apply for_each_as_note. }
  rewrite Hs. reflexivity.
Qed.

(** ** The times of a melody *)

(** One note of a melody: a note-on [gap] ticks after the message before
    it and a note-off [len] ticks later. *)
Record stroke := Stroke { pitch : Z; vel : Z; chan : Z; gap : Z; len : Z }.

Definition melody (strokes : list stroke) : list Midi.message :=
  flat_map (fun k => [Midi.note_on (pitch k) (vel k) (chan k) (gap k);
                      Midi.note_off (pitch k) 0 (chan k) (len k)]) strokes.

(** Each stroke with the tick at which it is struck. *)
Fixpoint onsets (elapsed : Z) (strokes : list stroke) : list (stroke * Z) :=
  match strokes with
  | [] => []
  | k :: rest => (k, elapsed + gap k) :: onsets (elapsed + gap k + len k) rest
  end.

(** Ticks in seconds at the default tempo of 120 beats a minute. *)
Definition seconds (tpb ticks : Z) : Q := (inject_Z ticks / inject_Z tpb * (60.0 / 120))%Q.

(** The event of a stroke struck at tick [onset]. *)
Definition plays (tpb : Z) (n : Midi.note_data) (ko : stroke * Z) : Prop :=
  Midi.note n = pitch ko.1 /\ Midi.velocity n = vel ko.1 /\ Midi.channel n = chan ko.1
  /\ (Midi.start_time n == seconds tpb ko.2)%Q
  /\ (Midi.duration n
      == if Qlt_bool (seconds tpb (len ko.1)) 0.1 then 0.5 else seconds tpb (len ko.1))%Q.

Lemma Qlt_bool_comp x y z : (x == y)%Q -> Qlt_bool x z = Qlt_bool y z.
Proof.
  intros E. apply eq_true_iff_eq. rewrite !Qlt_bool_iff. rewrite E. reflexivity.
Qed.

Lemma alter_last {A} (f : A -> A) (l : list A) (x : A) :
  alter f (length l) (l ++ [x]) = l ++ [f x].
Proof. induction l as [|y l IH]; cbn; [reflexivity|]. f_equal. exact IH. Qed.

Section Melody.
Import Midi.
Context (tpb : Z).
Hypothesis tpb_nonzero : tpb <> 0.

Lemma seconds_add a b : (seconds tpb a + seconds tpb b == seconds tpb (a + b))%Q.
Proof.
  unfold seconds. rewrite inject_Z_plus. field.
  unfold Qeq; simpl; lia.
Qed.

Lemma on_message_note_on v n velocity ch t :
  0 < velocity -> tempo v = 120%Q ->
  on_message tpb v (note_on n velocity ch t)
  = Ok (let t1 := (track_time v + inject_Z t / inject_Z tpb * (60.0 / 120))%Q in
        Vars (notes v ++ [NoteData n velocity t1 0.5 ch]) 120 t1
          (<[n := length (notes v)]> (active_notes v))).
Proof.
  intros Hvel Ht.
  assert (H120 : ~ (120 == 0)%Q) by (unfold Qeq; simpl; lia).
  unfold on_message. cbn [time].
  rewrite (py_div_ok _ tpb tpb_nonzero), Ht, (py_div_nonzero _ _ H120).
  cbn [mbind outcome_bind mret outcome_ret notes tempo track_time active_notes].
  destruct (0 <? velocity) eqn:Ev; [|apply Z.ltb_ge in Ev; lia].
  reflexivity.
Qed.

Lemma on_message_note_off v n velocity ch t :
  tempo v = 120%Q ->
  on_message tpb v (note_off n velocity ch t)
  = Ok (close_note n
          (Vars (notes v) 120
             (track_time v + inject_Z t / inject_Z tpb * (60.0 / 120))%Q (active_notes v))).
Proof.
  intros Ht.
  assert (H120 : ~ (120 == 0)%Q) by (unfold Qeq; simpl; lia).
  unfold on_message. cbn [time].
  rewrite (py_div_ok _ tpb tpb_nonzero), Ht, (py_div_nonzero _ _ H120).
  cbn [mbind outcome_bind mret outcome_ret notes tempo track_time active_notes].
  reflexivity.
Qed.

Lemma on_messages_stroke v k rest :
  0 < vel k -> tempo v = 120%Q ->
  on_messages tpb v
    (note_on (pitch k) (vel k) (chan k) (gap k)
     :: note_off (pitch k) 0 (chan k) (len k) :: rest)
  = on_messages tpb
      (let t1 := (track_time v + inject_Z (gap k) / inject_Z tpb * (60.0 / 120))%Q in
       let t2 := (t1 + inject_Z (len k) / inject_Z tpb * (60.0 / 120))%Q in
       Vars (notes v
             ++ [NoteData (pitch k) (vel k) t1
                   (if Qlt_bool (t2 - t1) 0.1 then 0.5%Q else (t2 - t1)%Q) (chan k)])
         120 t2 (delete (pitch k) (<[pitch k := length (notes v)]> (active_notes v))))
      rest.
Proof.
  intros Hvel Ht.
  cbn [on_messages].
  rewrite (on_message_note_on v _ _ _ _ Hvel Ht).
  cbv zeta. cbn [mbind outcome_bind].
  rewrite on_message_note_off by reflexivity.
  cbn [mbind outcome_bind notes tempo track_time active_notes].
  unfold close_note. cbn [notes tempo track_time active_notes].
  rewrite lookup_insert_eq. rewrite alter_last. reflexivity.
Qed.

Lemma on_messages_melody strokes : forall v elapsed,
  Forall (fun k => 0 < vel k) strokes ->
  tempo v = 120%Q -> (track_time v == seconds tpb elapsed)%Q ->
  exists v' events,
    on_messages tpb v (melody strokes) = Ok v'
    /\ notes v' = notes v ++ events
    /\ tempo v' = 120%Q
    /\ Forall2 (plays tpb) events (onsets elapsed strokes).
Proof.
  induction strokes as [|k strokes IH]; intros v elapsed Hvel Ht Htime.
  - exists v, []. cbn. rewrite app_nil_r. repeat split; [exact Ht|constructor].
  - apply Forall_cons in Hvel as [Hk Hvel].
    change (melody (k :: strokes))
      with (note_on (pitch k) (vel k) (chan k) (gap k)
            :: note_off (pitch k) 0 (chan k) (len k) :: melody strokes).
    rewrite (on_messages_stroke v k (melody strokes) Hk Ht). cbv zeta.
    set (t1 := (track_time v + inject_Z (gap k) / inject_Z tpb * (60.0 / 120))%Q).
    set (t2 := (t1 + inject_Z (len k) / inject_Z tpb * (60.0 / 120))%Q).
    assert (E1 : (t1 == seconds tpb (elapsed + gap k))%Q).
    { unfold t1. rewrite Htime. apply seconds_add. }
    assert (E2 : (t2 == seconds tpb (elapsed + gap k + len k))%Q).
    { unfold t2. rewrite E1. apply seconds_add. }
    assert (Ed : (t2 - t1 == seconds tpb (len k))%Q).
    { unfold t2, seconds. ring. }
    match goal with |- context [on_messages tpb ?w (melody strokes)] => set (v1 := w) end.
    destruct (IH v1 (elapsed + gap k + len k) Hvel eq_refl E2)
      as (v' & events & Hrun & Hnotes & Htempo & Hplays).
    exists v'. eexists (_ :: events). split; [exact Hrun|].
    split; [rewrite Hnotes; unfold v1; cbn [notes]; rewrite <- app_assoc; reflexivity|].
    split; [exact Htempo|].
    cbn [onsets]. constructor; [|exact Hplays].
    unfold plays. cbn [Midi.note Midi.velocity Midi.channel Midi.start_time Midi.duration fst snd].
    split; [reflexivity|]. split; [reflexivity|]. split; [reflexivity|].
    split; [exact E1|].
    rewrite (Qlt_bool_comp _ _ 0.1 Ed).
    destruct (Qlt_bool (seconds tpb (len k)) 0.1); [reflexivity | exact Ed].
Qed.

End Melody.

(** The length of a melody in ticks. *)
Definition ticks (strokes : list stroke) : Z :=
  foldr (fun k acc => gap k + len k + acc) 0 strokes.

(** A stroke of a melody on the grid of [unit] ticks. *)
Definition on_grid (unit : Z) (k : stroke) : Prop :=
  0 < vel k /\ 0 <= gap k /\ 0 <= len k /\ (unit | gap k) /\ (unit | len k).

(** The extraction is right on a melody on a binary grid. Take a file of
    one track of note-on and note-off pairs without tempo changes, whose
    resolution is [unit * 2 ^ j] ticks per beat and whose delta times are
    multiples of [unit], as with quarters, eighths, ... at 384 ticks per
    beat: every time is then a whole number of [1 / 2 ^ (j + 1)] seconds,
    which the doubles of the code hold exactly. The events are the
    strokes in order, each with its pitch, velocity and channel; an event
    starts at the time of its note-on, counted in ticks from the start of
    the track at 120 beats a minute, and lasts the time between its
    note-on and its note-off, or half a second when that is under a tenth
    of a second. *)
Theorem melody_times_are_extracted (unit j : Z) (strokes : list stroke) :
  0 < unit -> 0 <= j <= 14 ->
  strokes <> [] -> Forall (on_grid unit) strokes -> ticks strokes < 2 ^ 53 ->
  Forall2 (plays (unit * 2 ^ j))
    (Midi._extract_midi_notes
       (Ok {| Midi.ticks_per_beat := unit * 2 ^ j; Midi.tracks := [melody strokes] |}))
    (onsets 0 strokes).
Proof.
  intros Hunit Hj Hne Hgrid _.
  set (tpb := unit * 2 ^ j).
  assert (Htpb : tpb <> 0).
  { pose proof (Z.pow_pos_nonneg 2 j ltac:(lia) (proj1 Hj)). unfold tpb. nia. }
  assert (Hvel : Forall (fun k => 0 < vel k) strokes).
  { eapply Forall_impl; [exact Hgrid|]. intros k Hk. exact (proj1 Hk). }
  destruct (on_messages_melody tpb Htpb strokes (Midi.Vars [] 120 0.0 ∅) 0 Hvel eq_refl)
    as (v' & events & Hrun & Hnotes & _ & Hplays).
  { unfold seconds. cbn. unfold Qdiv. rewrite Qmult_0_l, Qmult_0_l. reflexivity. }
  unfold Midi._extract_midi_notes. cbn [mbind outcome_bind].
  unfold Midi.extract_body. cbn [Midi.ticks_per_beat Midi.tracks Midi.on_tracks].
  unfold Midi.on_track. cbn [fst snd]. rewrite Hrun.
  cbn [mbind outcome_bind mret outcome_ret Midi.on_tracks fst].
  cbn [app] in Hnotes. rewrite Hnotes.
  destruct events as [|e events].
  - apply Forall2_nil_inv_l in Hplays. destruct strokes; [destruct Hne; reflexivity|].
    discriminate.
  - rewrite bool_decide_eq_false_2 by discriminate. exact Hplays.
Qed.

(** A quarter note and a thirty-second note, at 384 ticks per beat. *)
Definition long_short : list stroke :=
  [Stroke 60 90 0 0 384; Stroke 62 90 0 0 48].

Lemma melody_times_are_extracted_witness :
  Forall2 (plays (3 * 2 ^ 7))
    (Midi._extract_midi_notes
       (Ok {| Midi.ticks_per_beat := 3 * 2 ^ 7; Midi.tracks := [melody long_short] |}))
    (onsets 0 long_short).
Proof.
  apply melody_times_are_extracted.
  - lia.
  - lia.
  - discriminate.
  - repeat constructor; cbn; try lia;
      first [exists 0; reflexivity | exists 128; reflexivity | exists 16; reflexivity].
  - vm_compute. reflexivity.
Defined.
